(** * greedypacker: the Skyline engine and the bin manager

    A shallow embedding of [greedypacker/skyline.py] and
    [greedypacker/binmanager.py].

    - Python integers are [Z]; a list index is a [nat].
    - An exception is a value of [exn].  An expression that only reads
      gives a [result]; a call that mutates gives an [outcome], which
      carries the state the call leaves behind, also when it raises.
    - An [Item] is a record; [insert] returns the item as the call
      leaves it, and the lists of items hold the items by value, as
      they were when they were appended.  The code appends the caller's
      object: a call of insert on an object that a list holds already
      moves or rotates that entry too.  The lists of the model are
      those of the code in the runs that never hand a recorded item to
      insert again.
    - A [SortedList] of segments is a list kept in tuple order.
    - The modules [item], [guillotine], [shelf] and [maximal_rectangles]
      are not among the sources.  [Item] and [FreeRectangle] are
      records taken from the spec; the three engine classes are
      interfaces ([GuillotineAPI], [SheetAPI], [MaximalRectangleAPI]),
      and so is float division, which only the ratio sort keys use.
      The facts hold for every implementation of these interfaces; the
      examples run on the Guillotine engine as the spec describes it. *)

From Stdlib Require Import ZArith List String Bool Lia.
From Stdlib Require Import Permutation.
Import ListNotations.
Local Open Scope string_scope.
Local Open Scope list_scope.
Local Open Scope Z_scope.

(** ** Python exceptions and the two result types *)

Inductive exn : Type :=
| ValueError (msg : string)
| IndexError
| AttributeError (attr : string)
| TypeError
| ZeroDivisionError
| OtherError (msg : string).

(** The result of an expression that only reads. *)
Inductive result (A : Type) : Type :=
| Ok (a : A)
| Err (e : exn).
Arguments Ok {A} a.
Arguments Err {A} e.

(** The result of a call that mutates: the value or the exception, and
    the state left behind in both cases. *)
Inductive outcome (St A : Type) : Type :=
| Returns (a : A) (st : St)
| Raises (e : exn) (st : St).
Arguments Returns {St A} a st.
Arguments Raises {St A} e st.

Definition state_of {St A} (o : outcome St A) : St :=
  match o with Returns _ st => st | Raises _ st => st end.

Definition bind_result {A B} (r : result A) (k : A -> result B) : result B :=
  match r with Ok a => k a | Err e => Err e end.

Notation "x <- r ;; k" := (bind_result r (fun x => k))
  (at level 61, r at next level, right associativity).

(** [l[i]] for [0 <= i]: [IndexError] out of range. *)
Definition getitem {A} (l : list A) (i : nat) : result A :=
  match nth_error l i with Some a => Ok a | None => Err IndexError end.

(** [min(l, key=...)]: the first element whose key is smallest; [lt] is
    [<] on the keys. *)
Fixpoint min_from {A} (lt : A -> A -> bool) (best : A) (l : list A) : A :=
  match l with
  | [] => best
  | c :: l' => min_from lt (if lt c best then c else best) l'
  end.

(** ** item.py *)

Module Item.

(** Modelled from the spec: [greedypacker/item.py] is not among the
    sources.  "Rectangle with mutable (x,y) placement and rotate() that
    swaps width/height"; "Rotation toggles the flag and swaps
    width and height". *)
Record t : Type := mk {
  width : Z;
  height : Z;
  x : Z;
  y : Z;
  rotated : bool
}.

Definition rotate (i : t) : t :=
  mk (height i) (width i) (x i) (y i) (negb (rotated i)).

Definition set_xy (i : t) (x' y' : Z) : t :=
  mk (width i) (height i) x' y' (rotated i).

End Item.

(** ** The skyline segment and the sorted list that holds them *)

Module SkylineSegment.

Record t : Type := mk { x : Z; y : Z; width : Z }.

Definition eqb (a b : t) : bool :=
  (x a =? x b) && (y a =? y b) && (width a =? width b).

(** Named tuples compare as tuples: lexicographically on (x, y, width). *)
Definition ltb (a b : t) : bool :=
  (x a <? x b)
  || ((x a =? x b)
      && ((y a <? y b) || ((y a =? y b) && (width a <? width b)))).

End SkylineSegment.

Module SortedList.

Import SkylineSegment.

(** [SortedList.add]: the value goes after the elements that are not
    greater (bisect_right). *)
Fixpoint add (l : list SkylineSegment.t) (v : SkylineSegment.t) : list SkylineSegment.t :=
  match l with
  | [] => [v]
  | e :: l' => if ltb v e then v :: e :: l' else e :: add l' v
  end.

(** [SortedList.update]: every value of the iterable is added. *)
Definition update (l vs : list SkylineSegment.t) : list SkylineSegment.t :=
  fold_left add vs l.

(** [SortedList.remove]: drops the first element equal to the value,
    [ValueError] when there is none. *)
Fixpoint remove (l : list SkylineSegment.t) (v : SkylineSegment.t)
  : result (list SkylineSegment.t) :=
  match l with
  | [] => Err (ValueError "value not in list")
  | e :: l' =>
      if eqb e v then Ok l'
      else match remove l' v with
           | Ok r => Ok (e :: r)
           | Err e' => Err e'
           end
  end.

(** [SortedList.index]: position of the first element equal to the
    value, [ValueError] when there is none. *)
Fixpoint index (l : list SkylineSegment.t) (v : SkylineSegment.t) : result nat :=
  match l with
  | [] => Err (ValueError "value not in list")
  | e :: l' =>
      if eqb e v then Ok O
      else match index l' v with
           | Ok n => Ok (S n)
           | Err e' => Err e'
           end
  end.

(** [l[-1]]. *)
Fixpoint last (l : list SkylineSegment.t) : result SkylineSegment.t :=
  match l with
  | [] => Err IndexError
  | [e] => Ok e
  | _ :: l' => last l'
  end.

End SortedList.

(** ** guillotine.py, as far as skyline.py and binmanager.py call it *)

(** Modelled from the spec: [FreeRectangle] of [greedypacker/guillotine.py],
    which is not among the sources: "width, height, x, y". *)
Record FreeRectangle : Type := mkFreeRectangle {
  fr_width : Z;
  fr_height : Z;
  fr_x : Z;
  fr_y : Z
}.

(** A score as an engine reports it: skyline scores are pairs; the score
    of the free-rectangle engines is one number. *)
Inductive score : Type :=
| IntScore (n : Z)
| PairScore (a b : Z).

(** [<] on scores; a number and a tuple do not compare. *)
Definition score_lt (a b : score) : result bool :=
  match a, b with
  | IntScore m, IntScore n => Ok (m <? n)
  | PairScore a1 a2, PairScore b1 b2 =>
      Ok ((a1 <? b1) || ((a1 =? b1) && (a2 <? b2)))
  | _, _ => Err TypeError
  end.

(** The class [guillotine.Guillotine] is not among the sources; the two
    files use it through this interface.  [Guillotine_init x y rotation
    heuristic rectangle_merge split_heuristic] is the constructor (the
    last two have defaults), [Guillotine_bool] is the truth value of an
    instance, [freerects_add] is [self.freerects.add(rect)],
    [Guillotine_rectangle_merge] is [self.rectangle_merge()]. *)
Class GuillotineAPI (G : Type) : Type := {
  Guillotine_init :
    Z -> Z -> bool -> string -> option bool -> option string -> result G;
  Guillotine_bool : G -> bool;
  Guillotine_insert :
    G -> Item.t -> option string -> outcome (G * Item.t) bool;
  Guillotine_find_best_score : G -> Item.t -> result (option score);
  freerects_add : G -> FreeRectangle -> G;
  Guillotine_rectangle_merge : G -> outcome G unit
}.

(** ** skyline.py *)

Module Skyline.

Import SkylineSegment.

(** [scoreBL] and [scoreBF] return a pair of integers; tuples compare
    lexicographically. *)
Definition pair_ltb (a b : Z * Z) : bool :=
  (fst a <? fst b) || ((fst a =? fst b) && (snd a <? snd b)).

(** lines 249-254 *)
Definition scoreBL (segs : list SkylineSegment.t) (item : Item.t) (y0 : Z)
    (i : nat) (rotation : bool) : result (Z * Z) :=
  seg <- getitem segs i ;;
  if rotation then Ok (Item.width item + y0, width seg)
  else Ok (Item.height item + y0, width seg).

(** The [for seg in segs[i:]] loop of [calc_waste], lines 272-277. *)
Fixpoint calc_waste_loop (item_left item_right y0 : Z)
    (segs : list SkylineSegment.t) (wasted_area : Z) : Z :=
  match segs with
  | [] => wasted_area
  | seg :: rest =>
      if (x seg >=? item_right) || (x seg + width seg <=? item_left)
      then wasted_area
      else
        let left_side := x seg in
        let right_side := Z.min item_right (x seg + width seg) in
        calc_waste_loop item_left item_right y0 rest
          (wasted_area + (right_side - left_side) * (y0 - y seg))
  end.

(** lines 257-278 *)
Definition calc_waste (segs : list SkylineSegment.t) (item : Item.t) (y0 : Z)
    (i : nat) (rotation : bool) : result Z :=
  seg <- getitem segs i ;;
  let item_left := x seg in
  let item_right :=
    if negb rotation then item_left + Item.width item
    else item_left + Item.height item in
  Ok (calc_waste_loop item_left item_right y0 (skipn i segs) 0).

(** lines 281-290 *)
Definition scoreBF (segs : list SkylineSegment.t) (item : Item.t) (y0 : Z)
    (i : nat) (rotation : bool) : result (Z * Z) :=
  if rotation then
    w <- calc_waste segs item y0 i true ;; Ok (w, Item.width item + y0)
  else
    w <- calc_waste segs item y0 i false ;; Ok (w, Item.height item + y0).

(** What [self._score] is bound to. *)
Inductive scorer : Type := BL | BF.

Definition call_score (f : scorer) :=
  match f with BL => scoreBL | BF => scoreBF end.

(** lines 51-87 *)
Definition _clip_segment (segment : SkylineSegment.t) (item : Item.t)
  : list SkylineSegment.t :=
  let itemx := Item.x item in
  let item_end_x := itemx + Item.width item in
  let segx := x segment in
  let seg_end_x := segx + width segment in
  if (segx >? item_end_x) || (segx + width segment <? itemx) then [segment]
  else if (segx >=? itemx) && (seg_end_x <=? item_end_x) then []
  else if (segx <? itemx) && (seg_end_x <=? item_end_x) then
    [SkylineSegment.mk segx (y segment) (itemx - segx)]
  else if (segx >=? itemx) && (segx + width segment >? item_end_x) then
    [SkylineSegment.mk item_end_x (y segment) (seg_end_x - item_end_x)]
  else if (segx <? itemx) && (segx + width segment >? item_end_x) then
    [SkylineSegment.mk segx (y segment) (itemx - segx);
     SkylineSegment.mk item_end_x (y segment) (seg_end_x - item_end_x)]
  else [].

(** The [while width > 0] loop of [_check_fit], lines 148-156, over
    [self.skyline[i:]].  [(False, None)] is [None], [(True, y)] is
    [Some y]. *)
Fixpoint _check_fit_loop (self_height item_height : Z)
    (segs : list SkylineSegment.t) (width0 y0 : Z) : result (option Z) :=
  if width0 >? 0 then
    match segs with
    | [] => Err IndexError
    | seg :: rest =>
        let y1 := Z.max y0 (y seg) in
        if y1 + item_height >? self_height then Ok None
        else
          let width1 := width0 - width seg in
          if (width1 >? 0) && (match rest with [] => true | _ => false end)
          then Ok None
          else _check_fit_loop self_height item_height rest width1 y1
    end
  else Ok (Some y0).

(** The [for seg in self.skyline[1:]] loop of [_merge_segments],
    lines 117-125. *)
Fixpoint _merge_loop (segs new_segments : list SkylineSegment.t)
  : result (list SkylineSegment.t) :=
  match segs with
  | [] => Ok new_segments
  | seg :: rest =>
      last <- SortedList.last new_segments ;;
      if (y seg =? y last) && (x seg =? x last + width last) then
        let new_last :=
          SkylineSegment.mk (x last) (y last) ((x seg + width seg) - x last) in
        removed <- SortedList.remove new_segments last ;;
        _merge_loop rest (SortedList.add removed new_last)
      else _merge_loop rest (SortedList.add new_segments seg)
  end.

(** The statistics dictionary of [bin_stats]; the efficiency is the
    quotient numerator / denominator that Python rounds to a float. *)
Record stats : Type := mk_stats {
  stats_width : Z;
  stats_height : Z;
  stats_area : Z;
  stats_efficiency : Z * Z;
  stats_items : list Item.t
}.

Section WithGuillotine.

Context {G : Type} {GA : GuillotineAPI G}.

(** The instance attributes.  [wastemap] is [None] when the attribute
    was never assigned. *)
Record t : Type := mk {
  width : Z;
  height : Z;
  skyline : list SkylineSegment.t;
  items : list Item.t;
  area : Z;
  free_area : Z;
  rotation : bool;
  use_waste_map : bool;
  wastemap : option G;
  heuristic : string;
  _score : scorer
}.

Definition set_wastemap (self : t) (wm : option G) : t :=
  mk (width self) (height self) (skyline self) (items self) (area self)
     (free_area self) (rotation self) (use_waste_map self) wm
     (heuristic self) (_score self).

Definition set_skyline (self : t) (segs : list SkylineSegment.t) : t :=
  mk (width self) (height self) segs (items self) (area self)
     (free_area self) (rotation self) (use_waste_map self) (wastemap self)
     (heuristic self) (_score self).

(** [self.items.append(item); self.free_area -= item.width * item.height].
    The list takes the item by value.  The code appends the caller's
    object, so the entry follows the object: a later insert of the same
    object, into this engine or another, moves or rotates the entry as
    well.  The list is that of the code as long as no recorded item is
    handed to insert again. *)
Definition record_item (self : t) (item : Item.t) : t :=
  mk (width self) (height self) (skyline self) (items self ++ [item])
     (area self) (free_area self - Item.width item * Item.height item)
     (rotation self) (use_waste_map self) (wastemap self)
     (heuristic self) (_score self).

(** lines 21-44 *)
Definition __init__ (width0 height0 : Z) (rotation0 wastemap0 : bool)
    (heuristic0 : string) : result t :=
  wm <- (if wastemap0 then
           g <- Guillotine_init 0 0 rotation0 "best_area" None None ;;
           Ok (Some g)
         else Ok None) ;;
  sc <- (if (heuristic0 =? "bottom_left")%string then Ok BL
         else if (heuristic0 =? "best_fit")%string then Ok BF
         else Err (ValueError "No such heuristic!")) ;;
  Ok (mk width0 height0 [SkylineSegment.mk 0 0 width0] []
         (width0 * height0) (width0 * height0) rotation0 wastemap0 wm
         heuristic0 sc).

(** lines 130-156 *)
Definition _check_fit (self : t) (item_width item_height : Z)
    (sky_index : nat) : result (option Z) :=
  seg <- getitem (skyline self) sky_index ;;
  let x0 := SkylineSegment.x seg in
  let y0 := SkylineSegment.y seg in
  if x0 + item_width >? width self then Ok None
  else if y0 + item_height >? height self then Ok None
  else _check_fit_loop (height self) item_height
         (skipn sky_index (skyline self)) item_width y0.

(** The [for seg in self.skyline[seg_index:]] loop of [_add_to_wastemap],
    lines 170-186; the state is the [wastemap] attribute. *)
Fixpoint _add_to_wastemap_loop (item_left item_right y0 : Z)
    (segs : list SkylineSegment.t) (wm : option G) : outcome (option G) unit :=
  match segs with
  | [] => Returns tt wm
  | seg :: rest =>
      if (SkylineSegment.x seg >=? item_right)
         || (SkylineSegment.x seg + SkylineSegment.width seg <=? item_left)
      then Returns tt wm
      else
        let left_side := SkylineSegment.x seg in
        let right_side :=
          Z.min item_right (SkylineSegment.x seg + SkylineSegment.width seg) in
        let w_width := right_side - left_side in
        let w_height := y0 - SkylineSegment.y seg in
        let w_x := left_side in
        let w_y := SkylineSegment.y seg in
        if (w_width >? 0) && (w_height >? 0) then
          match wm with
          | None => Raises (AttributeError "wastemap") wm
          | Some g =>
              let waste_rect := mkFreeRectangle w_width w_height w_x w_y in
              match Guillotine_rectangle_merge (freerects_add g waste_rect) with
              | Raises e g' => Raises e (Some g')
              | Returns _ g' =>
                  _add_to_wastemap_loop item_left item_right y0 rest (Some g')
              end
          end
        else _add_to_wastemap_loop item_left item_right y0 rest wm
  end.

(** lines 159-186 *)
Definition _add_to_wastemap (self : t) (seg_index : nat) (item : Item.t)
    (y0 : Z) : outcome t unit :=
  match getitem (skyline self) seg_index with
  | Err e => Raises e self
  | Ok seg =>
      let item_left := SkylineSegment.x seg in
      let item_right := item_left + Item.width item in
      match _add_to_wastemap_loop item_left item_right y0
              (skipn seg_index (skyline self)) (wastemap self) with
      | Returns _ wm => Returns tt (set_wastemap self wm)
      | Raises e wm => Raises e (set_wastemap self wm)
      end
  end.

(** lines 90-109 *)
Definition _update_segment (self : t) (segment : SkylineSegment.t) (y0 : Z)
    (item : Item.t) : outcome t (list SkylineSegment.t) :=
  let donated :=
    if use_waste_map self then
      match SortedList.index (skyline self) segment with
      | Err e => Raises e self
      | Ok seg_i => _add_to_wastemap self seg_i item y0
      end
    else Returns tt self in
  match donated with
  | Raises e self' => Raises e self'
  | Returns _ self' =>
      let new_segments :=
        fold_left (fun acc seg => SortedList.update acc (_clip_segment seg item))
                  (skyline self') [] in
      if Item.height item + Item.y item <? height self' then
        let new_seg_y := Item.y item + Item.height item in
        let new_seg :=
          SkylineSegment.mk (SkylineSegment.x segment) new_seg_y
                            (Item.width item) in
        Returns (SortedList.add new_segments new_seg) self'
      else Returns new_segments self'
  end.

(** lines 112-127 *)
Definition _merge_segments (self : t) : outcome t unit :=
  match skyline self with
  | [] => Raises IndexError self
  | first :: rest =>
      match _merge_loop rest [first] with
      | Ok new_segments => Returns tt (set_skyline self new_segments)
      | Err e => Raises e self
      end
  end.

(** A candidate [(score, segment, y, rotated)] of [_find_best_score]. *)
Definition candidate : Type := ((Z * Z) * SkylineSegment.t * Z * bool)%type.

Definition cand_score (c : candidate) : Z * Z := fst (fst (fst c)).

(** The [for i, segment in enumerate(self.skyline)] loop, lines 191-200. *)
Fixpoint _candidates (self : t) (item : Item.t) (i : nat)
    (segs : list SkylineSegment.t) : result (list candidate) :=
  match segs with
  | [] => Ok []
  | segment :: rest =>
      fit <- _check_fit self (Item.width item) (Item.height item) i ;;
      plain <- match fit with
               | Some y0 =>
                   sc <- call_score (_score self) (skyline self) item y0 i false ;;
                   Ok [(sc, segment, y0, false)]
               | None => Ok []
               end ;;
      turned <- (if rotation self then
                   fit' <- _check_fit self (Item.height item) (Item.width item) i ;;
                   match fit' with
                   | Some y0 =>
                       sc <- call_score (_score self) (skyline self) item y0 i true ;;
                       Ok [(sc, segment, y0, true)]
                   | None => Ok []
                   end
                 else Ok []) ;;
      others <- _candidates self item (S i) rest ;;
      Ok (plain ++ turned ++ others)
  end.

(** lines 189-205; [None] is the tuple [(None, None, None, False)],
    [Some (score, seg, rot, y)] the tuple of the [try] branch. *)
Definition _find_best_score (self : t) (item : Item.t)
  : result (option ((Z * Z) * SkylineSegment.t * bool * Z)) :=
  segs <- _candidates self item O (skyline self) ;;
  match segs with
  | [] => Ok None
  | c :: cs =>
      let '(sc, seg, y0, rot) :=
        min_from (fun a b => pair_ltb (cand_score a) (cand_score b)) c cs in
      Ok (Some (sc, seg, rot, y0))
  end.

(** lines 220-230: the placement on the skyline. *)
Definition _place (self : t) (item : Item.t) : outcome (t * Item.t) bool :=
  match _find_best_score self item with
  | Err e => Raises e (self, item)
  | Ok None => Returns false (self, item)
  | Ok (Some (_, best_seg, rot, best_y)) =>
      let item1 := if rot then Item.rotate item else item in
      let item2 := Item.set_xy item1 (SkylineSegment.x best_seg) best_y in
      let self1 := record_item self item2 in
      match _update_segment self1 best_seg best_y item2 with
      | Raises e self2 => Raises e (self2, item2)
      | Returns segs self2 =>
          match _merge_segments (set_skyline self2 segs) with
          | Raises e self3 => Raises e (self3, item2)
          | Returns _ self3 => Returns true (self3, item2)
          end
      end
  end.

(** lines 208-230.  The argument [heuristic] is not read. *)
Definition insert (self : t) (item : Item.t) (heuristic0 : option string)
  : outcome (t * Item.t) bool :=
  match wastemap self with
  | None => Raises (AttributeError "wastemap") (self, item)
  | Some wm =>
      if Guillotine_bool wm then
        match Guillotine_insert wm item (Some "best_area") with
        | Raises e (wm', item') => Raises e (set_wastemap self (Some wm'), item')
        | Returns res (wm', item') =>
            let self' := set_wastemap self (Some wm') in
            if res then Returns true (record_item self' item', item')
            else _place self' item'
        end
      else _place self item
  end.

(** Reading an integer attribute by name: [AttributeError] for a name
    that [__init__] does not assign. *)
Definition getattr_int (self : t) (name : string) : result Z :=
  if (name =? "width")%string then Ok (width self)
  else if (name =? "height")%string then Ok (height self)
  else if (name =? "area")%string then Ok (area self)
  else if (name =? "free_area")%string then Ok (free_area self)
  else Err (AttributeError name).

(** [a / b] on integers, before rounding. *)
Definition true_div (a b : Z) : result (Z * Z) :=
  if b =? 0 then Err ZeroDivisionError else Ok (a, b).

(** lines 233-246 *)
Definition bin_stats (self : t) : result stats :=
  w <- getattr_int self "x" ;;
  h <- getattr_int self "y" ;;
  a <- getattr_int self "area" ;;
  a' <- getattr_int self "area" ;;
  f <- getattr_int self "free_area" ;;
  a'' <- getattr_int self "area" ;;
  e <- true_div (a' - f) a'' ;;
  Ok (mk_stats w h a e (items self)).

End WithGuillotine.

Arguments t G : clear implicits.

End Skyline.

(** ** binmanager.py *)

(** [shelf.Sheet] and [maximal_rectangles.MaximalRectangle] are not among
    the sources; the manager constructs them and calls [insert] and
    [_find_best_score] on them. *)
Class SheetAPI (Sh : Type) : Type := {
  Sheet_init : Z -> Z -> bool -> bool -> string -> result Sh;
  Sheet_insert : Sh -> Item.t -> option string -> outcome (Sh * Item.t) bool;
  Sheet_find_best_score : Sh -> Item.t -> result (option score)
}.

Class MaximalRectangleAPI (MR : Type) : Type := {
  MaximalRectangle_init : Z -> Z -> bool -> string -> result MR;
  MaximalRectangle_insert :
    MR -> Item.t -> option string -> outcome (MR * Item.t) bool;
  MaximalRectangle_find_best_score : MR -> Item.t -> result (option score)
}.

(** Python floats, as far as the ratio sort keys need them: the true
    division of two integers and [<]. *)
Class FloatAPI (F : Type) : Type := {
  float_div : Z -> Z -> result F;
  float_ltb : F -> F -> bool
}.

(** [list.sort(key=..., reverse=...)] on a list decorated with its keys:
    a stable sort; with [reverse] equal keys keep their order too. *)
Fixpoint insert_sorted {K A} (before : K -> K -> bool) (kv : K * A)
    (l : list (K * A)) : list (K * A) :=
  match l with
  | [] => [kv]
  | e :: l' =>
      if before (fst kv) (fst e) then kv :: l
      else e :: insert_sorted before kv l'
  end.

Definition list_sort {K A} (lt : K -> K -> bool) (reverse : bool)
    (l : list (K * A)) : list A :=
  let before := if reverse then (fun a b => lt b a) else lt in
  map snd (fold_left (fun acc kv => insert_sorted before kv acc) l []).

Fixpoint decorate {K A} (key : A -> result K) (l : list A)
  : result (list (K * A)) :=
  match l with
  | [] => Ok []
  | a :: l' => k <- key a ;; r <- decorate key l' ;; Ok ((k, a) :: r)
  end.

(** [l] with position [i] replaced. *)
Fixpoint replace_nth {A} (l : list A) (i : nat) (a : A) : list A :=
  match l, i with
  | [], _ => []
  | _ :: l', O => a :: l'
  | e :: l', S j => e :: replace_nth l' j a
  end.

Module BinManager.

Section WithEngines.

Context {G Sh MR F : Type}.
Context {GA : GuillotineAPI G} {SA : SheetAPI Sh}
        {MA : MaximalRectangleAPI MR} {FA : FloatAPI F}.

(** A bin is an instance of one of the four engine classes. *)
Inductive Bin : Type :=
| GuillotineBin (g : G)
| SheetBin (s : Sh)
| MaximalRectangleBin (m : MR)
| SkylineBin (s : Skyline.t G).

(** [binn.insert(item, heuristic)] *)
Definition Bin_insert (binn : Bin) (item : Item.t) (heuristic0 : option string)
  : outcome (Bin * Item.t) bool :=
  match binn with
  | GuillotineBin g =>
      match Guillotine_insert g item heuristic0 with
      | Returns r (g', i') => Returns r (GuillotineBin g', i')
      | Raises e (g', i') => Raises e (GuillotineBin g', i')
      end
  | SheetBin s =>
      match Sheet_insert s item heuristic0 with
      | Returns r (s', i') => Returns r (SheetBin s', i')
      | Raises e (s', i') => Raises e (SheetBin s', i')
      end
  | MaximalRectangleBin m =>
      match MaximalRectangle_insert m item heuristic0 with
      | Returns r (m', i') => Returns r (MaximalRectangleBin m', i')
      | Raises e (m', i') => Raises e (MaximalRectangleBin m', i')
      end
  | SkylineBin s =>
      match Skyline.insert s item heuristic0 with
      | Returns r (s', i') => Returns r (SkylineBin s', i')
      | Raises e (s', i') => Raises e (SkylineBin s', i')
      end
  end.

(** [s, _, _ = binn._find_best_score(item)[:3]] *)
Definition Bin_best_score (binn : Bin) (item : Item.t) : result (option score) :=
  match binn with
  | GuillotineBin g => Guillotine_find_best_score g item
  | SheetBin s => Sheet_find_best_score s item
  | MaximalRectangleBin m => MaximalRectangle_find_best_score m item
  | SkylineBin s =>
      r <- Skyline._find_best_score s item ;;
      match r with
      | Some (sc, _, _, _) => Ok (Some (PairScore (fst sc) (snd sc)))
      | None => Ok None
      end
  end.

(** What [self.bin_sel_algo] is bound to. *)
Inductive sel_algo : Type := BestFit | FirstFit.

(** The instance attributes.  [bin_sel_algo] is [None] when the
    attribute was never assigned. *)
Record t : Type := mk {
  bin_width : Z;
  bin_height : Z;
  items : list Item.t;
  bin_count : Z;
  bin_algo : string;
  pack_algo : string;
  heuristic : string;
  bin_sel_algo : option sel_algo;
  algorithm : string;
  split_heuristic : string;
  sorting : bool;
  sorting_heuristic : string;
  rotation : bool;
  rectangle_merge : bool;
  wastemap : bool;
  bins : list Bin
}.

Definition set_bins (self : t) (bs : list Bin) : t :=
  mk (bin_width self) (bin_height self) (items self) (bin_count self)
     (bin_algo self) (pack_algo self) (heuristic self) (bin_sel_algo self)
     (algorithm self) (split_heuristic self) (sorting self)
     (sorting_heuristic self) (rotation self) (rectangle_merge self)
     (wastemap self) bs.

Definition set_items (self : t) (its : list Item.t) : t :=
  mk (bin_width self) (bin_height self) its (bin_count self)
     (bin_algo self) (pack_algo self) (heuristic self) (bin_sel_algo self)
     (algorithm self) (split_heuristic self) (sorting self)
     (sorting_heuristic self) (rotation self) (rectangle_merge self)
     (wastemap self) (bins self).

(** lines 122-138 *)
Definition _bin_factory (self : t) : result Bin :=
  if (algorithm self =? "guillotine")%string then
    g <- Guillotine_init (bin_width self) (bin_height self) (rotation self)
           (heuristic self) (Some (rectangle_merge self))
           (Some (split_heuristic self)) ;;
    Ok (GuillotineBin g)
  else if (algorithm self =? "shelf")%string then
    s <- Sheet_init (bin_width self) (bin_height self) (rotation self)
           (wastemap self) (heuristic self) ;;
    Ok (SheetBin s)
  else if (algorithm self =? "maximal_rectangle")%string then
    m <- MaximalRectangle_init (bin_width self) (bin_height self)
           (rotation self) (heuristic self) ;;
    Ok (MaximalRectangleBin m)
  else if (algorithm self =? "skyline")%string then
    s <- Skyline.__init__ (bin_width self) (bin_height self) (rotation self)
           (wastemap self) (heuristic self) ;;
    Ok (SkylineBin s)
  else Err (ValueError "Error: No such Algorithm").

(** lines 25-59 *)
Definition __init__ (bin_width0 bin_height0 : Z) (bin_algo0 pack_algo0 : string)
    (heuristic0 split_heuristic0 : string) (rotation0 rectangle_merge0 : bool)
    (wastemap0 sorting0 : bool) (sorting_heuristic0 : string) : result t :=
  let sel :=
    if (bin_algo0 =? "bin_best_fit")%string then Some BestFit
    else if (bin_algo0 =? "bin_first_fit")%string then Some FirstFit
    else None in
  let self :=
    mk bin_width0 bin_height0 [] 0 bin_algo0 pack_algo0 heuristic0 sel
       pack_algo0 split_heuristic0 sorting0 sorting_heuristic0 rotation0
       rectangle_merge0 wastemap0 [] in
  defaultBin <- _bin_factory self ;;
  Ok (set_bins self [defaultBin]).

(** [self.items.sort(key=key, reverse=reverse)]; when a key raises the
    list is left as it was. *)
Definition sort_items {K} (key : Item.t -> result K) (lt : K -> K -> bool)
    (reverse : bool) (self : t) : outcome t unit :=
  match decorate key (items self) with
  | Err e => Raises e self
  | Ok keyed => Returns tt (set_items self (list_sort lt reverse keyed))
  end.

Definition key_area (el : Item.t) : result Z :=
  Ok (Item.width el * Item.height el).
Definition key_shorter_side (el : Item.t) : result Z :=
  Ok (if Item.width el <? Item.height el then Item.width el else Item.height el).
Definition key_longer_side (el : Item.t) : result Z :=
  Ok (if Item.width el >? Item.height el then Item.width el else Item.height el).
Definition key_perimeter (el : Item.t) : result Z :=
  Ok (2 * Item.width el + 2 * Item.height el).
Definition key_difference (el : Item.t) : result Z :=
  Ok (Z.abs (Item.width el - Item.height el)).
Definition key_ratio (el : Item.t) : result F :=
  float_div (Item.width el) (Item.height el).

(** lines 61-113 *)
Definition items_sort (self : t) : outcome t unit :=
  let h := sorting_heuristic self in
  if (h =? "ASCA")%string then sort_items key_area Z.ltb false self
  else if (h =? "DESCA")%string then sort_items key_area Z.ltb true self
  else if (h =? "ASCSS")%string then sort_items key_shorter_side Z.ltb false self
  else if (h =? "DESCSS")%string then sort_items key_shorter_side Z.ltb true self
  else if (h =? "ASCLS")%string then sort_items key_longer_side Z.ltb false self
  else if (h =? "DESCLS")%string then sort_items key_longer_side Z.ltb true self
  else if (h =? "ASCPERIM")%string then sort_items key_perimeter Z.ltb false self
  else if (h =? "DESCPERIM")%string then sort_items key_perimeter Z.ltb true self
  else if (h =? "ASCDIFF")%string then sort_items key_difference Z.ltb false self
  else if (h =? "DESCDIFF")%string then sort_items key_difference Z.ltb true self
  else if (h =? "ASCRATIO")%string then sort_items key_ratio float_ltb false self
  else if (h =? "DESCRATIO")%string then sort_items key_ratio float_ltb true self
  else sort_items key_area Z.ltb true self.

(** lines 115-119 *)
Definition add_items (self : t) (new_items : list Item.t) : outcome t unit :=
  let self' := set_items self (items self ++ new_items) in
  if sorting self' then items_sort self' else Returns tt self'.

(** The [for binn in self.bins] loop of [_bin_first_fit], lines 145-149:
    the value of [result] after the loop, and the bins and the item as
    the loop leaves them. *)
Fixpoint _first_fit_loop (heuristic0 : string) (bs : list Bin) (item : Item.t)
  : outcome (list Bin * Item.t) bool :=
  match bs with
  | [] => Returns false ([], item)
  | binn :: rest =>
      match Bin_insert binn item (Some heuristic0) with
      | Raises e (binn', item') => Raises e (binn' :: rest, item')
      | Returns true (binn', item') => Returns true (binn' :: rest, item')
      | Returns false (binn', item') =>
          match _first_fit_loop heuristic0 rest item' with
          | Returns r (rest', item'') => Returns r (binn' :: rest', item'')
          | Raises e (rest', item'') => Raises e (binn' :: rest', item'')
          end
      end
  end.

(** lines 141-152 *)
Definition _bin_first_fit (self : t) (item : Item.t) : outcome (t * Item.t) unit :=
  match _first_fit_loop (heuristic self) (bins self) item with
  | Raises e (bs, item') => Raises e (set_bins self bs, item')
  | Returns result0 (bs, item') =>
      let self1 := set_bins self bs in
      if negb result0 then
        match _bin_factory self1 with
        | Err e => Raises e (self1, item')
        | Ok new_bin =>
            match Bin_insert new_bin item' (Some (heuristic self1)) with
            | Raises e (new_bin', item'') =>
                Raises e (set_bins self1 (bs ++ [new_bin']), item'')
            | Returns _ (new_bin', item'') =>
                Returns tt (set_bins self1 (bs ++ [new_bin']), item'')
            end
        end
      else Returns tt (self1, item')
  end.

(** lines 161-168: [item_fits] *)
Definition item_fits (self : t) (item : Item.t) : bool :=
  ((Item.width item <=? bin_width self) && (Item.height item <=? bin_height self))
  || (rotation self
      && ((Item.height item <=? bin_width self)
          && (Item.width item <=? bin_height self))).

(** The [for binn in self.bins] loop of [_bin_best_fit], lines 172-176;
    a bin is recorded by its position in [self.bins]. *)
Fixpoint _collect_scores (bs : list Bin) (item : Item.t) (i : nat)
  : result (list (score * nat)) :=
  match bs with
  | [] => Ok []
  | binn :: rest =>
      s <- Bin_best_score binn item ;;
      others <- _collect_scores rest item (S i) ;;
      Ok (match s with Some sc => (sc, i) :: others | None => others end)
  end.

(** [min(scores, key=lambda x: x[0])] on a list that is not empty. *)
Fixpoint min_score (best : score * nat) (l : list (score * nat))
  : result (score * nat) :=
  match l with
  | [] => Ok best
  | c :: l' =>
      lt <- score_lt (fst c) (fst best) ;;
      min_score (if lt then c else best) l'
  end.

(** lines 155-184 *)
Definition _bin_best_fit (self : t) (item : Item.t) : outcome (t * Item.t) bool :=
  if negb (item_fits self item) then
    Raises (ValueError "Error! item too big for bin") (self, item)
  else
    match _collect_scores (bins self) item O with
    | Err e => Raises e (self, item)
    | Ok (first :: others) =>
        match min_score first others with
        | Err e => Raises e (self, item)
        | Ok (_, k) =>
            match getitem (bins self) k with
            | Err e => Raises e (self, item)
            | Ok best_bin =>
                match Bin_insert best_bin item None with
                | Returns r (b', item') =>
                    Returns r (set_bins self (replace_nth (bins self) k b'), item')
                | Raises e (b', item') =>
                    Raises e (set_bins self (replace_nth (bins self) k b'), item')
                end
            end
        end
    | Ok [] =>
        match _bin_factory self with
        | Err e => Raises e (self, item)
        | Ok new_bin =>
            match Bin_insert new_bin item (Some (heuristic self)) with
            | Raises e (_, item') => Raises e (self, item')
            | Returns _ (new_bin', item') =>
                Returns true (set_bins self (bins self ++ [new_bin']), item')
            end
        end
    end.

Definition call_sel_algo (a : sel_algo) (self : t) (item : Item.t)
  : outcome (t * Item.t) unit :=
  match a with
  | FirstFit => _bin_first_fit self item
  | BestFit =>
      match _bin_best_fit self item with
      | Returns _ st => Returns tt st
      | Raises e st => Raises e st
      end
  end.

(** The [for item in self.items] loop of [execute], lines 191-192, from
    position [i] on. *)
Fixpoint _execute_loop (self : t) (i : nat) (todo : list Item.t) : outcome t unit :=
  match todo with
  | [] => Returns tt self
  | item :: rest =>
      match bin_sel_algo self with
      | None => Raises (AttributeError "bin_sel_algo") self
      | Some a =>
          match call_sel_algo a self item with
          | Raises e (self', item') =>
              Raises e (set_items self' (replace_nth (items self') i item'))
          | Returns _ (self', item') =>
              _execute_loop (set_items self' (replace_nth (items self') i item'))
                            (S i) rest
          end
      end
  end.

(** lines 187-192 *)
Definition execute (self : t) : outcome t unit :=
  _execute_loop self O (items self).



End WithEngines.

Arguments Bin G Sh MR : clear implicits.
Arguments t G Sh MR : clear implicits.

End BinManager.

(** ** The Guillotine engine as the spec describes it *)

Module Guillotine.

(** Modelled from the spec: the class [Guillotine] of
    [greedypacker/guillotine.py], which is not among the sources.
    "State: a multiset of disjoint free rectangles initially
    {(binW, binH, 0, 0)}". *)
Record t : Type := mk {
  x : Z;
  y : Z;
  rotation : bool;
  heuristic : string;
  rMerge : bool;
  freerects : list FreeRectangle;
  items : list Item.t
}.

Definition known_heuristic (h : string) : bool :=
  existsb (String.eqb h)
    ["best_area"; "best_shortside"; "best_longside";
     "worst_area"; "worst_shortside"; "worst_longside"].

(** "Invalid options raise a fatal configuration error." *)
Definition init (x0 y0 : Z) (rotation0 : bool) (heuristic0 : string)
    (rectangle_merge0 : option bool) (split_heuristic0 : option string)
  : result t :=
  if known_heuristic heuristic0 then
    Ok (mk x0 y0 rotation0 heuristic0
           (match rectangle_merge0 with Some b => b | None => true end)
           [mkFreeRectangle x0 y0 0 0] [])
  else Err (ValueError "No such heuristic!").

(** "best_area = freeRect.area - item.area; best_shortside =
    min(freeRect.w - item.w, freeRect.h - item.h); best_longside = max of
    same; worst_* = negated variants". *)
Definition rect_score (h : string) (r : FreeRectangle) (w0 h0 : Z) : Z :=
  let area := fr_width r * fr_height r - w0 * h0 in
  let short := Z.min (fr_width r - w0) (fr_height r - h0) in
  let long := Z.max (fr_width r - w0) (fr_height r - h0) in
  if (h =? "best_shortside")%string then short
  else if (h =? "best_longside")%string then long
  else if (h =? "worst_area")%string then - area
  else if (h =? "worst_shortside")%string then - short
  else if (h =? "worst_longside")%string then - long
  else area.

Definition fits (r : FreeRectangle) (w0 h0 : Z) : bool :=
  (w0 <=? fr_width r) && (h0 <=? fr_height r).

(** "search free rectangles for those into which the item fits (trying
    both orientations if rotation allowed)": score, position in the
    list, rotated. *)
Fixpoint candidates (self : t) (item : Item.t) (i : nat)
    (rs : list FreeRectangle) : list (Z * nat * bool) :=
  match rs with
  | [] => []
  | r :: rest =>
      (if fits r (Item.width item) (Item.height item)
       then [(rect_score (heuristic self) r (Item.width item) (Item.height item),
              i, false)]
       else [])
      ++ (if rotation self && fits r (Item.height item) (Item.width item)
          then [(rect_score (heuristic self) r (Item.height item) (Item.width item),
                 i, true)]
          else [])
      ++ candidates self item (S i) rest
  end.

(** "pick the single best by heuristic (ties broken by first
    encountered)"; "Return None if no rectangle fits". *)
Definition best (self : t) (item : Item.t) : option (Z * nat * bool) :=
  match candidates self item O (freerects self) with
  | [] => None
  | c :: cs => Some (min_from (fun a b => fst (fst a) <? fst (fst b)) c cs)
  end.

Definition find_best_score (self : t) (item : Item.t) : result (option score) :=
  Ok (match best self item with
      | Some (s, _, _) => Some (IntScore s)
      | None => None
      end).

Fixpoint remove_nth {A} (l : list A) (i : nat) : list A :=
  match l, i with
  | [], _ => []
  | _ :: l', O => l'
  | e :: l', S j => e :: remove_nth l' j
  end.

(** "split the remainder ... into exactly two new free rectangles": the
    cut runs along the shorter side of the free rectangle. *)
Definition split (r : FreeRectangle) (w0 h0 : Z) : list FreeRectangle :=
  if fr_width r <? fr_height r then
    [mkFreeRectangle (fr_width r - w0) h0 (fr_x r + w0) (fr_y r);
     mkFreeRectangle (fr_width r) (fr_height r - h0) (fr_x r) (fr_y r + h0)]
  else
    [mkFreeRectangle (fr_width r - w0) (fr_height r) (fr_x r + w0) (fr_y r);
     mkFreeRectangle w0 (fr_height r - h0) (fr_x r) (fr_y r + h0)].

(** "two free rectangles with identical widths and shared horizontal
    edge (y meeting y+height), or identical heights and shared vertical
    edge, fuse into one". *)
Definition fuse (a b : FreeRectangle) : option FreeRectangle :=
  if (fr_width a =? fr_width b) && (fr_x a =? fr_x b)
     && (fr_y a + fr_height a =? fr_y b)
  then Some (mkFreeRectangle (fr_width a) (fr_height a + fr_height b) (fr_x a) (fr_y a))
  else if (fr_height a =? fr_height b) && (fr_y a =? fr_y b)
          && (fr_x a + fr_width a =? fr_x b)
  then Some (mkFreeRectangle (fr_width a + fr_width b) (fr_height a) (fr_x a) (fr_y a))
  else None.

Fixpoint fuse_into (a : FreeRectangle) (rs : list FreeRectangle)
  : option (list FreeRectangle) :=
  match rs with
  | [] => None
  | b :: rest =>
      match fuse a b, fuse b a with
      | Some c, _ => Some (c :: rest)
      | None, Some c => Some (c :: rest)
      | None, None =>
          match fuse_into a rest with
          | Some rest' => Some (b :: rest')
          | None => None
          end
      end
  end.

(** "run a pairwise merge pass": the first pair that fuses is fused. *)
Fixpoint merge_pass (rs : list FreeRectangle) : list FreeRectangle :=
  match rs with
  | [] => []
  | a :: rest =>
      match fuse_into a rest with
      | Some rest' => rest'
      | None => a :: merge_pass rest
      end
  end.

Definition do_merge (self : t) : t :=
  mk (x self) (y self) (rotation self) (heuristic self) (rMerge self)
     (merge_pass (freerects self)) (items self).

(** "Remove that rectangle, place the item at its (x,y), then split the
    remainder"; "insert returns false if no free rectangle accommodates
    the item". *)
Definition insert (self : t) (item : Item.t) (heuristic0 : option string)
  : outcome (t * Item.t) bool :=
  match best self item with
  | None => Returns false (self, item)
  | Some (_, i, rot) =>
      match nth_error (freerects self) i with
      | None => Returns false (self, item)
      | Some r =>
          let item1 := if rot then Item.rotate item else item in
          let item2 := Item.set_xy item1 (fr_x r) (fr_y r) in
          let rects :=
            remove_nth (freerects self) i
            ++ split r (Item.width item2) (Item.height item2) in
          let self1 :=
            mk (x self) (y self) (rotation self) (heuristic self) (rMerge self)
               rects (items self ++ [item2]) in
          Returns true (if rMerge self then do_merge self1 else self1, item2)
      end
  end.

Definition add_rect (self : t) (r : FreeRectangle) : t :=
  mk (x self) (y self) (rotation self) (heuristic self) (rMerge self)
     (freerects self ++ [r]) (items self).

End Guillotine.

#[export] Instance Guillotine_model : GuillotineAPI Guillotine.t := {
  Guillotine_init := Guillotine.init;
  Guillotine_bool := fun _ => true;
  Guillotine_insert := Guillotine.insert;
  Guillotine_find_best_score := Guillotine.find_best_score;
  freerects_add := Guillotine.add_rect;
  Guillotine_rectangle_merge := fun g => Returns tt (Guillotine.do_merge g)
}.

(** The shelf and maximal-rectangles engines are left out of the
    examples below: a type without values, whose constructor fails. *)
Inductive absent : Type := .

#[export] Instance Sheet_absent : SheetAPI absent := {
  Sheet_init := fun _ _ _ _ _ => Err (OtherError "shelf.Sheet");
  Sheet_insert := fun s _ _ => match s with end;
  Sheet_find_best_score := fun s _ => match s with end
}.

#[export] Instance MaximalRectangle_absent : MaximalRectangleAPI absent := {
  MaximalRectangle_init :=
    fun _ _ _ _ => Err (OtherError "maximal_rectangles.MaximalRectangle");
  MaximalRectangle_insert := fun s _ _ => match s with end;
  MaximalRectangle_find_best_score := fun s _ => match s with end
}.

(** Exact quotients in place of floats, for the examples below. *)
#[export] Instance quotient_floats : FloatAPI (Z * Z) := {
  float_div := fun a b => if b =? 0 then Err ZeroDivisionError else Ok (a, b);
  float_ltb := fun p q =>
    fst p * snd p * snd q * snd q <? fst q * snd q * snd p * snd p
}.

(** ** The fit test and the wasted area as the spec words them *)

Module Spec.

Import SkylineSegment.

(** "accumulating segment widths ... until their sum is at least w
    (failing if the skyline ends first)": the segments taken, [sum] being
    the widths accumulated so far. *)
Fixpoint spanned_from (sum w : Z) (segs : list SkylineSegment.t)
  : option (list SkylineSegment.t) :=
  if w <=? sum then Some []
  else match segs with
       | [] => None
       | s :: rest =>
           match spanned_from (sum + width s) w rest with
           | Some sp => Some (s :: sp)
           | None => None
           end
       end.

Definition spanned (w : Z) (segs : list SkylineSegment.t) :=
  spanned_from 0 w segs.

(** "the maximum segment y over the spanned segments" *)
Definition max_y (sp : list SkylineSegment.t) : option Z :=
  match sp with
  | [] => None
  | s :: rest => Some (fold_left (fun m e => Z.max m (y e)) rest (y s))
  end.

(** The width on which a segment lies under the item's range
    [left, right). *)
Definition overlap_width (left right : Z) (s : SkylineSegment.t) : Z :=
  Z.max 0 (Z.min right (x s + width s) - Z.max left (x s)).

(** "wasted_area = sum of (overlap_w * (y - seg.y)) over spanned
    segments" *)
Fixpoint wasted_area (left right y0 : Z) (sp : list SkylineSegment.t) : Z :=
  match sp with
  | [] => 0
  | s :: rest =>
      overlap_width left right s * (y0 - y s) + wasted_area left right y0 rest
  end.

End Spec.

(** ** Shapes of a segment list *)

(** Segments in increasing position from [lo] on, each of positive
    width, none overlapping the next. *)
Fixpoint apart (lo : Z) (l : list SkylineSegment.t) : Prop :=
  match l with
  | [] => True
  | s :: l' =>
      lo <= SkylineSegment.x s /\ 0 < SkylineSegment.width s
      /\ apart (SkylineSegment.x s + SkylineSegment.width s) l'
  end.

(** The x-ranges of the segments tile [lo, hi]: no gap, no overlap. *)
Fixpoint tiles (lo hi : Z) (l : list SkylineSegment.t) : Prop :=
  match l with
  | [] => lo = hi
  | s :: l' =>
      SkylineSegment.x s = lo /\ 0 < SkylineSegment.width s
      /\ tiles (SkylineSegment.x s + SkylineSegment.width s) hi l'
  end.

(** Every segment ends at [hi] or before. *)
Definition within (hi : Z) (l : list SkylineSegment.t) : Prop :=
  Forall (fun s => SkylineSegment.x s + SkylineSegment.width s <= hi) l.

(** The list is sorted by x, strictly. *)
Fixpoint sorted_by_x (l : list SkylineSegment.t) : Prop :=
  match l with
  | [] => True
  | s :: l' =>
      match l' with
      | [] => True
      | s' :: _ => SkylineSegment.x s < SkylineSegment.x s'
      end /\ sorted_by_x l'
  end.

(** No two adjacent segments have equal y. *)
Fixpoint no_equal_neighbours (l : list SkylineSegment.t) : Prop :=
  match l with
  | [] => True
  | s :: l' =>
      match l' with
      | [] => True
      | s' :: _ => SkylineSegment.y s <> SkylineSegment.y s'
      end /\ no_equal_neighbours l'
  end.

(** No two segments that touch have equal y. *)
Fixpoint no_equal_touching (l : list SkylineSegment.t) : Prop :=
  match l with
  | [] => True
  | s :: l' =>
      match l' with
      | [] => True
      | s' :: _ =>
          SkylineSegment.x s' = SkylineSegment.x s + SkylineSegment.width s ->
          SkylineSegment.y s <> SkylineSegment.y s'
      end /\ no_equal_touching l'
  end.

(** The skyline of a bin of width [W]: segments of positive width in
    increasing position from 0 on, not overlapping, inside [0, W], and
    no two that touch at equal y. *)
Definition skyline_ok (W : Z) (sky : list SkylineSegment.t) : Prop :=
  apart 0 sky /\ within W sky /\ no_equal_touching sky.

(** ** Notions the statements use *)

(** The width and the height of the item in an orientation. *)
Definition turned_width (item : Item.t) (rot : bool) : Z :=
  if rot then Item.height item else Item.width item.
Definition turned_height (item : Item.t) (rot : bool) : Z :=
  if rot then Item.width item else Item.height item.

(** A fitting (segment, orientation) pair: segment [i] admits the item
    in the orientation [rot] (allowed by the engine), at the height [y0]
    and with the score [sc]. *)
Definition fitting {G} {GA : GuillotineAPI G} (self : Skyline.t G)
    (item : Item.t) (i : nat) (rot : bool) (sg : SkylineSegment.t) (y0 : Z)
    (sc : Z * Z) : Prop :=
  nth_error (Skyline.skyline self) i = Some sg
  /\ (rot = true -> Skyline.rotation self = true)
  /\ Skyline._check_fit self (turned_width item rot) (turned_height item rot) i
     = Ok (Some y0)
  /\ Skyline.call_score (Skyline._score self) (Skyline.skyline self) item y0 i rot
     = Ok sc.

(** The wastemap places nothing: its truth value is false, or its
    insert returns False and leaves the item as it was. *)
Definition wastemap_declines {G} {GA : GuillotineAPI G}
    (self : Skyline.t G) (item : Item.t) : Prop :=
  exists wm, Skyline.wastemap self = Some wm
    /\ (Guillotine_bool wm = false
        \/ exists wm',
             Guillotine_insert wm item (Some "best_area")
             = Returns false (wm', item)).

(** A wastemap that declines an item leaves it as it was. *)
Definition declined_item_kept (G : Type) {GA : GuillotineAPI G} : Prop :=
  forall (g g' : G) (item item' : Item.t) (h : option string),
    Guillotine_insert g item h = Returns false (g', item') -> item' = item.

(** The states of an engine of a W x H bin: the constructed one, and the
    one any call of insert leaves, whether the call returns or raises. *)
Inductive reachable {G} {GA : GuillotineAPI G} (W H : Z) : Skyline.t G -> Prop :=
| reachable_init rot wm heur self :
    Skyline.__init__ W H rot wm heur = Ok self -> reachable W H self
| reachable_insert self item hz :
    reachable W H self ->
    0 < Item.width item -> 0 < Item.height item ->
    reachable W H (fst (state_of (Skyline.insert self item hz))).

(** The area of the items placed, and the bookkeeping of the free
    area: [free_area = area - sum of the placed items' areas]. *)
Fixpoint items_area (l : list Item.t) : Z :=
  match l with
  | [] => 0
  | i :: l' => Item.width i * Item.height i + items_area l'
  end.

Definition accounted {G} (self : Skyline.t G) : Prop :=
  Skyline.free_area self = Skyline.area self - items_area (Skyline.items self).

(** Every bin of the list was tried in order and reported no fit; the
    bins and the item are threaded through the calls. *)
Inductive refused {G Sh MR : Type} {GA : GuillotineAPI G} {SA : SheetAPI Sh}
    {MA : MaximalRectangleAPI MR} (h : string)
  : list (BinManager.Bin G Sh MR) -> Item.t ->
    list (BinManager.Bin G Sh MR) -> Item.t -> Prop :=
| refused_nil item : refused h [] item [] item
| refused_cons b bs item b' item1 bs' item2 :
    BinManager.Bin_insert b item (Some h) = Returns false (b', item1) ->
    refused h bs item1 bs' item2 ->
    refused h (b :: bs) item (b' :: bs') item2.

(** The fatal input error of [_bin_best_fit], line 170. *)
Definition input_error : exn := ValueError "Error! item too big for bin".





(** The item fits the bin in some orientation, the rotated one counting
    only when rotation is enabled. *)
Definition fits_some_orientation {G Sh MR : Type}
    (m : BinManager.t G Sh MR) (item : Item.t) : Prop :=
  (Item.width item <= BinManager.bin_width m
   /\ Item.height item <= BinManager.bin_height m)
  \/ (BinManager.rotation m = true
      /\ Item.height item <= BinManager.bin_width m
      /\ Item.width item <= BinManager.bin_height m).


(** ** Functions used in the proofs *)

(** The running maximum of [_check_fit] over the segments [sp]. *)
Definition max_over (sp : list SkylineSegment.t) (y0 : Z) : Z :=
  fold_left (fun m e => Z.max m (SkylineSegment.y e)) sp y0.

(** The sum of the widths. *)
Fixpoint total_width (l : list SkylineSegment.t) : Z :=
  match l with
  | [] => 0
  | s :: l' => SkylineSegment.width s + total_width l'
  end.

(** The length on which [lo, hi] and [a, b] overlap. *)
Definition overlap (lo hi a b : Z) : Z :=
  Z.max 0 (Z.min hi b - Z.max lo a).

(** What the merge loop computes on a list in increasing position:
    [last] is the segment being grown. *)
Fixpoint merged (last : SkylineSegment.t) (rest : list SkylineSegment.t)
  : list SkylineSegment.t :=
  match rest with
  | [] => [last]
  | s :: rest' =>
      if (SkylineSegment.y s =? SkylineSegment.y last)
         && (SkylineSegment.x s
             =? SkylineSegment.x last + SkylineSegment.width last)
      then merged (SkylineSegment.mk (SkylineSegment.x last)
                     (SkylineSegment.y last)
                     ((SkylineSegment.x s + SkylineSegment.width s)
                      - SkylineSegment.x last)) rest'
      else last :: merged s rest'
  end.

(** The segment list of [_update_segment]: every segment clipped, and
    the segment on top of the item when there is room above it. *)
Definition new_skyline (bin_height : Z) (sky : list SkylineSegment.t)
    (segment : SkylineSegment.t) (item : Item.t) : list SkylineSegment.t :=
  let clipped := flat_map (fun seg => Skyline._clip_segment seg item) sky in
  if Item.height item + Item.y item <? bin_height then
    SortedList.add clipped
      (SkylineSegment.mk (SkylineSegment.x segment)
         (Item.y item + Item.height item) (Item.width item))
  else clipped.

(** The item as [insert] places it on the skyline. *)
Definition placed (item : Item.t) (rot : bool) (x0 y0 : Z) : Item.t :=
  Item.set_xy (if rot then Item.rotate item else item) x0 y0.

(** ** Notions of the further facts *)

(** The segment lies under the x-range [left, right): the two share a
    point. *)
Definition under (left right : Z) (s : SkylineSegment.t) : Prop :=
  SkylineSegment.x s < right
  /\ left < SkylineSegment.x s + SkylineSegment.width s.

(** The skyline after the first item of a W x H bin, placed at (0, 0):
    the segment on top of the item when there is room above it, and the
    floor to the right of the item. *)
Definition first_skyline (W H : Z) (item : Item.t) : list SkylineSegment.t :=
  (if Item.height item <? H
   then [SkylineSegment.mk 0 (Item.height item) (Item.width item)] else [])
  ++ (if Item.width item <? W
      then [SkylineSegment.mk (Item.width item) 0 (W - Item.width item)]
      else []).

(** Whether the item fits a W x H bin as it is, and whether it fits
    rotated, rotation being allowed. *)
Definition fits_plain (W H : Z) (item : Item.t) : bool :=
  (Item.width item <=? W) && (Item.height item <=? H).
Definition fits_rotated (W H : Z) (allowed : bool) (item : Item.t) : bool :=
  allowed && ((Item.height item <=? W) && (Item.width item <=? H)).

(** The orientation of the first item of a bin: rotated when only the
    rotated item fits, or when both fit and the rotated item is
    strictly lower. *)
Definition first_rotated (W H : Z) (allowed : bool) (item : Item.t) : bool :=
  fits_rotated W H allowed item
  && (negb (fits_plain W H item) || (Item.width item <? Item.height item)).

(** The position [p] lies in the x-range of the segment. *)
Definition covers (s : SkylineSegment.t) (p : Z) : Prop :=
  SkylineSegment.x s <= p < SkylineSegment.x s + SkylineSegment.width s.

(** The position [p] lies in the x-range of the item. *)
Definition spans (item : Item.t) (p : Z) : Prop :=
  Item.x item <= p < Item.x item + Item.width item.

(** The skyline read as a relation between a position and a height:
    some segment of the list lies over [p] at the height [h]. *)
Definition height_at (l : list SkylineSegment.t) (p h : Z) : Prop :=
  exists s, In s l /\ covers s p /\ SkylineSegment.y s = h.

(** The item lies inside the W x H bin. *)
Definition inside (W H : Z) (item : Item.t) : Prop :=
  0 <= Item.x item /\ 0 <= Item.y item
  /\ Item.x item + Item.width item <= W
  /\ Item.y item + Item.height item <= H.

(** Two items overlap: their rectangles share more than an edge. *)
Definition overlapping (a b : Item.t) : Prop :=
  Item.x a < Item.x b + Item.width b /\ Item.x b < Item.x a + Item.width a
  /\ Item.y a < Item.y b + Item.height b /\ Item.y b < Item.y a + Item.height a.

(** No two items of the list overlap. *)
Fixpoint disjoint_items (l : list Item.t) : Prop :=
  match l with
  | [] => True
  | a :: l' => Forall (fun b => ~ overlapping a b) l' /\ disjoint_items l'
  end.

(** The item lies below the skyline: its top is not above any segment
    that lies over one of its positions. *)
Definition below (sky : list SkylineSegment.t) (item : Item.t) : Prop :=
  forall s p, In s sky -> covers s p -> spans item p ->
              Item.y item + Item.height item <= SkylineSegment.y s.

(** The engines of a W x H bin that were filled by the skyline alone and
    not up to the top: constructed, then only calls of insert in which
    the wastemap placed nothing and which returned False, or returned
    True with the top of the placed item below the top of the bin. *)
Inductive packed {G} {GA : GuillotineAPI G} (W H : Z) : Skyline.t G -> Prop :=
| packed_init rot wm heur self :
    Skyline.__init__ W H rot wm heur = Ok self -> packed W H self
| packed_insert self item hz r self' item' :
    packed W H self ->
    0 < Item.width item -> 0 < Item.height item ->
    wastemap_declines self item ->
    Skyline.insert self item hz = Returns r (self', item') ->
    (r = true -> Item.y item' + Item.height item' < H) ->
    packed W H self'.


(** What holds of an engine filled by the skyline alone and not up to
    the top: the skyline tiles [0, W] at heights that are not negative,
    and the items have positive sides, lie inside the bin and below the
    skyline, and do not overlap. *)
Definition well_packed {G} (W H : Z) (self : Skyline.t G) : Prop :=
  Skyline.width self = W /\ Skyline.height self = H
  /\ tiles 0 W (Skyline.skyline self)
  /\ Forall (fun s => 0 <= SkylineSegment.y s) (Skyline.skyline self)
  /\ Forall (fun it => 0 < Item.width it /\ 0 < Item.height it
                       /\ inside W H it /\ below (Skyline.skyline self) it)
            (Skyline.items self)
  /\ disjoint_items (Skyline.items self).

(** The integer sort keys of [items_sort]. *)
Definition item_area (el : Item.t) : Z := Item.width el * Item.height el.
Definition shorter_side (el : Item.t) : Z :=
  if Item.width el <? Item.height el then Item.width el else Item.height el.
Definition longer_side (el : Item.t) : Z :=
  if Item.width el >? Item.height el then Item.width el else Item.height el.
Definition perimeter (el : Item.t) : Z := 2 * Item.width el + 2 * Item.height el.
Definition side_difference (el : Item.t) : Z :=
  Z.abs (Item.width el - Item.height el).

(** The key and the direction ([true]: descending) that a sorting
    heuristic stands for; [None] for the two ratio heuristics, whose
    keys are floats. *)
Definition sort_order (h : string) : option ((Item.t -> Z) * bool) :=
  if (h =? "ASCA")%string then Some (item_area, false)
  else if (h =? "DESCA")%string then Some (item_area, true)
  else if (h =? "ASCSS")%string then Some (shorter_side, false)
  else if (h =? "DESCSS")%string then Some (shorter_side, true)
  else if (h =? "ASCLS")%string then Some (longer_side, false)
  else if (h =? "DESCLS")%string then Some (longer_side, true)
  else if (h =? "ASCPERIM")%string then Some (perimeter, false)
  else if (h =? "DESCPERIM")%string then Some (perimeter, true)
  else if (h =? "ASCDIFF")%string then Some (side_difference, false)
  else if (h =? "DESCDIFF")%string then Some (side_difference, true)
  else if (h =? "ASCRATIO")%string then None
  else if (h =? "DESCRATIO")%string then None
  else Some (item_area, true).

(** The list is in the order of the key: ascending, or descending when
    [descending] is set. *)
Fixpoint in_order {A} (key : A -> Z) (descending : bool) (l : list A) : Prop :=
  match l with
  | [] => True
  | a :: l' =>
      match l' with
      | [] => True
      | b :: _ => if descending then key b <= key a else key a <= key b
      end /\ in_order key descending l'
  end.

(** The order [list.sort] compares integer keys in: [<], or [>] with
    [reverse]. *)
Definition beforeZ (rev : bool) : Z -> Z -> bool :=
  if rev then (fun a b => b <? a) else Z.ltb.

(** A list decorated with its keys is in the order of the keys. *)
Definition keyed_order {A} (rev : bool) (l : list (Z * A)) : Prop :=
  in_order fst rev l.

(** The elements of a decorated list that have the key [k]. *)
Definition with_key {A} (k : Z) (l : list (Z * A)) : list (Z * A) :=
  filter (fun e => fst e =? k) l.

(** The bins of a manager are Skyline engines. *)
Definition skyline_bins {G Sh MR : Type} (bs : list (BinManager.Bin G Sh MR))
  : Prop :=
  Forall (fun b => exists s, b = BinManager.SkylineBin s) bs.


(** The item is recorded in one of the bins. *)
Definition held {G Sh MR : Type} (bs : list (BinManager.Bin G Sh MR))
    (item : Item.t) : Prop :=
  exists s, In (BinManager.SkylineBin s) bs /\ In item (Skyline.items s).

(** The segment of a candidate of [_find_best_score], and the order in
    which the loop appends candidates: by segment from left to right,
    and on one segment the item as it is before the rotated item. *)
Definition cand_seg (c : Skyline.candidate) : SkylineSegment.t :=
  snd (fst (fst c)).

Definition cand_before (c c' : Skyline.candidate) : Prop :=
  SkylineSegment.x (cand_seg c) < SkylineSegment.x (cand_seg c')
  \/ (cand_seg c = cand_seg c' /\ snd c = false /\ snd c' = true).

Fixpoint cands_in_order (l : list Skyline.candidate) : Prop :=
  match l with
  | [] => True
  | c :: l' => Forall (cand_before c) l' /\ cands_in_order l'
  end.



(** The rectangles that the loop of [_add_to_wastemap], lines 170-186,
    builds, in the order in which it builds them. *)
Fixpoint waste_rects (item_left item_right y0 : Z)
    (segs : list SkylineSegment.t) : list FreeRectangle :=
  match segs with
  | [] => []
  | seg :: rest =>
      if (SkylineSegment.x seg >=? item_right)
         || (SkylineSegment.x seg + SkylineSegment.width seg <=? item_left)
      then []
      else
        let w_width :=
          Z.min item_right (SkylineSegment.x seg + SkylineSegment.width seg)
          - SkylineSegment.x seg in
        let w_height := y0 - SkylineSegment.y seg in
        (if (w_width >? 0) && (w_height >? 0)
         then [mkFreeRectangle w_width w_height (SkylineSegment.x seg)
                 (SkylineSegment.y seg)]
         else [])
        ++ waste_rects item_left item_right y0 rest
  end.

(** [self.wastemap.freerects.add(rect); self.wastemap.rectangle_merge()]
    for each rectangle of a list in turn. *)
Fixpoint donate {G} {GA : GuillotineAPI G} (rects : list FreeRectangle)
    (wm : option G) : outcome (option G) unit :=
  match rects with
  | [] => Returns tt wm
  | r :: rs =>
      match wm with
      | None => Raises (AttributeError "wastemap") wm
      | Some g =>
          match Guillotine_rectangle_merge (freerects_add g r) with
          | Raises e g' => Raises e (Some g')
          | Returns _ g' => donate rs (Some g')
          end
      end
  end.

(** A free rectangle and an item overlap. *)
Definition rect_overlaps (r : FreeRectangle) (it : Item.t) : Prop :=
  fr_x r < Item.x it + Item.width it /\ Item.x it < fr_x r + fr_width r
  /\ fr_y r < Item.y it + Item.height it /\ Item.y it < fr_y r + fr_height r.

(** ** Values used in the examples *)

Definition new_item (w h : Z) : Item.t := Item.mk w h 0 0 false.

(** [Guillotine(0, 0, rotation=rot, heuristic='best_area')] *)
Definition fresh_wastemap (rot : bool) : Guillotine.t :=
  Guillotine.mk 0 0 rot "best_area" true [mkFreeRectangle 0 0 0 0] [].

(** [Skyline(w, h, rot, True, 'bottom_left')] *)
Definition fresh_skyline (w h : Z) (rot : bool) : Skyline.t Guillotine.t :=
  Skyline.mk w h [SkylineSegment.mk 0 0 w] [] (w * h) (w * h) rot true
             (Some (fresh_wastemap rot)) "bottom_left" Skyline.BL.

(** [Skyline(w, h, rot, False, 'bottom_left')] *)
Definition bare_skyline (w h : Z) (rot : bool) : Skyline.t Guillotine.t :=
  Skyline.mk w h [SkylineSegment.mk 0 0 w] [] (w * h) (w * h) rot false
             None "bottom_left" Skyline.BL.

(** The engine and the item after
    [Skyline(10, 10, True, True, 'bottom_left').insert(Item(4, 3))]. *)
Definition skyline_after_4x3 : Skyline.t Guillotine.t :=
  Eval vm_compute in
    fst (state_of (Skyline.insert (fresh_skyline 10 10 true) (new_item 4 3) None)).

Definition item_after_4x3 : Item.t :=
  Eval vm_compute in
    snd (state_of (Skyline.insert (fresh_skyline 10 10 true) (new_item 4 3) None)).

(** The manager of the examples:
    [BinManager(10, 10, bin_algo, 'skyline', 'bottom_left', 'default',
    True, True, True, True, 'DESCA')]. *)
Definition example_manager (bin_algo : string)
  : BinManager.t Guillotine.t absent absent :=
  BinManager.mk 10 10 [] 0 bin_algo "skyline" "bottom_left"
    (if (bin_algo =? "bin_best_fit")%string then Some BinManager.BestFit
     else if (bin_algo =? "bin_first_fit")%string then Some BinManager.FirstFit
     else None)
    "skyline" "default" true "DESCA" true true true
    [BinManager.SkylineBin (fresh_skyline 10 10 true)].



(** An engine whose skyline has two touching segments of one height, as
    [_update_segment] leaves it before the merge. *)
Definition unmerged_skyline : Skyline.t Guillotine.t :=
  Skyline.set_skyline (fresh_skyline 10 10 true)
    [SkylineSegment.mk 0 3 4; SkylineSegment.mk 4 3 2; SkylineSegment.mk 6 0 4].

(** [Skyline(10, 10, True, True, 'best_fit')] after [insert(Item(4, 3))]. *)
Definition best_fit_after_4x3 : Skyline.t Guillotine.t :=
  Eval vm_compute in
    fst (state_of
           (Skyline.insert
              (Skyline.mk 10 10 [SkylineSegment.mk 0 0 10] [] (10 * 10) (10 * 10)
                 true true (Some (fresh_wastemap true)) "best_fit" Skyline.BF)
              (new_item 4 3) None)).

(** The manager of the examples with three items added, unsorted. *)
Definition manager_with_items (bin_algo : string)
  : BinManager.t Guillotine.t absent absent :=
  BinManager.set_items (example_manager bin_algo)
    [new_item 2 2; new_item 4 3; new_item 1 5].



(** The manager after [execute()] with first fit on the three items. *)
Definition manager_after_execute : BinManager.t Guillotine.t absent absent :=
  Eval vm_compute in
    state_of (BinManager.execute (manager_with_items "bin_first_fit")).

(** The engine and the item after
    [Skyline(10, 10, False, True, 'bottom_left').insert(Item(4, 10))]:
    the item reaches the top of the bin. *)
Definition skyline_after_4x10 : Skyline.t Guillotine.t :=
  Eval vm_compute in
    fst (state_of (Skyline.insert (fresh_skyline 10 10 false) (new_item 4 10) None)).

Definition item_after_4x10 : Item.t :=
  Eval vm_compute in
    snd (state_of (Skyline.insert (fresh_skyline 10 10 false) (new_item 4 10) None)).

(** * Facts *)

Ltac zbool :=
  repeat match goal with
    | |- context [(?a >? ?b)%Z] => destruct (Z.gtb_spec a b)
    | |- context [(?a >=? ?b)%Z] => destruct (Z.geb_spec a b)
    | |- context [(?a <? ?b)%Z] => destruct (Z.ltb_spec a b)
    | |- context [(?a <=? ?b)%Z] => destruct (Z.leb_spec a b)
    | |- context [(?a =? ?b)%Z] => destruct (Z.eqb_spec a b)
    end.

Lemma fresh_skyline_init w h rot :
  Skyline.__init__ w h rot true "bottom_left" = Ok (fresh_skyline w h rot).
Proof. reflexivity. Qed.

Lemma bare_skyline_init w h rot :
  Skyline.__init__ w h rot false "bottom_left" = Ok (bare_skyline w h rot).
Proof. reflexivity. Qed.

Section SkylineErrors.

Context {G : Type} {GA : GuillotineAPI G}.

(** The constructor assigns [wastemap] exactly when the option is on. *)
Lemma init_wastemap w h rot wm heur (self : Skyline.t G) :
  Skyline.__init__ w h rot wm heur = Ok self ->
  Skyline.use_waste_map self = wm /\
  (wm = false -> Skyline.wastemap self = None) /\
  (wm = true -> exists g, Skyline.wastemap self = Some g).
Proof.
  unfold Skyline.__init__, bind_result. intros H.
  destruct wm.
  - destruct (Guillotine_init 0 0 rot "best_area" None None); [|discriminate].
    destruct (heur =? "bottom_left")%string;
      [|destruct (heur =? "best_fit")%string; [|discriminate]];
      inversion H; subst; simpl; (split; [reflexivity|]);
      (split; [discriminate|eauto]).
  - destruct (heur =? "bottom_left")%string;
      [|destruct (heur =? "best_fit")%string; [|discriminate]];
      inversion H; subst; simpl; (split; [reflexivity|]);
      (split; [reflexivity|discriminate]).
Qed.

(** C9: on an engine constructed with wastemap = False every call of
    insert raises AttributeError for the attribute [wastemap], before
    any placement is attempted; the engine and the item are left as they
    were, so the next call does the same. *)
Theorem insert_without_wastemap_raises
    w h rot heur (self : Skyline.t G) (item : Item.t) (hz : option string) :
  Skyline.__init__ w h rot false heur = Ok self ->
  Skyline.insert self item hz = Raises (AttributeError "wastemap") (self, item).
Proof.
  intros H. apply init_wastemap in H. destruct H as (_ & Hn & _).
  unfold Skyline.insert. rewrite (Hn eq_refl). reflexivity.
Qed.

(** C7 (what the code does): bin_stats reads the attributes [x] and [y],
    which no Skyline has, so every call raises AttributeError and no
    dictionary is returned. *)
Theorem bin_stats_raises (self : Skyline.t G) :
  Skyline.bin_stats self = Err (AttributeError "x").
Proof. reflexivity. Qed.

End SkylineErrors.

Lemma insert_without_wastemap_raises_witness :
  Skyline.insert (bare_skyline 10 10 true) (new_item 3 4) None
  = Raises (AttributeError "wastemap") (bare_skyline 10 10 true, new_item 3 4).
Proof.
  apply (insert_without_wastemap_raises 10 10 true "bottom_left").
  reflexivity.
Defined.

(** ** The fit test *)

Section FitTest.

Import SkylineSegment.

Lemma skipn_nth_error {A} (l : list A) i a :
  nth_error l i = Some a -> exists rest, skipn i l = a :: rest.
Proof.
  revert l. induction i as [|i IH]; intros [|b l] H; simpl in *; try discriminate.
  - inversion H. eauto.
  - apply IH. exact H.
Qed.

Lemma spanned_from_shift sum w segs :
  Spec.spanned_from sum w segs = Spec.spanned_from 0 (w - sum) segs.
Proof.
  revert sum w. induction segs as [|s rest IH]; intros sum w; simpl.
  - zbool; try lia; reflexivity.
  - rewrite (IH (sum + width s) w), (IH (width s) (w - sum)).
    replace (w - sum - width s) with (w - (sum + width s)) by lia.
    zbool; try lia; reflexivity.
Qed.

Lemma spanned_cons w s rest :
  0 < w ->
  Spec.spanned w (s :: rest)
  = match Spec.spanned (w - width s) rest with
    | Some sp => Some (s :: sp)
    | None => None
    end.
Proof.
  intros Hw. unfold Spec.spanned. simpl.
  destruct (Z.leb_spec w 0); [lia|].
  rewrite spanned_from_shift. reflexivity.
Qed.

Lemma spanned_done w segs : w <= 0 -> Spec.spanned w segs = Some [].
Proof.
  intros Hw. unfold Spec.spanned. destruct segs; simpl;
    destruct (Z.leb_spec w 0); try lia; reflexivity.
Qed.

Lemma max_over_ge sp y0 : y0 <= max_over sp y0.
Proof.
  revert y0. induction sp as [|s sp IH]; intros y0; simpl; [lia|].
  specialize (IH (Z.max y0 (y s))). unfold max_over in *. simpl. lia.
Qed.

(** The loop returns the running maximum over the spanned segments, or
    fails when the skyline ends first or the maximum is too high. *)
Lemma check_fit_loop_spec H h segs :
  forall w y0, 0 < w -> segs <> [] ->
  Skyline._check_fit_loop H h segs w y0
  = Ok (match Spec.spanned w segs with
        | Some sp => if max_over sp y0 + h <=? H then Some (max_over sp y0) else None
        | None => None
        end).
Proof.
  induction segs as [|s rest IH]; intros w y0 Hw Hne; [congruence|].
  rewrite spanned_cons by assumption.
  cbn [Skyline._check_fit_loop].
  destruct (Z.gtb_spec w 0); [|lia].
  destruct (Z.gtb_spec (Z.max y0 (y s) + h) H) as [Hhigh|Hlow].
  - destruct (Spec.spanned (w - width s) rest) as [sp|]; [|reflexivity].
    unfold max_over. simpl.
    pose proof (max_over_ge sp (Z.max y0 (y s))) as Hge. unfold max_over in Hge.
    destruct (Z.leb_spec (fold_left (fun m e => Z.max m (y e)) sp (Z.max y0 (y s)) + h) H);
      [lia|reflexivity].
  - destruct (Z.gtb_spec (w - width s) 0) as [Hmore|Hdone].
    + destruct rest as [|s' rest']; simpl andb; cbv iota.
      * unfold Spec.spanned. simpl.
        destruct (Z.leb_spec (w - width s) 0); [lia|reflexivity].
      * rewrite IH by (try lia; congruence).
        destruct (Spec.spanned (w - width s) (s' :: rest')); reflexivity.
    + simpl andb. cbv iota.
      rewrite spanned_done by lia. unfold max_over. simpl.
      destruct rest; simpl;
        destruct (Z.gtb_spec (w - width s) 0); try lia;
        destruct (Z.leb_spec (Z.max y0 (y s) + h) H); try lia; reflexivity.
Qed.

Context {G : Type} {GA : GuillotineAPI G}.

(** [_check_fit] as a function of the spec's notions. *)
Lemma check_fit_eq (self : Skyline.t G) w h i seg :
  nth_error (Skyline.skyline self) i = Some seg -> 0 < w ->
  Skyline._check_fit self w h i
  = Ok (match Spec.spanned w (skipn i (Skyline.skyline self)) with
        | Some sp =>
            match Spec.max_y sp with
            | Some y0 =>
                if (x seg + w <=? Skyline.width self)
                   && (y0 + h <=? Skyline.height self)
                then Some y0 else None
            | None => None
            end
        | None => None
        end).
Proof.
  intros Hi Hw. unfold Skyline._check_fit, getitem, bind_result. rewrite Hi.
  destruct (skipn_nth_error _ _ _ Hi) as [rest Hrest]. rewrite Hrest.
  rewrite spanned_cons by assumption.
  destruct (Z.gtb_spec (x seg + w) (Skyline.width self)) as [Hwide|Hfit].
  { destruct (Spec.spanned (w - width seg) rest) as [sp|]; [|reflexivity].
    simpl. destruct (Z.leb_spec (x seg + w) (Skyline.width self)); [lia|reflexivity]. }
  destruct (Z.leb_spec (x seg + w) (Skyline.width self)); [|lia]. simpl andb.
  destruct (Z.gtb_spec (y seg + h) (Skyline.height self)) as [Hhigh|Hlow].
  { destruct (Spec.spanned (w - width seg) rest) as [sp|]; [|reflexivity].
    simpl. pose proof (max_over_ge sp (y seg)) as Hge. unfold max_over in Hge.
    destruct (Z.leb_spec (fold_left (fun m e => Z.max m (y e)) sp (y seg) + h)
                         (Skyline.height self)); [lia|reflexivity]. }
  rewrite check_fit_loop_spec by (try assumption; congruence).
  rewrite spanned_cons by assumption.
  destruct (Spec.spanned (w - width seg) rest) as [sp|]; [|reflexivity].
  simpl. unfold max_over. simpl. rewrite Z.max_id. reflexivity.
Qed.

(** What a successful fit test tells. *)
Lemma check_fit_some (self : Skyline.t G) w h i seg y0 :
  nth_error (Skyline.skyline self) i = Some seg -> 0 < w ->
  Skyline._check_fit self w h i = Ok (Some y0) ->
  exists sp,
    Spec.spanned w (skipn i (Skyline.skyline self)) = Some sp
    /\ Spec.max_y sp = Some y0
    /\ x seg + w <= Skyline.width self
    /\ y0 + h <= Skyline.height self.
Proof.
  intros Hi Hw. rewrite (check_fit_eq self w h i seg Hi Hw).
  destruct (Spec.spanned w (skipn i (Skyline.skyline self))) as [sp|];
    [|discriminate].
  destruct (Spec.max_y sp) as [m|] eqn:Hm; [|discriminate].
  destruct (Z.leb_spec (x seg + w) (Skyline.width self));
    destruct (Z.leb_spec (m + h) (Skyline.height self)); simpl;
    intros Heq; inversion Heq; subst.
  exists sp. repeat split; auto.
Qed.

(** C2: for an item width w >= 1 and a segment index i of the skyline,
    _check_fit never raises, and it returns (True, y) exactly when the
    widths accumulated from segment i reach w before the skyline ends,
    y is the maximum segment y over the segments spanned, and
    seg[i].x + w <= binW and y + h <= binH. *)
Theorem check_fit_spec (self : Skyline.t G) (w h : Z) (i : nat)
    (seg : SkylineSegment.t) :
  nth_error (Skyline.skyline self) i = Some seg ->
  0 < w ->
  (exists r, Skyline._check_fit self w h i = Ok r)
  /\ forall y0,
       Skyline._check_fit self w h i = Ok (Some y0)
       <-> exists sp,
             Spec.spanned w (skipn i (Skyline.skyline self)) = Some sp
             /\ Spec.max_y sp = Some y0
             /\ x seg + w <= Skyline.width self
             /\ y0 + h <= Skyline.height self.
Proof.
  intros Hi Hw. rewrite (check_fit_eq self w h i seg Hi Hw).
  split; [eauto|]. intros y0.
  destruct (Spec.spanned w (skipn i (Skyline.skyline self))) as [sp|] eqn:Hsp.
  - destruct (Spec.max_y sp) as [m|] eqn:Hm.
    + destruct (Z.leb_spec (x seg + w) (Skyline.width self)) as [Hx|Hx];
        destruct (Z.leb_spec (m + h) (Skyline.height self)) as [Hy|Hy];
        simpl; split; intros H.
      * inversion H; subst. exists sp. auto.
      * destruct H as (sp' & Hsp' & Hm' & _). inversion Hsp'; subst.
        rewrite Hm in Hm'. inversion Hm'. reflexivity.
      * discriminate.
      * destruct H as (sp' & Hsp' & Hm' & _ & Hy'). inversion Hsp'; subst.
        rewrite Hm in Hm'. inversion Hm'; subst. lia.
      * discriminate.
      * destruct H as (sp' & _ & _ & Hx' & _). lia.
      * discriminate.
      * destruct H as (sp' & _ & _ & Hx' & _). lia.
    + split; [discriminate|].
      intros (sp' & Hsp' & Hm' & _). inversion Hsp'; subst.
      rewrite Hm in Hm'. discriminate.
  - split; [discriminate|]. intros (sp' & Hsp' & _). discriminate.
Qed.

End FitTest.

Lemma check_fit_spec_witness :
  (exists r, Skyline._check_fit (fresh_skyline 10 10 true) 4 3 0 = Ok r)
  /\ forall y0,
       Skyline._check_fit (fresh_skyline 10 10 true) 4 3 0 = Ok (Some y0)
       <-> exists sp,
             Spec.spanned 4 (skipn 0 (Skyline.skyline (fresh_skyline 10 10 true)))
             = Some sp
             /\ Spec.max_y sp = Some y0
             /\ SkylineSegment.x (SkylineSegment.mk 0 0 10) + 4
                <= Skyline.width (fresh_skyline 10 10 true)
             /\ y0 + 3 <= Skyline.height (fresh_skyline 10 10 true).
Proof.
  apply (check_fit_spec (fresh_skyline 10 10 true) 4 3 0 (SkylineSegment.mk 0 0 10)).
  - reflexivity.
  - lia.
Defined.

(** ** The best score *)

Section BestScore.

Import SkylineSegment.

Lemma min_from_spec {A} (lt : A -> A -> bool)
    (Hirr : forall a, lt a a = false)
    (Htrans : forall a b c, lt a b = true -> lt b c = true -> lt a c = true)
    (Hneg : forall a b c, lt a c = true -> lt a b = true \/ lt b c = true) :
  forall l best,
    In (min_from lt best l) (best :: l)
    /\ forall c, In c (best :: l) -> lt c (min_from lt best l) = false.
Proof.
  induction l as [|c l IH]; intros best; simpl.
  - split; [auto|]. intros c [<-|[]]. apply Hirr.
  - destruct (IH (if lt c best then c else best)) as [Hin Hmin].
    split.
    + destruct Hin as [Hin|Hin]; [|auto].
      rewrite <- Hin. destruct (lt c best); auto.
    + intros d Hd.
      destruct (lt c best) eqn:Ecb.
      * destruct Hd as [<-|[<-|Hd]].
        -- destruct (lt best (min_from lt c l)) eqn:E; [|reflexivity].
           rewrite <- (Hmin c (or_introl eq_refl)). symmetry.
           eapply Htrans; eauto.
        -- apply Hmin. left. reflexivity.
        -- apply Hmin. right. exact Hd.
      * destruct Hd as [<-|[<-|Hd]].
        -- apply Hmin. left. reflexivity.
        -- destruct (lt c (min_from lt best l)) eqn:E; [|reflexivity].
           destruct (Hneg _ best _ E) as [H|H]; [congruence|].
           rewrite (Hmin best (or_introl eq_refl)) in H. discriminate.
        -- apply Hmin. right. exact Hd.
Qed.

Lemma pair_ltb_irrefl a : Skyline.pair_ltb a a = false.
Proof.
  unfold Skyline.pair_ltb. destruct a; simpl.
  rewrite !Z.ltb_irrefl, Bool.andb_false_r. reflexivity.
Qed.

Lemma pair_ltb_trans a b c :
  Skyline.pair_ltb a b = true -> Skyline.pair_ltb b c = true ->
  Skyline.pair_ltb a c = true.
Proof.
  unfold Skyline.pair_ltb. destruct a, b, c; simpl.
  zbool; simpl; intros; try lia; try discriminate; reflexivity.
Qed.

Lemma pair_ltb_neg a b c :
  Skyline.pair_ltb a c = true ->
  Skyline.pair_ltb a b = true \/ Skyline.pair_ltb b c = true.
Proof.
  unfold Skyline.pair_ltb. destruct a, b, c; simpl.
  zbool; simpl; intros; try lia; try discriminate; auto.
Qed.

Lemma check_fit_loop_total H h segs :
  forall w y0, segs <> [] \/ w <= 0 ->
  exists r, Skyline._check_fit_loop H h segs w y0 = Ok r.
Proof.
  induction segs as [|s rest IH]; intros w y0 Hc.
  - destruct Hc as [Hc|Hc]; [congruence|]. simpl.
    destruct (Z.gtb_spec w 0); [lia|eauto].
  - cbn [Skyline._check_fit_loop].
    destruct (Z.gtb_spec w 0); [|eauto].
    destruct (Z.max y0 (y s) + h >? H); [eauto|].
    destruct (Z.gtb_spec (w - width s) 0).
    + destruct rest as [|s' rest']; simpl; [eauto|].
      apply IH. left. congruence.
    + simpl. apply IH. right. lia.
Qed.

Context {G : Type} {GA : GuillotineAPI G}.

Lemma check_fit_total (self : Skyline.t G) w h i seg :
  nth_error (Skyline.skyline self) i = Some seg ->
  exists r, Skyline._check_fit self w h i = Ok r.
Proof.
  intros Hi. unfold Skyline._check_fit, getitem, bind_result. rewrite Hi.
  destruct (x seg + w >? Skyline.width self); [eauto|].
  destruct (y seg + h >? Skyline.height self); [eauto|].
  apply check_fit_loop_total.
  destruct (skipn_nth_error _ _ _ Hi) as [rest ->]. left. congruence.
Qed.

(** The score of a candidate never fails on a segment index. *)
Lemma call_score_total sc segs item y0 i rot seg :
  nth_error segs i = Some seg ->
  Skyline.call_score sc segs item y0 i rot
  = Ok (match sc with
        | Skyline.BL => (turned_height item rot + y0, width seg)
        | Skyline.BF =>
            (Skyline.calc_waste_loop (x seg) (x seg + turned_width item rot) y0
               (skipn i segs) 0,
             turned_height item rot + y0)
        end).
Proof.
  intros Hi.
  destruct sc, rot; unfold Skyline.call_score, Skyline.scoreBL, Skyline.scoreBF,
    Skyline.calc_waste, getitem, bind_result, turned_height, turned_width;
    rewrite Hi; reflexivity.
Qed.

(** The candidate list holds exactly the fitting pairs. *)
Lemma candidates_spec (self : Skyline.t G) item :
  forall segs i0,
    skipn i0 (Skyline.skyline self) = segs ->
    exists cs,
      Skyline._candidates self item i0 segs = Ok cs
      /\ forall sc sg y0 rot,
           In (sc, sg, y0, rot) cs
           <-> exists i, (i0 <= i)%nat /\ fitting self item i rot sg y0 sc.
Proof.
  induction segs as [|segment rest IH]; intros i0 Hskip.
  - exists []. split; [reflexivity|].
    intros sc sg y0 rot. split; [intros []|].
    intros (i & Hle & Hi & _).
    assert (Hnone : nth_error (Skyline.skyline self) i = None).
    { apply nth_error_None.
      assert (Hlen : List.length (skipn i0 (Skyline.skyline self)) = O)
        by (rewrite Hskip; reflexivity).
      rewrite length_skipn in Hlen. lia. }
    congruence.
  - assert (Hi0 : nth_error (Skyline.skyline self) i0 = Some segment).
    { rewrite <- (firstn_skipn i0 (Skyline.skyline self)) at 1.
      assert (Hlen : (i0 < List.length (Skyline.skyline self))%nat).
      { assert (Hl : List.length (skipn i0 (Skyline.skyline self)) = S (List.length rest))
          by (rewrite Hskip; reflexivity).
        rewrite length_skipn in Hl. lia. }
      rewrite nth_error_app2 by (rewrite length_firstn; lia).
      rewrite length_firstn, Nat.min_l by lia.
      rewrite Nat.sub_diag, Hskip. reflexivity. }
    assert (Hnext : skipn (S i0) (Skyline.skyline self) = rest).
    { replace (S i0) with (1 + i0)%nat by lia.
      rewrite <- skipn_skipn, Hskip. reflexivity. }
    destruct (IH (S i0) Hnext) as (others & Hothers & Hspec).
    cbn [Skyline._candidates]. unfold bind_result at 1.
    destruct (check_fit_total self (Item.width item) (Item.height item) i0 _ Hi0)
      as [fit Hfit].
    rewrite Hfit.
    destruct (check_fit_total self (Item.height item) (Item.width item) i0 _ Hi0)
      as [fit' Hfit'].
    set (plain := match fit with
                  | Some y0 =>
                      [(match Skyline._score self with
                        | Skyline.BL => (turned_height item false + y0, width segment)
                        | Skyline.BF =>
                            (Skyline.calc_waste_loop (x segment)
                               (x segment + turned_width item false) y0
                               (skipn i0 (Skyline.skyline self)) 0,
                             turned_height item false + y0)
                        end, segment, y0, false)]
                  | None => []
                  end).
    set (turned := if Skyline.rotation self then
                     match fit' with
                     | Some y0 =>
                         [(match Skyline._score self with
                           | Skyline.BL => (turned_height item true + y0, width segment)
                           | Skyline.BF =>
                               (Skyline.calc_waste_loop (x segment)
                                  (x segment + turned_width item true) y0
                                  (skipn i0 (Skyline.skyline self)) 0,
                                turned_height item true + y0)
                           end, segment, y0, true)]
                     | None => []
                     end
                   else []).
    exists (plain ++ turned ++ others). split.
    + replace (match fit with
               | Some y0 =>
                   sc <- Skyline.call_score (Skyline._score self)
                           (Skyline.skyline self) item y0 i0 false ;;
                   Ok [(sc, segment, y0, false)]
               | None => Ok []
               end) with (Ok (A:=list Skyline.candidate) plain).
      2:{ subst plain. destruct fit; [|reflexivity].
          rewrite (call_score_total _ _ _ _ _ _ _ Hi0). reflexivity. }
      unfold bind_result at 1.
      replace (if Skyline.rotation self then _ else Ok [])
        with (Ok (A:=list Skyline.candidate) turned).
      2:{ subst turned. destruct (Skyline.rotation self); [|reflexivity].
          rewrite Hfit'. unfold bind_result at 1. destruct fit'; [|reflexivity].
          rewrite (call_score_total _ _ _ _ _ _ _ Hi0). reflexivity. }
      unfold bind_result at 1. rewrite Hothers. reflexivity.
    + intros sc sg y0 rot. rewrite !in_app_iff. split.
      * intros [Hin|[Hin|Hin]].
        -- subst plain. destruct fit as [yf|]; [|destruct Hin].
           destruct Hin as [Hin|[]]. inversion Hin; subst.
           exists i0. split; [lia|]. repeat split; auto; try discriminate.
           apply call_score_total. exact Hi0.
        -- subst turned. destruct (Skyline.rotation self) eqn:Hrot; [|destruct Hin].
           destruct fit' as [yf|]; [|destruct Hin].
           destruct Hin as [Hin|[]]. inversion Hin; subst.
           exists i0. split; [lia|]. repeat split; auto.
           apply call_score_total. exact Hi0.
        -- apply Hspec in Hin. destruct Hin as (i & Hle & Hf).
           exists i. split; [lia|exact Hf].
      * intros (i & Hle & Hf).
        destruct (Nat.eq_dec i i0) as [->|Hne].
        -- destruct Hf as (Hsg & Hrot & Hcf & Hsc).
           rewrite Hi0 in Hsg. inversion Hsg; subst sg.
           rewrite (call_score_total _ _ _ _ _ _ _ Hi0) in Hsc. inversion Hsc.
           destruct rot.
           ++ right. left. subst turned. rewrite (Hrot eq_refl).
              unfold turned_width, turned_height in Hcf.
              rewrite Hfit' in Hcf. inversion Hcf; subst. left. reflexivity.
           ++ left. subst plain.
              unfold turned_width, turned_height in Hcf.
              rewrite Hfit in Hcf. inversion Hcf; subst. left. reflexivity.
        -- right. right. apply Hspec. exists i. split; [lia|exact Hf].
Qed.

(** [_find_best_score] never raises; it returns the all-None tuple
    exactly when no pair fits, and otherwise a fitting pair whose score
    no fitting pair beats. *)
Lemma find_best_score_spec (self : Skyline.t G) (item : Item.t) :
  (exists r, Skyline._find_best_score self item = Ok r)
  /\ (Skyline._find_best_score self item = Ok None
      <-> forall i rot sg y0 sc, ~ fitting self item i rot sg y0 sc)
  /\ (forall sc sg rot y0,
        Skyline._find_best_score self item = Ok (Some (sc, sg, rot, y0)) ->
        (exists i, fitting self item i rot sg y0 sc)
        /\ forall i' rot' sg' y' sc',
             fitting self item i' rot' sg' y' sc' ->
             Skyline.pair_ltb sc' sc = false).
Proof.
  destruct (candidates_spec self item (Skyline.skyline self) O eq_refl)
    as (cs & Hcs & Hspec).
  unfold Skyline._find_best_score, bind_result. rewrite Hcs.
  destruct cs as [|c cs].
  - split; [eauto|]. split.
    + split; [|reflexivity]. intros _ i rot sg y0 sc Hf.
      apply (proj2 (Hspec sc sg y0 rot)). exists i. split; [lia|exact Hf].
    + intros sc sg rot y0 H. discriminate.
  - set (lt := fun a b : Skyline.candidate =>
                 Skyline.pair_ltb (Skyline.cand_score a) (Skyline.cand_score b)).
    destruct (min_from_spec lt
                (fun a => pair_ltb_irrefl _)
                (fun a b c => pair_ltb_trans _ _ _)
                (fun a b c => pair_ltb_neg _ _ _) cs c) as [Hin Hmin].
    destruct (min_from lt c cs) as [[[msc msg] my] mrot] eqn:Hm.
    split; [eauto|]. split.
    + split; [discriminate|]. intros Hno. exfalso.
      apply (proj1 (Hspec msc msg my mrot)) in Hin.
      destruct Hin as (i & _ & Hf). exact (Hno _ _ _ _ _ Hf).
    + intros sc sg rot y0 H. inversion H; subst.
      split.
      * apply (proj1 (Hspec sc sg y0 rot)) in Hin.
        destruct Hin as (i & _ & Hf). eauto.
      * intros i' rot' sg' y' sc' Hf.
        assert (Hin' : In (sc', sg', y', rot') (c :: cs)).
        { apply (proj2 (Hspec sc' sg' y' rot')). exists i'. split; [lia|exact Hf]. }
        apply Hmin in Hin'. exact Hin'.
Qed.

Lemma apart_weaken lo lo' l : lo' <= lo -> apart lo l -> apart lo' l.
Proof. destruct l; simpl; [auto|]. intros H (H1 & H2 & H3). repeat split; auto; lia. Qed.

Lemma apart_lower lo l : apart lo l -> Forall (fun s => lo <= x s) l.
Proof.
  revert lo. induction l as [|s l IH]; intros lo H; constructor.
  - destruct H. assumption.
  - destruct H as (H1 & H2 & H3). apply IH.
    apply (apart_weaken (x s + width s)); [lia|assumption].
Qed.

Lemma apart_skipn lo l : forall i seg,
  apart lo l -> nth_error l i = Some seg -> apart (x seg) (skipn i l).
Proof.
  revert lo. induction l as [|s l IH]; intros lo i seg H Hi.
  - destruct i; discriminate.
  - destruct i as [|i]; simpl in *.
    + inversion Hi; subst. destruct H as (H1 & H2 & H3). repeat split; auto; lia.
    + destruct H as (H1 & H2 & H3). eapply IH; eauto.
Qed.

Lemma wasted_area_app left right y0 a b :
  Spec.wasted_area left right y0 (a ++ b)
  = Spec.wasted_area left right y0 a + Spec.wasted_area left right y0 b.
Proof. induction a as [|s a IH]; simpl; [reflexivity|]. rewrite IH. lia. Qed.

Lemma wasted_area_beyond left right y0 l :
  Forall (fun s => right <= x s) l -> Forall (fun s => 0 < width s) l ->
  Spec.wasted_area left right y0 l = 0.
Proof.
  induction 1 as [|s l Hs Hl IH]; intros Hw; simpl; [reflexivity|].
  inversion Hw; subst. rewrite IH by assumption.
  replace (Spec.overlap_width left right s) with 0
    by (unfold Spec.overlap_width; lia).
  lia.
Qed.

Lemma apart_positive lo l : apart lo l -> Forall (fun s => 0 < width s) l.
Proof.
  revert lo. induction l as [|s l IH]; intros lo H; constructor.
  - destruct H as (_ & H & _). exact H.
  - destruct H as (_ & _ & H). eapply IH; eauto.
Qed.

(** On segments in increasing position from the item's left edge on, the
    loop of [calc_waste] adds up overlap width times height difference
    over all of them. *)
Lemma calc_waste_loop_spec left right y0 :
  forall segs lo acc, left <= lo -> apart lo segs ->
  Skyline.calc_waste_loop left right y0 segs acc
  = acc + Spec.wasted_area left right y0 segs.
Proof.
  induction segs as [|s rest IH]; intros lo acc Hlo Hap; simpl; [lia|].
  destruct Hap as (H1 & H2 & H3).
  destruct (Z.geb_spec (x s) right) as [Hout|Hin]; simpl orb.
  - assert (Hz : Spec.wasted_area left right y0 (s :: rest) = 0).
    { apply wasted_area_beyond.
      - constructor; [lia|].
        eapply Forall_impl; [|apply (apart_lower _ _ H3)]. simpl. intros; lia.
      - constructor; [lia|]. eapply apart_positive; eauto. }
    cbn [Spec.wasted_area] in Hz. cbv iota. lia.
  - destruct (Z.leb_spec (x s + width s) left); [lia|]. cbv iota.
    rewrite (IH (x s + width s)) by (try assumption; lia).
    replace (Spec.overlap_width left right s)
      with (Z.min right (x s + width s) - x s)
      by (unfold Spec.overlap_width; lia).
    lia.
Qed.

(** The segments after the spanned ones start at [lo + w] or later. *)
Lemma spanned_split : forall segs lo w sp,
  apart lo segs -> Spec.spanned w segs = Some sp ->
  exists rest, segs = sp ++ rest /\ Forall (fun s => lo + w <= x s) rest.
Proof.
  induction segs as [|s segs IH]; intros lo w sp Hap Hsp.
  - unfold Spec.spanned in Hsp. simpl in Hsp.
    destruct (Z.leb_spec w 0); [|discriminate]. inversion Hsp; subst.
    exists []. split; [reflexivity|constructor].
  - destruct (Z.leb_spec w 0) as [Hw|Hw].
    + rewrite spanned_done in Hsp by assumption. inversion Hsp; subst.
      exists (s :: segs). split; [reflexivity|].
      eapply Forall_impl; [|apply (apart_lower _ _ Hap)]. simpl. intros; lia.
    + rewrite spanned_cons in Hsp by assumption.
      destruct (Spec.spanned (w - width s) segs) as [sp'|] eqn:E; [|discriminate].
      inversion Hsp; subst. destruct Hap as (H1 & H2 & H3).
      destruct (IH _ _ _ H3 E) as (rest & -> & Hrest).
      exists rest. split; [reflexivity|].
      eapply Forall_impl; [|exact Hrest]. simpl. intros; lia.
Qed.

(** C6: scoreBL is (y + height, segment width) and scoreBF is
    (wasted area, y + height), the height being the item's width when
    the candidate is rotated and the wasted area the sum over the spanned
    segments of overlap width times (y - segment y), on a skyline whose
    segments are in increasing position without overlap; and
    _find_best_score never raises, reports no candidate exactly when no
    (segment, orientation) pair fits, and otherwise returns a fitting
    pair whose score is lexicographically minimal among all fitting
    pairs.  The score of a fitting pair is the one of the engine's
    scorer, scoreBL for the heuristic 'bottom_left' and scoreBF for
    'best_fit': with scoreBL the pair (y + height, segment width), with
    scoreBF the pair (wasted area, y + height). *)
Theorem skyline_scores (self : Skyline.t G) (item : Item.t) :
  (forall i seg y0 rot,
      nth_error (Skyline.skyline self) i = Some seg ->
      Skyline.scoreBL (Skyline.skyline self) item y0 i rot
      = Ok (y0 + turned_height item rot, width seg))
  /\ (forall lo i seg y0 rot sp,
        apart lo (Skyline.skyline self) ->
        nth_error (Skyline.skyline self) i = Some seg ->
        Spec.spanned (turned_width item rot) (skipn i (Skyline.skyline self))
        = Some sp ->
        Skyline.scoreBF (Skyline.skyline self) item y0 i rot
        = Ok (Spec.wasted_area (x seg) (x seg + turned_width item rot) y0 sp,
              y0 + turned_height item rot))
  /\ (exists r, Skyline._find_best_score self item = Ok r)
  /\ (Skyline._find_best_score self item = Ok None
      <-> forall i rot sg y0 sc, ~ fitting self item i rot sg y0 sc)
  /\ (forall sc sg rot y0,
        Skyline._find_best_score self item = Ok (Some (sc, sg, rot, y0)) ->
        (exists i, fitting self item i rot sg y0 sc)
        /\ forall i' rot' sg' y' sc',
             fitting self item i' rot' sg' y' sc' ->
             Skyline.pair_ltb sc' sc = false)
  /\ (forall i rot sg y0 sc,
        fitting self item i rot sg y0 sc ->
        match Skyline._score self with
        | Skyline.BL =>
            Skyline.scoreBL (Skyline.skyline self) item y0 i rot = Ok sc
            /\ sc = (y0 + turned_height item rot, width sg)
        | Skyline.BF =>
            Skyline.scoreBF (Skyline.skyline self) item y0 i rot = Ok sc
            /\ snd sc = y0 + turned_height item rot
            /\ forall lo sp,
                 apart lo (Skyline.skyline self) ->
                 Spec.spanned (turned_width item rot)
                   (skipn i (Skyline.skyline self)) = Some sp ->
                 fst sc = Spec.wasted_area (x sg) (x sg + turned_width item rot)
                            y0 sp
        end)
  /\ (forall sc sg rot y0 i' rot' sg' y' sc',
        Skyline._find_best_score self item = Ok (Some (sc, sg, rot, y0)) ->
        fitting self item i' rot' sg' y' sc' ->
        fst sc < fst sc' \/ (fst sc = fst sc' /\ snd sc <= snd sc'))
  /\ (forall w h rot wm heur,
        Skyline.__init__ w h rot wm heur = Ok self ->
        (heur = "bottom_left"%string /\ Skyline._score self = Skyline.BL)
        \/ (heur = "best_fit"%string /\ Skyline._score self = Skyline.BF)).
Proof.
  assert (HBL : forall i seg y0 rot,
             nth_error (Skyline.skyline self) i = Some seg ->
             Skyline.scoreBL (Skyline.skyline self) item y0 i rot
             = Ok (y0 + turned_height item rot, width seg)).
  { intros i seg y0 rot Hi.
    change (Skyline.scoreBL (Skyline.skyline self) item y0 i rot)
      with (Skyline.call_score Skyline.BL (Skyline.skyline self) item y0 i rot).
    rewrite (call_score_total Skyline.BL _ item y0 i rot seg Hi).
    f_equal. f_equal. lia. }
  assert (HBF : forall lo i seg y0 rot sp,
             apart lo (Skyline.skyline self) ->
             nth_error (Skyline.skyline self) i = Some seg ->
             Spec.spanned (turned_width item rot) (skipn i (Skyline.skyline self))
             = Some sp ->
             Skyline.scoreBF (Skyline.skyline self) item y0 i rot
             = Ok (Spec.wasted_area (x seg) (x seg + turned_width item rot) y0 sp,
                   y0 + turned_height item rot)).
  { intros lo i seg y0 rot sp Hap Hi Hsp.
    change (Skyline.scoreBF (Skyline.skyline self) item y0 i rot)
      with (Skyline.call_score Skyline.BF (Skyline.skyline self) item y0 i rot).
    rewrite (call_score_total Skyline.BF _ item y0 i rot seg Hi).
    pose proof (apart_skipn _ _ _ _ Hap Hi) as Hfrom.
    rewrite (calc_waste_loop_spec _ _ _ _ (x seg) 0 (Z.le_refl _) Hfrom).
    destruct (spanned_split _ _ _ _ Hfrom Hsp) as (rest & Hsplit & Hrest).
    rewrite Hsplit, wasted_area_app.
    rewrite (wasted_area_beyond _ _ _ rest Hrest).
    + f_equal. f_equal; lia.
    + rewrite Hsplit in Hfrom. apply apart_positive in Hfrom.
      apply Forall_app in Hfrom. tauto. }
  destruct (find_best_score_spec self item) as (Htot & Hnone & Hsome).
  split; [exact HBL|]. split; [exact HBF|]. split; [exact Htot|].
  split; [exact Hnone|]. split; [exact Hsome|]. split; [|split].
  - intros i rot sg y0 sc (Hi & _ & _ & Hsc).
    destruct (Skyline._score self); cbn [Skyline.call_score] in Hsc.
    + split; [exact Hsc|]. rewrite (HBL _ _ y0 rot Hi) in Hsc.
      inversion Hsc. reflexivity.
    + split; [exact Hsc|]. split.
      * change (Skyline.scoreBF (Skyline.skyline self) item y0 i rot)
          with (Skyline.call_score Skyline.BF (Skyline.skyline self) item y0 i rot)
          in Hsc.
        rewrite (call_score_total Skyline.BF _ item y0 i rot sg Hi) in Hsc.
        inversion Hsc. cbn [snd]. lia.
      * intros lo sp Hap Hsp. rewrite (HBF lo _ _ y0 rot sp Hap Hi Hsp) in Hsc.
        inversion Hsc. reflexivity.
  - intros sc sg rot y0 i' rot' sg' y' sc' Hbest Hfit.
    destruct (Hsome _ _ _ _ Hbest) as (_ & Hmin).
    specialize (Hmin _ _ _ _ _ Hfit). unfold Skyline.pair_ltb in Hmin.
    destruct (Z.ltb_spec (fst sc') (fst sc)); [discriminate|].
    destruct (Z.eqb_spec (fst sc') (fst sc)) as [He|Hne]; [|lia].
    destruct (Z.ltb_spec (snd sc') (snd sc)); [discriminate|]. lia.
  - intros w h rot wm heur Hinit. unfold Skyline.__init__, bind_result in Hinit.
    destruct (if wm then _ else _) as [wm0|]; [|discriminate].
    destruct (String.eqb_spec heur "bottom_left") as [->|_].
    + inversion Hinit. left. split; reflexivity.
    + destruct (String.eqb_spec heur "best_fit") as [->|_]; [|discriminate].
      inversion Hinit. right. split; reflexivity.
Qed.

End BestScore.

Lemma skyline_scores_witness :
  (Skyline.scoreBL (Skyline.skyline skyline_after_4x3) (new_item 6 2) 3 0 false
   = Ok (5, 4)
   /\ (5, 4) = (3 + 2, 4))
  /\ (Skyline.scoreBF (Skyline.skyline best_fit_after_4x3) (new_item 6 2) 3 0 false
      = Ok (6, 5)
      /\ 5 = 3 + 2
      /\ 6 = Spec.wasted_area 0 (0 + 6) 3
               [SkylineSegment.mk 0 3 4; SkylineSegment.mk 4 0 6])
  /\ Skyline._find_best_score best_fit_after_4x3 (new_item 6 2)
     = Ok (Some ((0, 2), SkylineSegment.mk 4 0 6, false, 0))
  /\ (0 < 6 \/ (0 = 6 /\ 2 <= 5)).
Proof.
  assert (Hbl : fitting skyline_after_4x3 (new_item 6 2) 0 false
                  (SkylineSegment.mk 0 3 4) 3 (5, 4)).
  { repeat split; reflexivity. }
  assert (Hbf : fitting best_fit_after_4x3 (new_item 6 2) 0 false
                  (SkylineSegment.mk 0 3 4) 3 (6, 5)).
  { repeat split; reflexivity. }
  assert (Hbest : Skyline._find_best_score best_fit_after_4x3 (new_item 6 2)
                  = Ok (Some ((0, 2), SkylineSegment.mk 4 0 6, false, 0))).
  { vm_compute. reflexivity. }
  split; [|split; [|split; [exact Hbest|]]].
  - destruct (skyline_scores skyline_after_4x3 (new_item 6 2))
      as (_ & _ & _ & _ & _ & Hsc & _).
    exact (Hsc _ _ _ _ _ Hbl).
  - destruct (skyline_scores best_fit_after_4x3 (new_item 6 2))
      as (_ & _ & _ & _ & _ & Hsc & _).
    destruct (Hsc _ _ _ _ _ Hbf) as (H1 & H2 & H3).
    split; [exact H1|]. split; [exact H2|].
    apply (H3 0).
    + cbn. lia.
    + reflexivity.
  - destruct (skyline_scores best_fit_after_4x3 (new_item 6 2))
      as (_ & _ & _ & _ & _ & _ & Hlow & _).
    exact (Hlow _ _ _ _ _ _ _ _ _ Hbest Hbf).
Defined.

(** ** Sorted lists of segments *)

Section SegmentLists.

Import SkylineSegment.

Lemma add_snoc l v : Forall (fun e => x e < x v) l -> SortedList.add l v = l ++ [v].
Proof.
  induction 1 as [|e l He Hl IH]; simpl; [reflexivity|].
  unfold ltb. destruct (Z.ltb_spec (x v) (x e)); [lia|].
  destruct (Z.eqb_spec (x v) (x e)); [lia|]. simpl. rewrite IH. reflexivity.
Qed.

Lemma apart_app lo hi l1 l2 :
  apart lo l1 -> within hi l1 -> apart hi l2 -> lo <= hi -> apart lo (l1 ++ l2).
Proof.
  revert lo. induction l1 as [|s l1 IH]; intros lo H1 Hw H2 Hle; simpl.
  - apply (apart_weaken hi); assumption.
  - destruct H1 as (A & B & C). inversion Hw; subst.
    repeat split; auto; apply IH; auto.
Qed.

Lemma within_app hi l1 l2 : within hi l1 -> within hi l2 -> within hi (l1 ++ l2).
Proof. unfold within. intros. apply Forall_app. auto. Qed.

Lemma within_weaken hi hi' l : hi <= hi' -> within hi l -> within hi' l.
Proof.
  unfold within. intros H Hw. eapply Forall_impl; [|exact Hw].
  simpl. intros; lia.
Qed.

(** A segment that overlaps none of the list goes to its place. *)
Lemma add_apart v : forall l lo,
  apart lo l -> lo <= x v -> 0 < width v ->
  Forall (fun e => x e + width e <= x v \/ x v + width v <= x e) l ->
  apart lo (SortedList.add l v).
Proof.
  induction l as [|e l IH]; intros lo Hap Hlo Hw Hout; simpl.
  - repeat split; auto.
  - destruct Hap as (A & B & C). inversion Hout as [|? ? He Hl]; subst.
    unfold ltb.
    destruct (Z.ltb_spec (x v) (x e)); simpl.
    + repeat split; auto; lia.
    + destruct (Z.eqb_spec (x v) (x e)); [lia|]. simpl.
      repeat split; auto. apply IH; auto. lia.
Qed.

Lemma add_In l v e : In e (SortedList.add l v) <-> e = v \/ In e l.
Proof.
  induction l as [|a l IH]; simpl.
  - intuition.
  - destruct (ltb v a); simpl; [intuition|]. rewrite IH. intuition.
Qed.

Lemma add_within hi l v :
  within hi l -> x v + width v <= hi -> within hi (SortedList.add l v).
Proof.
  unfold within. rewrite !Forall_forall. intros Hl Hv e He.
  apply add_In in He. destruct He as [->|He]; auto.
Qed.

Lemma total_width_app l1 l2 :
  total_width (l1 ++ l2) = total_width l1 + total_width l2.
Proof. induction l1 as [|s l1 IH]; simpl; [reflexivity|]. rewrite IH. lia. Qed.

Lemma total_width_add l v :
  total_width (SortedList.add l v) = total_width l + width v.
Proof.
  induction l as [|e l IH]; simpl; [lia|].
  destruct (ltb v e); simpl; [lia|]. rewrite IH. lia.
Qed.

Lemma total_width_bound : forall l lo hi,
  apart lo l -> within hi l -> lo <= hi -> total_width l <= hi - lo.
Proof.
  induction l as [|s l IH]; intros lo hi Hap Hw Hle; simpl; [lia|].
  destruct Hap as (A & B & C). inversion Hw; subst.
  specialize (IH (x s + width s) hi C H2). lia.
Qed.

(** Segments that do not overlap, stay within [lo, hi] and whose widths
    add up to [hi - lo] leave no gap. *)
Lemma tiles_of_total : forall l lo hi,
  apart lo l -> within hi l -> lo <= hi -> total_width l = hi - lo ->
  tiles lo hi l.
Proof.
  induction l as [|s l IH]; intros lo hi Hap Hw Hle Ht; simpl in *; [lia|].
  destruct Hap as (A & B & C). inversion Hw; subst.
  pose proof (total_width_bound l (x s + width s) hi C H2).
  assert (x s = lo) by lia.
  repeat split; auto. apply IH; auto; lia.
Qed.

Lemma tiles_apart : forall l lo hi, tiles lo hi l -> apart lo l /\ within hi l /\ lo <= hi.
Proof.
  induction l as [|s l IH]; intros lo hi H; simpl in *.
  - subst. repeat split; [constructor|lia].
  - destruct H as (A & B & C). destruct (IH _ _ C) as (D & E & F).
    repeat split; auto; try lia.
    constructor; [lia|exact E].
Qed.

Lemma tiles_total : forall l lo hi, tiles lo hi l -> total_width l = hi - lo.
Proof.
  induction l as [|s l IH]; intros lo hi H; simpl in *; [lia|].
  destruct H as (A & B & C). rewrite (IH _ _ C). lia.
Qed.

Lemma apart_sorted : forall l lo, apart lo l -> sorted_by_x l.
Proof.
  induction l as [|s l IH]; intros lo H; simpl; [exact I|].
  destruct H as (A & B & C). split; [|eapply IH; eauto].
  destruct l as [|s' l]; [exact I|]. destruct C as (C & _). lia.
Qed.

Lemma tiles_neighbours : forall l lo hi,
  tiles lo hi l -> no_equal_touching l -> no_equal_neighbours l.
Proof.
  induction l as [|s l IH]; intros lo hi H Hn; simpl; [exact I|].
  destruct H as (A & B & C). destruct Hn as (D & E).
  split; [|eapply IH; eauto].
  destruct l as [|s' l]; [exact I|]. destruct C as (C & _). auto.
Qed.

Lemma last_snoc l e : SortedList.last (l ++ [e]) = Ok e.
Proof.
  induction l as [|a l IH]; simpl; [reflexivity|].
  destruct (l ++ [e]) eqn:E; [destruct l; discriminate|exact IH].
Qed.

Lemma segment_eqb_refl s : eqb s s = true.
Proof. unfold eqb. rewrite !Z.eqb_refl. reflexivity. Qed.

Lemma remove_snoc l e :
  Forall (fun a => x a < x e) l -> SortedList.remove (l ++ [e]) e = Ok l.
Proof.
  induction 1 as [|a l Ha Hl IH]; simpl.
  - rewrite segment_eqb_refl. reflexivity.
  - unfold eqb at 1. destruct (Z.eqb_spec (x a) (x e)); [lia|]. simpl.
    rewrite IH. reflexivity.
Qed.

(** On a list in increasing position the merge loop never fails and
    computes [merged]. *)
Lemma merge_loop_merged : forall rest pre last,
  Forall (fun a => x a < x last) pre ->
  apart (x last) (last :: rest) ->
  Skyline._merge_loop rest (pre ++ [last]) = Ok (pre ++ merged last rest).
Proof.
  induction rest as [|s rest IH]; intros pre last Hpre Hap; simpl.
  - reflexivity.
  - rewrite last_snoc. unfold bind_result at 1.
    destruct Hap as (A & B & C & D & E).
    destruct ((y s =? y last) && (x s =? x last + width last)) eqn:Hc.
    + rewrite remove_snoc by assumption. unfold bind_result at 1.
      rewrite add_snoc by (simpl; exact Hpre).
      apply IH; [exact Hpre|].
      simpl. repeat split; auto; try lia.
      apply (apart_weaken (x s + width s)); [lia|exact E].
    + rewrite add_snoc.
      2:{ apply Forall_app. split.
          - eapply Forall_impl; [|exact Hpre]. simpl. intros; lia.
          - constructor; [lia|constructor]. }
      rewrite (IH (pre ++ [last]) s).
      * rewrite <- app_assoc. reflexivity.
      * apply Forall_app. split.
        -- eapply Forall_impl; [|exact Hpre]. simpl. intros; lia.
        -- constructor; [lia|constructor].
      * simpl. repeat split; auto; lia.
Qed.

Lemma merged_apart : forall rest last lo,
  apart lo (last :: rest) -> apart lo (merged last rest).
Proof.
  induction rest as [|s rest IH]; intros last lo Hap; simpl; [exact Hap|].
  destruct Hap as (A & B & C & D & E).
  destruct ((y s =? y last) && (x s =? x last + width last)) eqn:Hc.
  - apply IH. simpl. repeat split; auto; try lia.
    apply (apart_weaken (x s + width s)); [lia|exact E].
  - simpl. repeat split; auto.
    apply (apart_weaken (x s)); [lia|]. apply IH. simpl. repeat split; auto; lia.
Qed.

Lemma merged_within : forall rest last hi,
  within hi (last :: rest) -> 0 < width last -> apart (x last) (last :: rest) ->
  within hi (merged last rest).
Proof.
  induction rest as [|s rest IH]; intros last hi Hw Hpos Hap; simpl; [exact Hw|].
  inversion Hw as [|? ? Hl Hr]; subst. inversion Hr as [|? ? Hs Hrest]; subst.
  destruct Hap as (A & B & C & D & E).
  destruct ((y s =? y last) && (x s =? x last + width last)) eqn:Hc.
  - apply IH.
    + constructor; [simpl; lia|exact Hrest].
    + simpl. lia.
    + simpl. repeat split; auto; try lia.
      apply (apart_weaken (x s + width s)); [lia|exact E].
  - constructor; [exact Hl|]. apply IH; auto.
    simpl. repeat split; auto; lia.
Qed.

Lemma merged_head : forall rest last,
  exists w tl, merged last rest = SkylineSegment.mk (x last) (y last) w :: tl.
Proof.
  induction rest as [|s rest IH]; intros [lx ly lw]; simpl.
  - exists lw, []. reflexivity.
  - destruct ((y s =? ly) && (x s =? lx + lw)) eqn:Hc.
    + destruct (IH (SkylineSegment.mk lx ly (x s + width s - lx)))
        as (w & tl & ->).
      simpl in *. exists w, tl. reflexivity.
    + exists lw, (merged s rest). reflexivity.
Qed.

Lemma merged_no_equal_touching : forall rest last,
  apart (x last) (last :: rest) -> no_equal_touching (merged last rest).
Proof.
  induction rest as [|s rest IH]; intros last Hap; simpl; [auto|].
  destruct Hap as (A & B & C & D & E).
  destruct ((y s =? y last) && (x s =? x last + width last)) eqn:Hc.
  - apply IH. simpl. repeat split; auto; try lia.
    apply (apart_weaken (x s + width s)); [lia|exact E].
  - assert (Hs : apart (x s) (s :: rest)) by (simpl; repeat split; auto; lia).
    specialize (IH s Hs).
    destruct (merged_head rest s) as (w & tl & Hm).
    rewrite Hm in *. simpl. split; [|exact IH].
    intros Hx Hy. simpl in Hx, Hy.
    rewrite <- Hy, Hx in Hc. rewrite !Z.eqb_refl in Hc. discriminate.
Qed.

Lemma merged_tiles : forall rest last lo hi,
  tiles lo hi (last :: rest) -> tiles lo hi (merged last rest).
Proof.
  induction rest as [|s rest IH]; intros last lo hi Ht; simpl; [exact Ht|].
  destruct Ht as (A & B & C & D & E).
  destruct ((y s =? y last) && (x s =? x last + width last)) eqn:Hc.
  - apply IH. simpl. repeat split; auto; try lia.
    replace (x last + (x s + width s - x last)) with (x s + width s) by lia.
    exact E.
  - simpl. repeat split; auto. apply IH. simpl. repeat split; auto.
Qed.

End SegmentLists.

(** ** Clipping *)

Ltac clip_leaf :=
  unfold within, overlap;
  cbn [apart total_width SkylineSegment.x SkylineSegment.y SkylineSegment.width];
  repeat split; try lia;
  repeat (apply Forall_cons;
          [cbn [SkylineSegment.x SkylineSegment.y SkylineSegment.width]; lia|]);
  try apply Forall_nil.

Section Clipping.

Import SkylineSegment.

Variable item : Item.t.
Hypothesis item_width_nonneg : 0 <= Item.width item.

Let a := Item.x item.
Let b := Item.x item + Item.width item.

(** The pieces [_clip_segment] leaves of a segment: inside the segment,
    in increasing position, outside the item's range, and as wide in
    total as the part of the segment that is not under the item. *)
Lemma clip_shape s :
  0 < width s ->
  apart (x s) (Skyline._clip_segment s item)
  /\ within (x s + width s) (Skyline._clip_segment s item)
  /\ Forall (fun p => x p + width p <= a \/ b <= x p) (Skyline._clip_segment s item)
  /\ total_width (Skyline._clip_segment s item)
     = width s - overlap (x s) (x s + width s) a b.
Proof.
  intros Hs. subst a b. unfold Skyline._clip_segment. cbv zeta.
  destruct (Z.gtb_spec (x s) (Item.x item + Item.width item)) as [H1|H1];
    cbn [orb]; [clip_leaf|].
  destruct (Z.ltb_spec (x s + width s) (Item.x item)) as [H2|H2];
    cbn [orb]; [clip_leaf|].
  destruct (Z.geb_spec (x s) (Item.x item)) as [H3|H3]; cbn [andb].
  - destruct (Z.leb_spec (x s + width s) (Item.x item + Item.width item))
      as [H4|H4]; [clip_leaf|].
    destruct (Z.ltb_spec (x s) (Item.x item)) as [H5|H5]; [lia|]. cbn [andb].
    destruct (Z.gtb_spec (x s + width s) (Item.x item + Item.width item))
      as [H6|H6]; [clip_leaf|lia].
  - destruct (Z.ltb_spec (x s) (Item.x item)) as [H5|H5]; [|lia]. cbn [andb].
    destruct (Z.leb_spec (x s + width s) (Item.x item + Item.width item))
      as [H4|H4]; [clip_leaf|].
    destruct (Z.gtb_spec (x s + width s) (Item.x item + Item.width item))
      as [H6|H6]; [clip_leaf|lia].
Qed.

Lemma update_snoc : forall pieces acc lo,
  apart lo pieces -> Forall (fun e => x e < lo) acc ->
  SortedList.update acc pieces = acc ++ pieces.
Proof.
  unfold SortedList.update.
  induction pieces as [|p ps IH]; intros acc lo Hap Hacc; simpl.
  - rewrite app_nil_r. reflexivity.
  - destruct Hap as (A & B & C).
    rewrite add_snoc by (eapply Forall_impl; [|exact Hacc]; simpl; intros; lia).
    rewrite (IH (acc ++ [p]) (x p + width p) C).
    + rewrite <- app_assoc. reflexivity.
    + apply Forall_app. split.
      * eapply Forall_impl; [|exact Hacc]. simpl. intros; lia.
      * constructor; [lia|constructor].
Qed.

Lemma within_lt hi l :
  within hi l -> Forall (fun s => 0 < width s) l -> Forall (fun e => x e < hi) l.
Proof.
  unfold within. rewrite !Forall_forall. intros Hw Hp e He.
  specialize (Hw e He). specialize (Hp e He). simpl in *. lia.
Qed.

(** The loop of [_update_segment] over a skyline in increasing position
    appends the pieces segment by segment. *)
Lemma clip_fold : forall sky acc lo,
  apart lo sky -> Forall (fun e => x e < lo) acc ->
  fold_left (fun acc0 seg => SortedList.update acc0 (Skyline._clip_segment seg item))
            sky acc
  = acc ++ flat_map (fun seg => Skyline._clip_segment seg item) sky.
Proof.
  induction sky as [|s sky IH]; intros acc lo Hap Hacc; simpl.
  - rewrite app_nil_r. reflexivity.
  - destruct Hap as (A & B & C).
    destruct (clip_shape s B) as (P1 & P2 & _ & _).
    rewrite (update_snoc _ acc (x s) P1)
      by (eapply Forall_impl; [|exact Hacc]; simpl; intros; lia).
    rewrite (IH _ (x s + width s) C).
    + rewrite <- app_assoc. reflexivity.
    + apply Forall_app. split.
      * eapply Forall_impl; [|exact Hacc]. simpl. intros; lia.
      * apply within_lt; [exact P2|]. eapply apart_positive; eauto.
Qed.

Lemma overlap_split lo m hi :
  lo <= m -> m <= hi ->
  overlap lo hi a b = overlap lo m a b + overlap m hi a b.
Proof. unfold overlap. subst a b. lia. Qed.

Lemma clipped_shape : forall sky lo hi,
  apart lo sky -> within hi sky -> lo <= hi ->
  apart lo (flat_map (fun seg => Skyline._clip_segment seg item) sky)
  /\ within hi (flat_map (fun seg => Skyline._clip_segment seg item) sky)
  /\ Forall (fun p => x p + width p <= a \/ b <= x p)
            (flat_map (fun seg => Skyline._clip_segment seg item) sky).
Proof.
  induction sky as [|s sky IH]; intros lo hi Hap Hw Hle; simpl.
  - repeat split; constructor.
  - destruct Hap as (A & B & C). inversion Hw as [|? ? Hs Hrest]; subst.
    destruct (clip_shape s B) as (P1 & P2 & P3 & _).
    destruct (IH (x s + width s) hi C Hrest Hs) as (Q1 & Q2 & Q3).
    repeat split.
    + apply (apart_app lo (x s + width s)); auto; try lia.
      apply (apart_weaken (x s)); [lia|exact P1].
    + apply within_app; [|exact Q2].
      apply (within_weaken (x s + width s)); [lia|exact P2].
    + apply Forall_app. split; assumption.
Qed.

Lemma clipped_total : forall sky lo hi,
  tiles lo hi sky ->
  total_width (flat_map (fun seg => Skyline._clip_segment seg item) sky)
  = (hi - lo) - overlap lo hi a b.
Proof.
  induction sky as [|s sky IH]; intros lo hi Ht; simpl in *.
  - subst. unfold overlap. lia.
  - destruct Ht as (A & B & C).
    destruct (clip_shape s B) as (_ & _ & _ & P4).
    destruct (tiles_apart _ _ _ C) as (_ & _ & Hle).
    rewrite total_width_app, P4, (IH _ _ C).
    rewrite (overlap_split lo (x s + width s) hi) by lia.
    rewrite A. lia.
Qed.

(** The skyline after [_update_segment], for an item placed on a
    segment start inside the bin. *)
Lemma new_skyline_shape H W sky seg :
  apart 0 sky -> within W sky ->
  0 < Item.width item -> 0 <= a -> x seg = a -> b <= W ->
  apart 0 (new_skyline H sky seg item)
  /\ within W (new_skyline H sky seg item)
  /\ (tiles 0 W sky -> Item.height item + Item.y item < H ->
      tiles 0 W (new_skyline H sky seg item)).
Proof.
  intros Hap Hw Hiw Ha Hseg Hb. unfold new_skyline.
  assert (HW : 0 <= W) by (subst a b; lia).
  destruct (clipped_shape sky 0 W Hap Hw HW) as (Q1 & Q2 & Q3).
  destruct (Z.ltb_spec (Item.height item + Item.y item) H) as [Hroom|Hfull].
  - assert (R1 : apart 0
             (SortedList.add (flat_map (fun seg0 => Skyline._clip_segment seg0 item) sky)
                {| x := x seg; y := Item.y item + Item.height item;
                   width := Item.width item |})).
    { apply add_apart; cbn [x y width]; auto; try lia.
      eapply Forall_impl; [|exact Q3]. cbn [x y width]. subst a b. intros; lia. }
    assert (R2 : within W
             (SortedList.add (flat_map (fun seg0 => Skyline._clip_segment seg0 item) sky)
                {| x := x seg; y := Item.y item + Item.height item;
                   width := Item.width item |})).
    { apply add_within; [exact Q2|]. cbn [x y width]. subst a b. lia. }
    repeat split; auto.
    intros Ht _. apply tiles_of_total; auto.
    rewrite total_width_add, (clipped_total sky 0 W Ht). cbn [width].
    unfold overlap. subst a b. lia.
  - repeat split; auto. intros _ Hlt. lia.
Qed.

End Clipping.

(** ** What insert does to the engine *)

Section Insertion.

Import SkylineSegment.

Context {G : Type} {GA : GuillotineAPI G}.

Lemma set_wastemap_same (self : Skyline.t G) :
  Skyline.set_wastemap self (Skyline.wastemap self) = self.
Proof. destruct self; reflexivity. Qed.

(** [_add_to_wastemap] changes the wastemap only. *)
Lemma add_to_wastemap_frame (self : Skyline.t G) i item y0 :
  exists wm,
    state_of (Skyline._add_to_wastemap self i item y0)
    = Skyline.set_wastemap self wm.
Proof.
  unfold Skyline._add_to_wastemap.
  destruct (getitem (Skyline.skyline self) i); simpl.
  - destruct (Skyline._add_to_wastemap_loop _ _ _ _ _); simpl; eauto.
  - exists (Skyline.wastemap self). rewrite set_wastemap_same. reflexivity.
Qed.

(** [_update_segment] on a skyline in increasing position: the new
    list is [new_skyline], and of the engine only the wastemap changes. *)
Lemma update_segment_spec (self : Skyline.t G) seg y0 item lo :
  apart lo (Skyline.skyline self) -> 0 <= Item.width item ->
  match Skyline._update_segment self seg y0 item with
  | Returns segs self' =>
      (exists wm, self' = Skyline.set_wastemap self wm)
      /\ segs = new_skyline (Skyline.height self) (Skyline.skyline self) seg item
  | Raises e self' => exists wm, self' = Skyline.set_wastemap self wm
  end.
Proof.
  intros Hap Hw. unfold Skyline._update_segment.
  assert (Hdon :
    exists wm,
      state_of (if Skyline.use_waste_map self
                then match SortedList.index (Skyline.skyline self) seg with
                     | Ok seg_i => Skyline._add_to_wastemap self seg_i item y0
                     | Err e => Raises e self
                     end
                else Returns tt self)
      = Skyline.set_wastemap self wm).
  { destruct (Skyline.use_waste_map self).
    - destruct (SortedList.index (Skyline.skyline self) seg).
      + apply add_to_wastemap_frame.
      + exists (Skyline.wastemap self). simpl. rewrite set_wastemap_same. reflexivity.
    - exists (Skyline.wastemap self). simpl. rewrite set_wastemap_same. reflexivity. }
  destruct Hdon as (wm & Hdon).
  destruct (if Skyline.use_waste_map self then _ else _) as [[] self'|e self'];
    simpl in Hdon; subst self'; [|eauto].
  assert (Hsky : Skyline.skyline (Skyline.set_wastemap self wm) = Skyline.skyline self)
    by (destruct self; reflexivity).
  assert (Hh : Skyline.height (Skyline.set_wastemap self wm) = Skyline.height self)
    by (destruct self; reflexivity).
  rewrite Hsky, Hh.
  rewrite (clip_fold item Hw (Skyline.skyline self) [] lo Hap (Forall_nil _)).
  simpl app. unfold new_skyline.
  destruct (Item.height item + Item.y item <? Skyline.height self);
    split; eauto.
Qed.

Lemma merge_segments_spec (self : Skyline.t G) lo :
  apart lo (Skyline.skyline self) ->
  Skyline._merge_segments self
  = match Skyline.skyline self with
    | [] => Raises IndexError self
    | first :: rest => Returns tt (Skyline.set_skyline self (merged first rest))
    end.
Proof.
  intros Hap. unfold Skyline._merge_segments.
  destruct (Skyline.skyline self) as [|first rest]; [reflexivity|].
  pose proof (merge_loop_merged rest [] first (Forall_nil _)) as Hm.
  cbn [app] in Hm. rewrite Hm; [reflexivity|].
  destruct Hap as (A & B & C). simpl. repeat split; auto. lia.
Qed.

(** A fitting pair of positive width lies inside the bin. *)
Lemma fitting_inside (self : Skyline.t G) item i rot sg y0 sc :
  fitting self item i rot sg y0 sc ->
  0 < turned_width item rot ->
  x sg + turned_width item rot <= Skyline.width self
  /\ y0 + turned_height item rot <= Skyline.height self
  /\ In sg (Skyline.skyline self).
Proof.
  intros (Hi & _ & Hcf & _) Hw.
  destruct (check_fit_some self _ (turned_height item rot) i sg y0 Hi Hw Hcf)
    as (sp & _ & _ & Hx & Hy).
  repeat split; auto. eapply nth_error_In; eauto.
Qed.

Lemma placed_fields item rot x0 y0 :
  Item.width (placed item rot x0 y0) = turned_width item rot
  /\ Item.height (placed item rot x0 y0) = turned_height item rot
  /\ Item.x (placed item rot x0 y0) = x0
  /\ Item.y (placed item rot x0 y0) = y0.
Proof. destruct rot; repeat split; reflexivity. Qed.

(** The three ways [_place] can end. *)
Lemma place_outcome (self : Skyline.t G) (item : Item.t) :
  apart 0 (Skyline.skyline self) ->
  0 < Item.width item -> 0 < Item.height item ->
  match Skyline._place self item with
  | Returns false st =>
      st = (self, item) /\ forall i rot sg y0 sc, ~ fitting self item i rot sg y0 sc
  | Returns true (self', item') =>
      exists i seg rot y0 sc wm first rest,
        fitting self item i rot seg y0 sc
        /\ item' = placed item rot (x seg) y0
        /\ new_skyline (Skyline.height self) (Skyline.skyline self) seg item'
           = first :: rest
        /\ self' = Skyline.set_skyline
                     (Skyline.set_wastemap (Skyline.record_item self item') wm)
                     (merged first rest)
  | Raises e (self', item') =>
      exists i seg rot y0 sc wm,
        fitting self item i rot seg y0 sc
        /\ item' = placed item rot (x seg) y0
        /\ (self' = Skyline.set_wastemap (Skyline.record_item self item') wm
            \/ (e = IndexError
                /\ new_skyline (Skyline.height self) (Skyline.skyline self) seg item'
                   = []
                /\ self' = Skyline.set_skyline
                             (Skyline.set_wastemap (Skyline.record_item self item') wm)
                             []))
  end.
Proof.
  intros Hap Hiw Hih.
  destruct (find_best_score_spec self item) as ((r & Hr) & Hnone & Hsome).
  unfold Skyline._place. rewrite Hr.
  destruct r as [[[[sc seg] rot] y0]|].
  2:{ split; [reflexivity|]. apply Hnone. exact Hr. }
  destruct (Hsome _ _ _ _ Hr) as ((i & Hfit) & _).
  change (Item.set_xy (if rot then Item.rotate item else item) (x seg) y0)
    with (placed item rot (x seg) y0).
  set (item2 := placed item rot (x seg) y0).
  destruct (placed_fields item rot (x seg) y0) as (Pw & Ph & Px & Py).
  assert (Htw : 0 < turned_width item rot)
    by (unfold turned_width; destruct rot; assumption).
  assert (Hsky1 : Skyline.skyline (Skyline.record_item self item2) = Skyline.skyline self)
    by reflexivity.
  assert (Hh1 : Skyline.height (Skyline.record_item self item2) = Skyline.height self)
    by reflexivity.
  pose proof (update_segment_spec (Skyline.record_item self item2) seg y0 item2 0) as Hup.
  rewrite Hsky1, Hh1 in Hup. specialize (Hup Hap).
  assert (Hw2 : 0 <= Item.width item2) by (subst item2; rewrite Pw; lia).
  specialize (Hup Hw2).
  destruct (Skyline._update_segment (Skyline.record_item self item2) seg y0 item2)
    as [segs self2|e self2].
  - destruct Hup as ((wm & ->) & ->).
    destruct (fitting_inside _ _ _ _ _ _ _ Hfit Htw) as (Hx & Hy & Hin).
    assert (Hseg0 : 0 <= x seg).
    { pose proof (apart_lower _ _ Hap) as Hlow.
      rewrite Forall_forall in Hlow. exact (Hlow _ Hin). }
    assert (Hnew : apart 0 (new_skyline (Skyline.height self) (Skyline.skyline self)
                               seg item2)).
    { (* any bound on the right will do for [apart] *)
      assert (Hbig : exists hi, within hi (Skyline.skyline self) /\ 0 <= hi
                                /\ x seg + Item.width item2 <= hi).
      { clear - Hx Pw Hseg0 Htw. subst item2.
        induction (Skyline.skyline self) as [|s l IH].
        - exists (x seg + Item.width (placed item rot (x seg) y0)).
          split; [constructor|]. rewrite Pw. lia.
        - destruct IH as (hi & A & B & C).
          exists (Z.max hi (x s + width s)). split; [|lia].
          constructor; [lia|]. eapply within_weaken; [|exact A]. lia. }
      destruct Hbig as (hi & Hwi & Hhi & Hfit_hi).
      destruct (new_skyline_shape item2 Hw2 (Skyline.height self) hi
                  (Skyline.skyline self) seg Hap Hwi) as (R & _); auto;
        subst item2; rewrite ?Pw, ?Px; try lia; reflexivity. }
    pose proof (merge_segments_spec
                  (Skyline.set_skyline
                     (Skyline.set_wastemap (Skyline.record_item self item2) wm)
                     (new_skyline (Skyline.height self) (Skyline.skyline self) seg item2))
                  0) as Hmerge.
    assert (Hsk : forall (s0 : Skyline.t G) l, Skyline.skyline (Skyline.set_skyline s0 l) = l)
      by reflexivity.
    rewrite Hsk in Hmerge. specialize (Hmerge Hnew). rewrite Hmerge.
    destruct (new_skyline (Skyline.height self) (Skyline.skyline self) seg item2)
      as [|first rest] eqn:Enew.
    + exists i, seg, rot, y0, sc, wm.
      split; [exact Hfit|]. split; [reflexivity|]. right. auto.
    + exists i, seg, rot, y0, sc, wm, first, rest.
      split; [exact Hfit|]. split; [reflexivity|]. split; [exact Enew|].
      reflexivity.
  - destruct Hup as (wm & ->).
    exists i, seg, rot, y0, sc, wm.
    split; [exact Hfit|]. split; [reflexivity|]. left. reflexivity.
Qed.

Lemma merged_ok W first rest :
  apart 0 (first :: rest) -> within W (first :: rest) ->
  skyline_ok W (merged first rest).
Proof.
  intros Hap Hw.
  assert (Hfirst : apart (x first) (first :: rest)).
  { destruct Hap as (A & B & C). simpl. repeat split; auto. lia. }
  split; [apply merged_apart; exact Hap|].
  split; [apply merged_within; auto; destruct Hap as (_ & B & _); exact B|].
  apply merged_no_equal_touching. exact Hfirst.
Qed.

(** The new segment list of a fitting pair. *)
Lemma fitting_new_skyline (self : Skyline.t G) item i rot seg y0 sc :
  apart 0 (Skyline.skyline self) ->
  within (Skyline.width self) (Skyline.skyline self) ->
  0 < Item.width item -> 0 < Item.height item ->
  fitting self item i rot seg y0 sc ->
  let item' := placed item rot (x seg) y0 in
  let sky' := new_skyline (Skyline.height self) (Skyline.skyline self) seg item' in
  apart 0 sky' /\ within (Skyline.width self) sky'
  /\ (tiles 0 (Skyline.width self) (Skyline.skyline self) ->
      Item.height item' + Item.y item' < Skyline.height self ->
      tiles 0 (Skyline.width self) sky').
Proof.
  intros Hap Hw Hiw Hih Hfit item' sky'. subst item' sky'.
  destruct (placed_fields item rot (x seg) y0) as (Pw & Ph & Px & Py).
  assert (Htw : 0 < turned_width item rot)
    by (unfold turned_width; destruct rot; assumption).
  destruct (fitting_inside _ _ _ _ _ _ _ Hfit Htw) as (Hx & Hy & Hin).
  assert (Hseg0 : 0 <= x seg).
  { pose proof (apart_lower _ _ Hap) as Hlow.
    rewrite Forall_forall in Hlow. exact (Hlow _ Hin). }
  apply new_skyline_shape; auto; rewrite ?Pw, ?Px; try lia.
Qed.

(** [_place] keeps the shape of the skyline and the size of the bin,
    however it ends. *)
Lemma place_keeps (self : Skyline.t G) (item : Item.t) :
  skyline_ok (Skyline.width self) (Skyline.skyline self) ->
  0 < Item.width item -> 0 < Item.height item ->
  let self' := fst (state_of (Skyline._place self item)) in
  skyline_ok (Skyline.width self) (Skyline.skyline self')
  /\ Skyline.width self' = Skyline.width self
  /\ Skyline.height self' = Skyline.height self.
Proof.
  intros (Hap & Hw & Hnt) Hiw Hih.
  pose proof (place_outcome self item Hap Hiw Hih) as Hout.
  destruct (Skyline._place self item) as [[|] [self' item']|e [self' item']];
    cbn [state_of fst].
  - destruct Hout as (i & seg & rot & y0 & sc & wm & first & rest
                      & Hfit & -> & Hnew & ->).
    destruct (fitting_new_skyline self item i rot seg y0 sc Hap Hw Hiw Hih Hfit)
      as (A & B & _).
    rewrite Hnew in A, B.
    split; [|split; reflexivity].
    cbn [Skyline.set_skyline Skyline.skyline]. apply merged_ok; assumption.
  - destruct Hout as (Hst & _). inversion Hst; subst.
    repeat split; assumption.
  - destruct Hout as (i & seg & rot & y0 & sc & wm & Hfit & -> & [->|(_ & _ & ->)]).
    + repeat split; assumption.
    + split; [|split; reflexivity].
      cbn [Skyline.set_skyline Skyline.skyline]. repeat split; constructor.
Qed.

(** How a call of insert that returns True got there: through the
    wastemap, which leaves the skyline alone, or through [_place] on
    the engine with the wastemap as the declined attempt left it. *)
Lemma insert_true_cases (self self' : Skyline.t G) item item' hz :
  declined_item_kept G ->
  Skyline.insert self item hz = Returns true (self', item') ->
  (Skyline.skyline self' = Skyline.skyline self
   /\ Skyline.width self' = Skyline.width self
   /\ Skyline.height self' = Skyline.height self)
  \/ exists wm,
       Skyline._place (Skyline.set_wastemap self wm) item
       = Returns true (self', item').
Proof.
  intros Hkept. unfold Skyline.insert.
  destruct (Skyline.wastemap self) as [wm|] eqn:Ewm; [|discriminate].
  destruct (Guillotine_bool wm).
  - destruct (Guillotine_insert wm item (Some "best_area"))
      as [[|] [wm' item0]|e [wm' item0]] eqn:Eins.
    + intros H. inversion H; subst. left. repeat split; reflexivity.
    + apply Hkept in Eins. subst item0. intros H. right. eauto.
    + discriminate.
  - intros H. right. exists (Skyline.wastemap self).
    rewrite set_wastemap_same. exact H.
Qed.

(** insert keeps the shape of the skyline and the size of the bin,
    whether it returns or raises. *)
Lemma insert_keeps (self : Skyline.t G) (item : Item.t) hz :
  declined_item_kept G ->
  skyline_ok (Skyline.width self) (Skyline.skyline self) ->
  0 < Item.width item -> 0 < Item.height item ->
  let self' := fst (state_of (Skyline.insert self item hz)) in
  skyline_ok (Skyline.width self) (Skyline.skyline self')
  /\ Skyline.width self' = Skyline.width self
  /\ Skyline.height self' = Skyline.height self.
Proof.
  intros Hkept Hok Hiw Hih. unfold Skyline.insert.
  destruct (Skyline.wastemap self) as [wm|] eqn:Ewm;
    [|cbn [state_of fst]; repeat split; apply Hok].
  destruct (Guillotine_bool wm).
  - destruct (Guillotine_insert wm item (Some "best_area"))
      as [[|] [wm' item0]|e [wm' item0]] eqn:Eins.
    + cbn [state_of fst]. repeat split; apply Hok.
    + apply Hkept in Eins. subst item0.
      apply (place_keeps (Skyline.set_wastemap self (Some wm')) item); auto.
    + cbn [state_of fst]. repeat split; apply Hok.
  - apply place_keeps; auto.
Qed.

(** Every state of an engine of a bin of positive width has a skyline
    of the right shape. *)
Lemma reachable_ok W H (self : Skyline.t G) :
  declined_item_kept G -> 0 < W ->
  reachable W H self ->
  skyline_ok W (Skyline.skyline self)
  /\ Skyline.width self = W /\ Skyline.height self = H.
Proof.
  intros Hkept HW. induction 1 as [rot wm heur self Hinit|self item hz Hr IH Hiw Hih].
  - unfold Skyline.__init__, bind_result in Hinit.
    destruct (if wm then _ else _); [|discriminate].
    destruct (heur =? "bottom_left")%string;
      [|destruct (heur =? "best_fit")%string; [|discriminate]];
      inversion Hinit; subst; cbn [Skyline.skyline Skyline.width Skyline.height];
      (split; [|split; reflexivity]);
      (split; [cbn; lia|]); (split; [|cbn; auto]);
      constructor; [cbn; lia|constructor | cbn; lia|constructor].
  - destruct IH as (Hok & Hw & Hh). rewrite <- Hw in Hok.
    destruct (insert_keeps self item hz Hkept Hok Hiw Hih) as (A & B & C).
    rewrite Hw in *. rewrite B, C. auto.
Qed.

(** C1 (amended): after a successful insert of an item of positive
    sides into an engine of a bin of positive width, the skyline is
    sorted by x, its segments do not overlap and lie within [0, binW],
    and no two segments that touch have equal y; when the skyline tiled
    [0, binW] before and the top of the placed item is below binH, it
    tiles [0, binW] after, and no two adjacent segments have equal y. *)
Theorem insert_keeps_skyline W H (self self' : Skyline.t G)
    (item item' : Item.t) (hz : option string) :
  declined_item_kept G ->
  0 < W ->
  reachable W H self ->
  0 < Item.width item -> 0 < Item.height item ->
  Skyline.insert self item hz = Returns true (self', item') ->
  sorted_by_x (Skyline.skyline self')
  /\ apart 0 (Skyline.skyline self')
  /\ within W (Skyline.skyline self')
  /\ no_equal_touching (Skyline.skyline self')
  /\ (tiles 0 W (Skyline.skyline self) ->
      Item.y item' + Item.height item' < H ->
      tiles 0 W (Skyline.skyline self')
      /\ no_equal_neighbours (Skyline.skyline self')).
Proof.
  intros Hkept HW Hreach Hiw Hih Hins.
  destruct (reachable_ok W H self Hkept HW Hreach) as (Hok & Hw & Hh).
  pose proof (reachable_ok W H _ Hkept HW
                (reachable_insert W H self item hz Hreach Hiw Hih)) as Hok'.
  rewrite Hins in Hok'. cbn [state_of fst] in Hok'.
  destruct Hok' as ((A & B & C) & _ & _).
  split; [eapply apart_sorted; exact A|].
  repeat (split; [assumption|]).
  intros Ht Htop.
  assert (Htiles : tiles 0 W (Skyline.skyline self'));
    [|split; [exact Htiles|eapply tiles_neighbours; eauto]].
  destruct (insert_true_cases self self' item item' hz Hkept Hins)
    as [(Hsame & _ & _)|(wm & Hplace)].
  - rewrite Hsame. exact Ht.
  - set (self0 := Skyline.set_wastemap self wm) in *.
    assert (Hsky0 : Skyline.skyline self0 = Skyline.skyline self)
      by (destruct self; reflexivity).
    assert (Hw0 : Skyline.width self0 = W) by (destruct self; exact Hw).
    assert (Hh0 : Skyline.height self0 = H) by (destruct self; exact Hh).
    destruct Hok as (Hap & Hwi & _).
    assert (Hap0 : apart 0 (Skyline.skyline self0)) by (rewrite Hsky0; exact Hap).
    pose proof (place_outcome self0 item Hap0 Hiw Hih) as Hout.
    rewrite Hplace in Hout.
    destruct Hout as (i & seg & rot & y0 & sc & wm' & first & rest
                      & Hfit & -> & Hnew & ->).
    assert (Hwi0 : within (Skyline.width self0) (Skyline.skyline self0))
      by (rewrite Hsky0, Hw0; exact Hwi).
    destruct (fitting_new_skyline self0 item i rot seg y0 sc Hap0 Hwi0 Hiw Hih Hfit)
      as (_ & _ & Hnt).
    rewrite Hnew, Hw0, Hh0, Hsky0 in Hnt.
    cbn [Skyline.set_skyline Skyline.skyline].
    apply merged_tiles. apply Hnt; [exact Ht|lia].
Qed.

End Insertion.

(** ** An item as large as the bin *)

(** Decide the first integer comparison of the goal from the
    hypotheses. *)
Ltac zstep :=
  match goal with
  | |- context [(?a >? ?b)%Z] => destruct (Z.gtb_spec a b)
  | |- context [(?a >=? ?b)%Z] => destruct (Z.geb_spec a b)
  | |- context [(?a <? ?b)%Z] => destruct (Z.ltb_spec a b)
  | |- context [(?a <=? ?b)%Z] => destruct (Z.leb_spec a b)
  | |- context [(?a =? ?b)%Z] => destruct (Z.eqb_spec a b)
  end; cbn in *; try lia.

Section FullSizeItem.

Import SkylineSegment.

Context {G : Type} {GA : GuillotineAPI G}.

Lemma init_shape w h rot wm heur (self : Skyline.t G) :
  Skyline.__init__ w h rot wm heur = Ok self ->
  Skyline.width self = w /\ Skyline.height self = h
  /\ Skyline.skyline self = [SkylineSegment.mk 0 0 w]
  /\ Skyline.items self = [] /\ Skyline.area self = w * h
  /\ Skyline.free_area self = w * h /\ Skyline.rotation self = rot
  /\ Skyline.use_waste_map self = wm
  /\ Skyline.heuristic self = heur.
Proof.
  unfold Skyline.__init__, bind_result. intros H.
  destruct (if wm then _ else _); [|discriminate].
  destruct (heur =? "bottom_left")%string;
    [|destruct (heur =? "best_fit")%string; [|discriminate]];
    inversion H; subst; simpl; repeat split; reflexivity.
Qed.

(** Under an item that covers the one segment of the skyline and
    reaches the top of the bin nothing is donated to the wastemap, the
    segment is clipped away and no segment is added. *)
Lemma update_segment_full (self : Skyline.t G) (item : Item.t) W H :
  0 < W ->
  Skyline.height self = H ->
  Skyline.skyline self = [SkylineSegment.mk 0 0 W] ->
  Item.width item = W -> Item.height item = H ->
  Item.x item = 0 -> Item.y item = 0 ->
  Skyline._update_segment self (SkylineSegment.mk 0 0 W) 0 item
  = Returns [] self.
Proof.
  intros HW Hh Hsky Hiw Hih Hix Hiy.
  destruct self as [w h sky its ar fa rot uwm wm heur sc].
  destruct item as [iw ih ix iy ir]. cbn in Hh, Hsky, Hiw, Hih, Hix, Hiy. subst.
  unfold Skyline._update_segment, Skyline._add_to_wastemap, getitem,
    Skyline._clip_segment, SortedList.update.
  cbn [Skyline.use_waste_map Skyline.skyline Skyline.height Skyline.wastemap
       SortedList.index Item.x Item.y Item.width Item.height
       SkylineSegment.x SkylineSegment.y SkylineSegment.width].
  rewrite !segment_eqb_refl.
  destruct uwm; cbn; repeat zstep; reflexivity.
Qed.

Lemma spanned_one w seg :
  0 < w -> w <= width seg -> Spec.spanned w [seg] = Some [seg].
Proof.
  intros Hw Hle. rewrite spanned_cons by assumption.
  rewrite spanned_done by lia. reflexivity.
Qed.

Lemma spanned_one_inv w seg sp :
  0 < w -> Spec.spanned w [seg] = Some sp -> sp = [seg].
Proof.
  intros Hw H. rewrite spanned_cons in H by assumption.
  unfold Spec.spanned in H. simpl in H.
  destruct (w - width seg <=? 0); inversion H. reflexivity.
Qed.

(** On the one-segment skyline of a W x H bin the W x H item fits at
    (0, 0); clipping leaves no segment, none is added, and the merge
    indexes the first element of an empty list. *)
Lemma place_full_size (self : Skyline.t G) (item : Item.t) W H :
  0 < W -> 0 < H ->
  Skyline.width self = W -> Skyline.height self = H ->
  Skyline.skyline self = [SkylineSegment.mk 0 0 W] ->
  Item.width item = W -> Item.height item = H ->
  exists st, Skyline._place self item = Raises IndexError st
             /\ Skyline.skyline (fst st) = []
             /\ Skyline.items (fst st) = Skyline.items self ++ [snd st].
Proof.
  intros HW HH Hw Hh Hsky Hiw Hih.
  destruct (find_best_score_spec self item) as ((r & Hr) & Hnone & Hsome).
  unfold Skyline._place. rewrite Hr.
  destruct r as [[[[sc seg] rot] y0]|].
  - destruct (Hsome _ _ _ _ Hr) as ((i & Hfit) & _).
    assert (Htw : 0 < turned_width item rot)
      by (unfold turned_width; destruct rot; lia).
    destruct Hfit as (Hi & _ & Hcf & _).
    destruct (check_fit_some self _ (turned_height item rot) i seg y0 Hi Htw Hcf)
      as (sp & Hsp & Hmax & Hx & Hy).
    rewrite Hsky in Hi, Hsp.
    destruct i as [|i]; [|destruct i; discriminate].
    inversion Hi; subst seg. cbn [skipn] in Hsp.
    apply spanned_one_inv in Hsp; [|exact Htw]. subst sp.
    cbn in Hmax. inversion Hmax; subst y0. cbn [x] in *.
    change (Item.set_xy (if rot then Item.rotate item else item) 0 0)
      with (placed item rot 0 0).
    destruct (placed_fields item rot 0 0) as (Pw & Ph & Px & Py).
    assert (Hdims : turned_width item rot = W /\ turned_height item rot = H).
    { unfold turned_width, turned_height in *. destruct rot; lia. }
    destruct Hdims as (Dw & Dh).
    rewrite (update_segment_full
               (Skyline.record_item self (placed item rot 0 0))
               (placed item rot 0 0) W H); auto; try congruence.
    eexists. split; [reflexivity|]. split; reflexivity.
  - exfalso.
    assert (Hi : nth_error (Skyline.skyline self) O = Some (SkylineSegment.mk 0 0 W))
      by (rewrite Hsky; reflexivity).
    pose proof (call_score_total (Skyline._score self) (Skyline.skyline self)
                  item 0 O false _ Hi) as Hsc.
    refine (proj1 Hnone Hr O false (SkylineSegment.mk 0 0 W) 0 _ _).
    split; [exact Hi|]. split; [discriminate|]. split; [|exact Hsc].
    unfold turned_width, turned_height.
    rewrite (check_fit_eq self _ _ O _ Hi) by lia.
    rewrite Hsky. cbn [skipn]. rewrite spanned_one by (cbn; lia).
    cbn [Spec.max_y fold_left x y]. rewrite Hw, Hh, Hiw, Hih.
    repeat zstep. reflexivity.
Qed.

(** C8: an item as wide and as high as the bin, inserted into a freshly
    constructed engine (wastemap on, the wastemap placing nothing),
    makes insert raise IndexError: the item is recorded, clipping
    removes the only segment, no segment is added on top, and
    _merge_segments indexes the empty skyline. *)
Theorem full_size_item_raises W H rot heur (self : Skyline.t G)
    (item : Item.t) (hz : option string) :
  0 < W -> 0 < H ->
  Skyline.__init__ W H rot true heur = Ok self ->
  Item.width item = W -> Item.height item = H ->
  wastemap_declines self item ->
  exists st,
    Skyline.insert self item hz = Raises IndexError st
    /\ Skyline.skyline (fst st) = []
    /\ Skyline.items (fst st) = [snd st].
Proof.
  intros HW HH Hinit Hiw Hih (wm & Hwm & Hdecl).
  destruct (init_shape _ _ _ _ _ _ Hinit) as (Hw & Hh & Hsky & Hits & _).
  unfold Skyline.insert. rewrite Hwm.
  assert (Hplace : forall wm0,
    exists st,
      Skyline._place (Skyline.set_wastemap self wm0) item = Raises IndexError st
      /\ Skyline.skyline (fst st) = [] /\ Skyline.items (fst st) = [snd st]).
  { intros wm0.
    destruct (place_full_size (Skyline.set_wastemap self wm0) item W H)
      as (st & A & B & C); auto;
      try (destruct self; cbn in *; congruence).
    exists st. split; [exact A|]. split; [exact B|].
    rewrite C. destruct self; cbn in *. subst. reflexivity. }
  destruct Hdecl as [Hfalse|(wm' & Hins)].
  - rewrite Hfalse. specialize (Hplace (Skyline.wastemap self)).
    rewrite set_wastemap_same in Hplace. exact Hplace.
  - destruct (Guillotine_bool wm).
    + rewrite Hins. apply Hplace.
    + specialize (Hplace (Skyline.wastemap self)).
      rewrite set_wastemap_same in Hplace. exact Hplace.
Qed.

End FullSizeItem.

Lemma full_size_item_raises_witness :
  exists st,
    Skyline.insert (fresh_skyline 10 10 true) (new_item 10 10) None
    = Raises IndexError st
    /\ Skyline.skyline (fst st) = []
    /\ Skyline.items (fst st) = [snd st].
Proof.
  apply (full_size_item_raises 10 10 true "bottom_left").
  - lia.
  - lia.
  - reflexivity.
  - reflexivity.
  - reflexivity.
  - exists (fresh_wastemap true). split; [reflexivity|].
    right. exists (fresh_wastemap true). reflexivity.
Defined.

(** ** The engine with the Guillotine wastemap of the spec *)

Lemma Guillotine_declined_item_kept : declined_item_kept Guillotine.t.
Proof.
  intros g g' item item' h H. cbn in H. unfold Guillotine.insert in H.
  destruct (Guillotine.best g item) as [[[sc i] rot]|].
  - destruct (nth_error (Guillotine.freerects g) i); inversion H; reflexivity.
  - inversion H. reflexivity.
Qed.

Lemma insert_keeps_skyline_witness :
  sorted_by_x (Skyline.skyline skyline_after_4x3)
  /\ apart 0 (Skyline.skyline skyline_after_4x3)
  /\ within 10 (Skyline.skyline skyline_after_4x3)
  /\ no_equal_touching (Skyline.skyline skyline_after_4x3)
  /\ (tiles 0 10 (Skyline.skyline (fresh_skyline 10 10 true)) ->
      Item.y item_after_4x3 + Item.height item_after_4x3 < 10 ->
      tiles 0 10 (Skyline.skyline skyline_after_4x3)
      /\ no_equal_neighbours (Skyline.skyline skyline_after_4x3)).
Proof.
  apply (insert_keeps_skyline 10 10 (fresh_skyline 10 10 true) skyline_after_4x3
           (new_item 4 3) item_after_4x3 None).
  - exact Guillotine_declined_item_kept.
  - lia.
  - apply (reachable_init 10 10 true true "bottom_left"). reflexivity.
  - simpl. lia.
  - simpl. lia.
  - reflexivity.
Defined.

(** C1 as stated fails: with rotation off, a 5 x 10 item inserted into
    the fresh engine of a 10 x 10 bin is placed at (0, 0), insert
    returns True, and the skyline left is the single segment (5, 0, 5),
    which does not tile [0, 10]. *)
Lemma insert_leaves_gap :
  exists self' item',
    Skyline.insert (fresh_skyline 10 10 false) (new_item 5 10) None
    = Returns true (self', item')
    /\ Skyline.skyline self' = [SkylineSegment.mk 5 0 5]
    /\ ~ tiles 0 10 (Skyline.skyline self').
Proof.
  eexists. eexists. split; [vm_compute; reflexivity|].
  split; [reflexivity|]. simpl. intros (H & _). discriminate H.
Qed.

(** ** No fit *)

Section NoFit.

Context {G : Type} {GA : GuillotineAPI G}.

Lemma fitting_set_wastemap (self : Skyline.t G) wm item i rot sg y0 sc :
  fitting (Skyline.set_wastemap self wm) item i rot sg y0 sc
  <-> fitting self item i rot sg y0 sc.
Proof. destruct self; reflexivity. Qed.

(** On an engine that has its wastemap: when the wastemap places
    nothing and no (segment, orientation) pair fits, insert returns
    False and the items, the free area and the skyline are as before. *)
Lemma insert_no_fit (self : Skyline.t G) (item : Item.t) (hz : option string) :
  wastemap_declines self item ->
  (forall i rot sg y0 sc, ~ fitting self item i rot sg y0 sc) ->
  exists self',
    Skyline.insert self item hz = Returns false (self', item)
    /\ Skyline.items self' = Skyline.items self
    /\ Skyline.free_area self' = Skyline.free_area self
    /\ Skyline.skyline self' = Skyline.skyline self.
Proof.
  intros (wm & Hwm & Hdecl) Hno.
  assert (Hplace : forall wm0,
    Skyline._place (Skyline.set_wastemap self wm0) item
    = Returns false (Skyline.set_wastemap self wm0, item)).
  { intros wm0.
    destruct (find_best_score_spec (Skyline.set_wastemap self wm0) item)
      as (_ & Hnone & _).
    unfold Skyline._place. rewrite (proj2 Hnone); [reflexivity|].
    intros i rot sg y0 sc Hf. apply fitting_set_wastemap in Hf.
    exact (Hno _ _ _ _ _ Hf). }
  unfold Skyline.insert. rewrite Hwm.
  destruct Hdecl as [Hfalse|(wm' & Hins)].
  - rewrite Hfalse. specialize (Hplace (Skyline.wastemap self)).
    rewrite set_wastemap_same in Hplace. rewrite Hplace. eauto.
  - destruct (Guillotine_bool wm).
    + rewrite Hins, Hplace. eexists. split; [reflexivity|].
      destruct self; repeat split; reflexivity.
    + specialize (Hplace (Skyline.wastemap self)).
      rewrite set_wastemap_same in Hplace. rewrite Hplace. eauto.
Qed.

End NoFit.

(** C3 (what the code does): on the engine constructed with
    wastemap = False an 11 x 11 item fits no segment of the 10 x 10 bin
    in either orientation and there is no wastemap to place it, yet
    insert does not return False: it raises AttributeError. *)
Theorem insert_no_fit_without_wastemap :
  (forall i rot sg y0 sc,
      ~ fitting (bare_skyline 10 10 true) (new_item 11 11) i rot sg y0 sc)
  /\ Skyline.insert (bare_skyline 10 10 true) (new_item 11 11) None
     = Raises (AttributeError "wastemap")
              (bare_skyline 10 10 true, new_item 11 11).
Proof.
  split; [|reflexivity].
  destruct (find_best_score_spec (bare_skyline 10 10 true) (new_item 11 11))
    as (_ & Hnone & _).
  apply Hnone. reflexivity.
Qed.

(** ** The bin manager *)

Section Manager.

Context {G Sh MR F : Type}.
Context {GA : GuillotineAPI G} {SA : SheetAPI Sh}
        {MA : MaximalRectangleAPI MR} {FA : FloatAPI F}.

Abbreviation manager := (BinManager.t G Sh MR).
Abbreviation bin := (BinManager.Bin G Sh MR).

Lemma replace_nth_length {A} (l : list A) i a :
  List.length (replace_nth l i a) = List.length l.
Proof.
  revert i. induction l as [|e l IH]; intros [|i]; simpl; auto.
Qed.

Lemma first_fit_loop_length h (bs : list bin) item :
  List.length (fst (state_of (BinManager._first_fit_loop h bs item)))
  = List.length bs.
Proof.
  revert item. induction bs as [|b bs IH]; intros item; simpl; [reflexivity|].
  destruct (BinManager.Bin_insert b item (Some h)) as [[|] [b' it']|e [b' it']];
    simpl; try reflexivity.
  specialize (IH it').
  destruct (BinManager._first_fit_loop h bs it') as [r [bs' it'']|e [bs' it'']];
    simpl in *; rewrite IH; reflexivity.
Qed.




Lemma bin_first_fit_bins (m : manager) item :
  (List.length (BinManager.bins m)
   <= List.length (BinManager.bins (fst (state_of (BinManager._bin_first_fit m item)))))%nat.
Proof.
  unfold BinManager._bin_first_fit.
  pose proof (first_fit_loop_length (BinManager.heuristic m) (BinManager.bins m) item)
    as Hlen.
  destruct (BinManager._first_fit_loop _ _ _) as [r [bs it]|e [bs it]];
    simpl in Hlen; [|simpl; lia].
  destruct r; simpl; [lia|].
  destruct (BinManager._bin_factory _); [|simpl; lia].
  destruct (BinManager.Bin_insert _ _ _) as [r [nb it']|e [nb it']];
    simpl; rewrite length_app; simpl; lia.
Qed.

Lemma bin_best_fit_bins (m : manager) item :
  (List.length (BinManager.bins m)
   <= List.length (BinManager.bins (fst (state_of (BinManager._bin_best_fit m item)))))%nat.
Proof.
  unfold BinManager._bin_best_fit.
  destruct (negb _); [simpl; lia|].
  destruct (BinManager._collect_scores _ _ _) as [[|c cs]|e]; [| |simpl; lia].
  - destruct (BinManager._bin_factory m); [|simpl; lia].
    destruct (BinManager.Bin_insert _ _ _) as [r [nb it']|e [nb it']];
      simpl; [rewrite length_app; simpl|]; lia.
  - destruct (BinManager.min_score c cs) as [[s k]|e]; [|simpl; lia].
    destruct (getitem _ k); [|simpl; lia].
    destruct (BinManager.Bin_insert _ _ _) as [r [nb it']|e [nb it']];
      simpl; rewrite replace_nth_length; lia.
Qed.

Lemma call_sel_algo_bins a (m : manager) item :
  (List.length (BinManager.bins m)
   <= List.length (BinManager.bins (fst (state_of (BinManager.call_sel_algo a m item)))))%nat.
Proof.
  destruct a; simpl.
  - pose proof (bin_best_fit_bins m item) as H.
    destruct (BinManager._bin_best_fit m item); exact H.
  - apply bin_first_fit_bins.
Qed.

Lemma execute_loop_bins : forall todo (m : manager) i,
  (List.length (BinManager.bins m)
   <= List.length (BinManager.bins (state_of (BinManager._execute_loop m i todo))))%nat.
Proof.
  induction todo as [|item todo IH]; intros m i; simpl; [lia|].
  destruct (BinManager.bin_sel_algo m) as [a|]; [|simpl; lia].
  pose proof (call_sel_algo_bins a m item) as H.
  destruct (BinManager.call_sel_algo a m item) as [r [m' it]|e [m' it]];
    simpl in H |- *; [|lia].
  specialize (IH (BinManager.set_items m' (replace_nth (BinManager.items m') i it))
                 (S i)).
  simpl in IH. lia.
Qed.




End Manager.


(** ** Which exceptions the skyline engine raises *)

Section Quiet.

Context {G : Type} {GA : GuillotineAPI G}.










End Quiet.

(** ** Bin best fit *)

Section BestFit.

Context {G Sh MR : Type}.
Context {GA : GuillotineAPI G} {SA : SheetAPI Sh} {MA : MaximalRectangleAPI MR}.

Abbreviation manager' := (BinManager.t G Sh MR).
Abbreviation bin' := (BinManager.Bin G Sh MR).






(** The scores collected are those of the bins that report one, each
    with the position of its bin. *)
Lemma collect_scores_spec : forall (bs : list bin') item i0 scores,
  BinManager._collect_scores bs item i0 = Ok scores ->
  (forall s k,
      In (s, k) scores
      <-> (i0 <= k)%nat
          /\ exists b, nth_error bs (k - i0) = Some b
                       /\ BinManager.Bin_best_score b item = Ok (Some s))
  /\ (scores = [] ->
      forall b, In b bs -> BinManager.Bin_best_score b item = Ok None).
Proof.
  induction bs as [|b bs IH]; intros item i0 scores; simpl.
  - intros H. inversion H; subst. split.
    + intros s k. split; [intros []|].
      intros (_ & b & Hb & _). destruct (k - i0)%nat; discriminate.
    + intros _ b [].
  - unfold bind_result.
    destruct (BinManager.Bin_best_score b item) as [o|] eqn:Eb; [|discriminate].
    destruct (BinManager._collect_scores bs item (S i0)) as [others|] eqn:Ec;
      [|discriminate].
    destruct (IH _ _ _ Ec) as (Hin & Hnil).
    intros H. inversion H; subst scores. clear H. split.
    + intros s k.
      assert (Hrest : In (s, k) others
                      <-> (i0 <= k)%nat
                          /\ (k <> i0)
                          /\ exists b0, nth_error (b :: bs) (k - i0) = Some b0
                               /\ BinManager.Bin_best_score b0 item = Ok (Some s)).
      { rewrite Hin. split.
        - intros (Hle & b0 & Hn & Hs). split; [lia|]. split; [lia|].
          exists b0. split; [|exact Hs].
          replace (k - i0)%nat with (S (k - S i0)) by lia. exact Hn.
        - intros (Hle & Hne & b0 & Hn & Hs). split; [lia|].
          exists b0. split; [|exact Hs].
          replace (k - i0)%nat with (S (k - S i0)) in Hn by lia. exact Hn. }
      destruct o as [sc|].
      * simpl. rewrite Hrest. split.
        -- intros [Heq|(Hle & Hne & Hex)].
           ++ inversion Heq; subst. split; [lia|]. exists b.
              rewrite Nat.sub_diag. split; [reflexivity|exact Eb].
           ++ split; [exact Hle|exact Hex].
        -- intros (Hle & b0 & Hn & Hs).
           destruct (Nat.eq_dec k i0) as [->|Hne].
           ++ left. rewrite Nat.sub_diag in Hn. inversion Hn; subst b0.
              rewrite Eb in Hs. inversion Hs. reflexivity.
           ++ right. split; [exact Hle|]. split; [exact Hne|]. eauto.
      * rewrite Hrest. split.
        -- intros (Hle & Hne & Hex). split; [exact Hle|exact Hex].
        -- intros (Hle & b0 & Hn & Hs).
           destruct (Nat.eq_dec k i0) as [->|Hne].
           ++ rewrite Nat.sub_diag in Hn. inversion Hn; subst b0.
              rewrite Eb in Hs. discriminate.
           ++ split; [exact Hle|]. split; [exact Hne|]. eauto.
    + destruct o as [sc|]; [discriminate|].
      intros -> b0 [<-|Hb0]; [exact Eb|]. apply Hnil; auto.
Qed.

Lemma score_lt_refl a : score_lt a a = Ok false.
Proof.
  destruct a; simpl; rewrite ?Z.ltb_irrefl; [reflexivity|].
  rewrite Bool.andb_false_r. reflexivity.
Qed.

Lemma score_lt_step_new c best r :
  score_lt c best = Ok true -> score_lt c r = Ok false ->
  score_lt best r = Ok false.
Proof.
  destruct c, best, r; simpl; try discriminate;
    intros H1 H2; inversion H1 as [E1]; inversion H2 as [E2]; clear H1 H2;
    f_equal; revert E1 E2; repeat zstep; intros; try discriminate; reflexivity.
Qed.

Lemma score_lt_step_old c best r :
  score_lt c best = Ok false -> score_lt best r = Ok false ->
  score_lt c r = Ok false.
Proof.
  destruct c, best, r; simpl; try discriminate;
    intros H1 H2; inversion H1 as [E1]; inversion H2 as [E2]; clear H1 H2;
    f_equal; revert E1 E2; repeat zstep; intros; try discriminate; reflexivity.
Qed.

(** The minimum the manager takes: one of the scores, and none is
    lower. *)
Lemma min_score_spec : forall l best r,
  BinManager.min_score best l = Ok r ->
  In r (best :: l)
  /\ forall c, In c (best :: l) -> score_lt (fst c) (fst r) = Ok false.
Proof.
  induction l as [|c l IH]; intros best r; simpl.
  - intros H. inversion H; subst. split; [auto|].
    intros c [<-|[]]. apply score_lt_refl.
  - unfold bind_result.
    destruct (score_lt (fst c) (fst best)) as [lt|] eqn:El; [|discriminate].
    intros H. destruct (IH _ _ H) as (Hin & Hmin). split.
    + destruct Hin as [Hin|Hin]; [|auto].
      rewrite <- Hin. destruct lt; auto.
    + intros d [<-|[<-|Hd]].
      * destruct lt.
        -- eapply score_lt_step_new; [exact El|]. apply Hmin. left. reflexivity.
        -- apply Hmin. left. reflexivity.
      * destruct lt.
        -- apply Hmin. left. reflexivity.
        -- eapply score_lt_step_old; [exact El|]. apply Hmin. left. reflexivity.
      * apply Hmin. right. exact Hd.
Qed.






End BestFit.

(** ** The manager with skyline bins *)



(** C4 (what the code does): with the first-fit policy an 11 x 1 item,
    which fits a 10 x 10 bin in no orientation, is refused by the
    existing bin and by the bin opened for it, and _bin_first_fit
    returns without raising: the manager is left with two empty bins
    and the item is in neither.  The best-fit policy raises the input
    error on the same item. *)
Theorem first_fit_drops_oversized_item :
  ~ fits_some_orientation (example_manager "bin_first_fit") (new_item 11 1)
  /\ BinManager._bin_first_fit (example_manager "bin_first_fit") (new_item 11 1)
     = Returns tt
         (BinManager.set_bins (example_manager "bin_first_fit")
            [BinManager.SkylineBin (fresh_skyline 10 10 true);
             BinManager.SkylineBin (fresh_skyline 10 10 true)],
          new_item 11 1)
  /\ BinManager._bin_best_fit (example_manager "bin_best_fit") (new_item 11 1)
     = Raises input_error (example_manager "bin_best_fit", new_item 11 1).
Proof.
  split; [|split].
  - unfold fits_some_orientation. cbn. lia.
  - vm_compute. reflexivity.
  - vm_compute. reflexivity.
Qed.

(** ** The free area *)

Section FreeArea.

Context {G : Type} {GA : GuillotineAPI G}.

Lemma items_area_app l1 l2 : items_area (l1 ++ l2) = items_area l1 + items_area l2.
Proof. induction l1 as [|i l1 IH]; simpl; [reflexivity|]. rewrite IH. lia. Qed.

Lemma accounted_record (self : Skyline.t G) item :
  accounted self -> accounted (Skyline.record_item self item).
Proof.
  unfold accounted. destruct self; cbn. intros ->.
  rewrite items_area_app. cbn. lia.
Qed.

Lemma accounted_set_wastemap (self : Skyline.t G) wm :
  accounted self -> accounted (Skyline.set_wastemap self wm).
Proof. destruct self; exact (fun H => H). Qed.

Lemma accounted_set_skyline (self : Skyline.t G) l :
  accounted self -> accounted (Skyline.set_skyline self l).
Proof. destruct self; exact (fun H => H). Qed.

Lemma update_segment_frame (self : Skyline.t G) seg y0 item :
  exists wm,
    state_of (Skyline._update_segment self seg y0 item)
    = Skyline.set_wastemap self wm.
Proof.
  unfold Skyline._update_segment.
  assert (Hdon :
    exists wm,
      state_of (if Skyline.use_waste_map self
                then match SortedList.index (Skyline.skyline self) seg with
                     | Ok seg_i => Skyline._add_to_wastemap self seg_i item y0
                     | Err e => Raises e self
                     end
                else Returns tt self)
      = Skyline.set_wastemap self wm).
  { destruct (Skyline.use_waste_map self).
    - destruct (SortedList.index (Skyline.skyline self) seg).
      + apply add_to_wastemap_frame.
      + exists (Skyline.wastemap self). simpl. rewrite set_wastemap_same. reflexivity.
    - exists (Skyline.wastemap self). simpl. rewrite set_wastemap_same. reflexivity. }
  destruct Hdon as (wm & Hdon). exists wm.
  destruct (if Skyline.use_waste_map self then _ else _) as [[] self'|e self'];
    simpl in Hdon; subst self'; [|reflexivity].
  destruct (_ <? _); reflexivity.
Qed.

Lemma merge_segments_frame (self : Skyline.t G) :
  exists l, state_of (Skyline._merge_segments self) = Skyline.set_skyline self l.
Proof.
  unfold Skyline._merge_segments.
  destruct (Skyline.skyline self) as [|first rest] eqn:E.
  - exists []. simpl. destruct self; cbn in *; subst; reflexivity.
  - destruct (Skyline._merge_loop rest [first]) as [ns|e]; simpl; [eauto|].
    exists (first :: rest). destruct self; cbn in *; subst; reflexivity.
Qed.

Lemma place_accounted (self : Skyline.t G) item :
  accounted self -> accounted (fst (state_of (Skyline._place self item))).
Proof.
  intros Hacc. unfold Skyline._place.
  destruct (Skyline._find_best_score self item) as [[[[[sc seg] rot] y0]|]|e];
    [|exact Hacc|exact Hacc].
  set (item2 := Item.set_xy (if rot then Item.rotate item else item)
                  (SkylineSegment.x seg) y0).
  destruct (update_segment_frame (Skyline.record_item self item2) seg y0 item2)
    as (wm & Hup).
  destruct (Skyline._update_segment _ _ _ _) as [segs self2|e self2];
    simpl in Hup; subst self2.
  - destruct (merge_segments_frame
                (Skyline.set_skyline
                   (Skyline.set_wastemap (Skyline.record_item self item2) wm) segs))
      as (l & Hm).
    destruct (Skyline._merge_segments _) as [[] self3|e self3];
      simpl in Hm; subst self3; cbn [state_of fst];
      repeat apply accounted_set_skyline; apply accounted_set_wastemap;
      apply accounted_record; exact Hacc.
  - cbn [state_of fst]. apply accounted_set_wastemap, accounted_record. exact Hacc.
Qed.

Lemma insert_accounted (self : Skyline.t G) item hz :
  accounted self -> accounted (fst (state_of (Skyline.insert self item hz))).
Proof.
  intros Hacc. unfold Skyline.insert.
  destruct (Skyline.wastemap self) as [wm|]; [|exact Hacc].
  destruct (Guillotine_bool wm); [|apply place_accounted; exact Hacc].
  destruct (Guillotine_insert wm item (Some "best_area"))
    as [[|] [wm' it']|e [wm' it']].
  - cbn [state_of fst]. apply accounted_record, accounted_set_wastemap. exact Hacc.
  - apply place_accounted, accounted_set_wastemap. exact Hacc.
  - cbn [state_of fst]. apply accounted_set_wastemap. exact Hacc.
Qed.

(** In every state of an engine the free area is the area of the bin
    less the areas of the items recorded, whatever the wastemap does
    and also after a call of insert that raised. *)
Theorem free_area_accounted W H (self : Skyline.t G) :
  reachable W H self ->
  Skyline.area self = W * H
  /\ Skyline.free_area self = W * H - items_area (Skyline.items self).
Proof.
  intros Hr.
  assert (Hboth : Skyline.area self = W * H /\ accounted self).
  { induction Hr as [rot wm heur self Hinit|self item hz Hr IH Hiw Hih].
    - destruct (init_shape _ _ _ _ _ _ Hinit) as (_ & _ & _ & Hi & Ha & Hf & _).
      split; [exact Ha|]. unfold accounted. rewrite Hi, Ha, Hf. cbn. lia.
    - destruct IH as (Ha & Hacc). split; [|apply insert_accounted; exact Hacc].
      clear - Ha. unfold Skyline.insert.
      assert (Hp : forall (s0 : Skyline.t G) it,
                 Skyline.area (fst (state_of (Skyline._place s0 it)))
                 = Skyline.area s0).
      { intros s0 it. unfold Skyline._place.
        destruct (Skyline._find_best_score s0 it) as [[[[[sc seg] rot] y0]|]|e];
          try reflexivity.
        set (item2 := Item.set_xy (if rot then Item.rotate it else it)
                        (SkylineSegment.x seg) y0).
        destruct (update_segment_frame (Skyline.record_item s0 item2) seg y0 item2)
          as (wm & Hup).
        destruct (Skyline._update_segment _ _ _ _) as [segs self2|e self2];
          simpl in Hup; subst self2; [|reflexivity].
        destruct (merge_segments_frame
                    (Skyline.set_skyline
                       (Skyline.set_wastemap (Skyline.record_item s0 item2) wm) segs))
          as (l & Hm).
        destruct (Skyline._merge_segments _) as [[] self3|e self3];
          simpl in Hm; subst self3; reflexivity. }
      destruct (Skyline.wastemap self) as [wm|]; [|exact Ha].
      destruct (Guillotine_bool wm); [|cbv iota; rewrite Hp; exact Ha].
      destruct (Guillotine_insert wm item (Some "best_area"))
        as [[|] [wm' it']|e [wm' it']]; try exact Ha.
      cbv iota. rewrite Hp. exact Ha. }
  destruct Hboth as (Ha & Hacc). split; [exact Ha|].
  unfold accounted in Hacc. rewrite Hacc, Ha. reflexivity.
Qed.

End FreeArea.

Lemma free_area_accounted_witness :
  Skyline.area skyline_after_4x3 = 10 * 10
  /\ Skyline.free_area skyline_after_4x3
     = 10 * 10 - items_area (Skyline.items skyline_after_4x3).
Proof.
  apply (free_area_accounted 10 10 skyline_after_4x3).
  change (reachable 10 10
            (fst (state_of (Skyline.insert (fresh_skyline 10 10 true)
                              (new_item 4 3) None)))).
  apply (reachable_insert 10 10 (fresh_skyline 10 10 true) (new_item 4 3) None).
  - apply (reachable_init 10 10 true true "bottom_left"). reflexivity.
  - simpl. lia.
  - simpl. lia.
Defined.

Lemma insert_no_fit_witness :
  exists self',
    Skyline.insert (fresh_skyline 10 10 true) (new_item 11 11) None
    = Returns false (self', new_item 11 11)
    /\ Skyline.items self' = Skyline.items (fresh_skyline 10 10 true)
    /\ Skyline.free_area self' = Skyline.free_area (fresh_skyline 10 10 true)
    /\ Skyline.skyline self' = Skyline.skyline (fresh_skyline 10 10 true).
Proof.
  apply (insert_no_fit (fresh_skyline 10 10 true) (new_item 11 11) None).
  - exists (fresh_wastemap true). split; [reflexivity|].
    right. exists (fresh_wastemap true). reflexivity.
  - destruct (find_best_score_spec (fresh_skyline 10 10 true) (new_item 11 11))
      as (_ & Hnone & _).
    apply Hnone. reflexivity.
Defined.

(** ** Bin first fit *)

Section FirstFit.

Context {G Sh MR : Type}.
Context {GA : GuillotineAPI G} {SA : SheetAPI Sh} {MA : MaximalRectangleAPI MR}.

Lemma first_fit_loop_spec h : forall (bs : list (BinManager.Bin G Sh MR)) item,
  match BinManager._first_fit_loop h bs item with
  | Returns true (bs', item') =>
      exists pre b post pre' b' item1,
        bs = pre ++ b :: post
        /\ refused h pre item pre' item1
        /\ BinManager.Bin_insert b item1 (Some h) = Returns true (b', item')
        /\ bs' = pre' ++ b' :: post
  | Returns false (bs', item') => refused h bs item bs' item'
  | Raises _ _ => True
  end.
Proof.
  induction bs as [|b bs IH]; intros item; simpl; [constructor|].
  destruct (BinManager.Bin_insert b item (Some h))
    as [[|] [b' item1]|e [b' item1]] eqn:Eb; [| |exact I].
  - exists [], b, bs, [], b', item. repeat split; auto. constructor.
  - specialize (IH item1).
    destruct (BinManager._first_fit_loop h bs item1)
      as [[|] [bs' item2]|e [bs' item2]]; [| |exact I].
    + destruct IH as (pre & b0 & post & pre' & b0' & it & -> & Hr & Hi & ->).
      exists (b :: pre), b0, post, (b' :: pre'), b0', it.
      repeat split; auto. econstructor; eauto.
    + econstructor; eauto.
Qed.

(** When _bin_first_fit returns, either the item went into the first
    existing bin whose insert returned True, every bin before it having
    reported no fit and the bins after it not having been tried, or
    every existing bin reported no fit, exactly one bin built by
    _bin_factory was appended and insert was called on it, whatever
    that call returned. *)
Theorem bin_first_fit_spec (m : BinManager.t G Sh MR) (item : Item.t) :
  match BinManager._bin_first_fit m item with
  | Returns _ (m', item') =>
      (exists pre b post pre' b' item1,
          BinManager.bins m = pre ++ b :: post
          /\ refused (BinManager.heuristic m) pre item pre' item1
          /\ BinManager.Bin_insert b item1 (Some (BinManager.heuristic m))
             = Returns true (b', item')
          /\ BinManager.bins m' = pre' ++ b' :: post)
      \/ (exists bs' item1 new_bin r new_bin',
             refused (BinManager.heuristic m) (BinManager.bins m) item bs' item1
             /\ BinManager._bin_factory m = Ok new_bin
             /\ BinManager.Bin_insert new_bin item1 (Some (BinManager.heuristic m))
                = Returns r (new_bin', item')
             /\ BinManager.bins m' = bs' ++ [new_bin'])
  | Raises _ _ => True
  end.
Proof.
  unfold BinManager._bin_first_fit.
  pose proof (first_fit_loop_spec (BinManager.heuristic m) (BinManager.bins m) item)
    as Hloop.
  destruct (BinManager._first_fit_loop _ _ _) as [[|] [bs' item1]|e [bs' item1]];
    cbn [negb]; [| |exact I].
  - left. destruct Hloop as (pre & b & post & pre' & b' & it & A & B & C & D).
    exists pre, b, post, pre', b', it. repeat split; auto.
  - change (BinManager._bin_factory (BinManager.set_bins m bs'))
      with (BinManager._bin_factory m).
    destruct (BinManager._bin_factory m) as [nb|e] eqn:Ef; [|exact I].
    change (BinManager.heuristic (BinManager.set_bins m bs'))
      with (BinManager.heuristic m).
    destruct (BinManager.Bin_insert nb item1 (Some (BinManager.heuristic m)))
      as [r [nb' item2]|e [nb' item2]] eqn:Ei; [|exact I].
    right. exists bs', item1, nb, r, nb'. repeat split; auto.
Qed.

End FirstFit.

(** * Further facts *)

(** ** A smaller item fits where a larger one does *)

Section FitMonotone.

Import SkylineSegment.

Lemma max_over_app a b y0 : max_over (a ++ b) y0 = max_over b (max_over a y0).
Proof. unfold max_over. apply fold_left_app. Qed.

Lemma max_over_upper sp : forall y0,
  Forall (fun s => y s <= max_over sp y0) sp.
Proof.
  induction sp as [|s sp IH]; intros y0; constructor.
  - change (max_over (s :: sp) y0) with (max_over sp (Z.max y0 (y s))).
    pose proof (max_over_ge sp (Z.max y0 (y s))). lia.
  - apply (IH (Z.max y0 (y s))).
Qed.

Lemma max_y_upper sp y0 :
  Spec.max_y sp = Some y0 -> Forall (fun s => y s <= y0) sp.
Proof.
  destruct sp as [|s sp]; [discriminate|]. cbn. intros H. inversion H; subst.
  constructor.
  - apply (max_over_ge sp (y s)).
  - apply (max_over_upper sp (y s)).
Qed.

Lemma spanned_prefix : forall segs w w' sp,
  0 < w' -> w' <= w -> Spec.spanned w segs = Some sp ->
  exists s sp' rest, Spec.spanned w' segs = Some (s :: sp') /\ sp = s :: sp' ++ rest.
Proof.
  induction segs as [|s segs IH]; intros w w' sp Hw' Hle Hsp.
  - unfold Spec.spanned in Hsp. cbn in Hsp.
    destruct (Z.leb_spec w 0); [lia|discriminate].
  - rewrite spanned_cons in Hsp by lia.
    destruct (Spec.spanned (w - width s) segs) as [sp1|] eqn:E; [|discriminate].
    inversion Hsp; subst sp. rewrite spanned_cons by lia.
    destruct (Z.leb_spec (w' - width s) 0) as [Hd|Hd].
    + rewrite spanned_done by lia. exists s, [], sp1. split; reflexivity.
    + assert (Hle' : w' - width s <= w - width s) by lia.
      destruct (IH _ (w' - width s) _ Hd Hle' E) as (s1 & sp' & rest & E' & ->).
      rewrite E'. exists s, (s1 :: sp'), rest. split; reflexivity.
Qed.

Context {G : Type} {GA : GuillotineAPI G}.

(** X19: where _check_fit admits an item of width w and height h on
    the segment i, it admits on the same segment every item of positive
    width that is no wider and no higher, at a y that is not greater. *)
Theorem check_fit_smaller (self : Skyline.t G) (w h w' h' : Z) (i : nat)
    (seg : SkylineSegment.t) (y0 : Z) :
  nth_error (Skyline.skyline self) i = Some seg ->
  0 < w' -> w' <= w -> h' <= h ->
  Skyline._check_fit self w h i = Ok (Some y0) ->
  exists y1, Skyline._check_fit self w' h' i = Ok (Some y1) /\ y1 <= y0.
Proof.
  intros Hi Hw' Hle Hh Hfit.
  assert (Hw : 0 < w) by lia.
  destruct (check_fit_some self w h i seg y0 Hi Hw Hfit)
    as (sp & Hsp & Hmax & Hx & Hy).
  destruct (spanned_prefix _ _ _ _ Hw' Hle Hsp) as (s & sp' & rest & Hsp' & ->).
  rewrite (check_fit_eq self w' h' i seg Hi Hw'), Hsp'.
  cbn [Spec.max_y] in *. inversion Hmax as [Hm].
  change (fold_left (fun m e => Z.max m (y e)) (sp' ++ rest) (y s))
    with (max_over (sp' ++ rest) (y s)) in *.
  change (fold_left (fun m e => Z.max m (y e)) sp' (y s))
    with (max_over sp' (y s)).
  rewrite max_over_app in *.
  pose proof (max_over_ge rest (max_over sp' (y s))) as Hge.
  exists (max_over sp' (y s)). split; [|lia].
  destruct (Z.leb_spec (x seg + w') (Skyline.width self)); [|lia].
  destruct (Z.leb_spec (max_over sp' (y s) + h') (Skyline.height self)); [|lia].
  reflexivity.
Qed.

(** ** The item rests on or above the skyline *)

Lemma apart_firstn : forall l lo i seg,
  apart lo l -> nth_error l i = Some seg ->
  Forall (fun s => x s + width s <= x seg) (firstn i l).
Proof.
  induction l as [|s l IH]; intros lo i seg Hap Hi.
  - destruct i; discriminate.
  - destruct i as [|i]; [constructor|].
    cbn [firstn nth_error] in *. destruct Hap as (H1 & H2 & H3).
    constructor.
    + pose proof (apart_skipn _ _ _ _ H3 Hi) as Hs.
      pose proof (apart_lower _ _ H3) as Hl.
      rewrite Forall_forall in Hl. apply Hl. eapply nth_error_In; eauto.
    + eapply IH; eauto.
Qed.

Lemma fit_above (self : Skyline.t G) w h i seg y0 lo :
  apart lo (Skyline.skyline self) ->
  nth_error (Skyline.skyline self) i = Some seg -> 0 < w ->
  Skyline._check_fit self w h i = Ok (Some y0) ->
  forall s, In s (Skyline.skyline self) -> under (x seg) (x seg + w) s ->
            y s <= y0.
Proof.
  intros Hap Hi Hw Hfit s Hin (Hu1 & Hu2).
  destruct (check_fit_some self w h i seg y0 Hi Hw Hfit)
    as (sp & Hsp & Hmax & _).
  pose proof (apart_skipn _ _ _ _ Hap Hi) as Hfrom.
  destruct (spanned_split _ _ _ _ Hfrom Hsp) as (rest & Hsplit & Hrest).
  pose proof (apart_firstn _ _ _ _ Hap Hi) as Hbefore.
  rewrite <- (firstn_skipn i (Skyline.skyline self)) in Hin.
  rewrite Hsplit in Hin.
  apply in_app_or in Hin. destruct Hin as [Hin|Hin].
  - rewrite Forall_forall in Hbefore. specialize (Hbefore _ Hin). lia.
  - apply in_app_or in Hin. destruct Hin as [Hin|Hin].
    + pose proof (max_y_upper _ _ Hmax) as Hup.
      rewrite Forall_forall in Hup. apply Hup. exact Hin.
    + rewrite Forall_forall in Hrest. specialize (Hrest _ Hin). lia.
Qed.

End FitMonotone.

(** ** The first item of a bin *)

Section FirstItem.

Import SkylineSegment.

Context {G : Type} {GA : GuillotineAPI G}.

Lemma check_fit_fresh (self : Skyline.t G) w h W H :
  Skyline.width self = W -> Skyline.height self = H ->
  Skyline.skyline self = [SkylineSegment.mk 0 0 W] -> 0 < w ->
  Skyline._check_fit self w h 0
  = Ok (if (w <=? W) && (h <=? H) then Some 0 else None).
Proof.
  intros Hw Hh Hsky Hpos.
  destruct self as [w0 h0 sky its ar fa rot uwm wm heur sc].
  cbn in Hw, Hh, Hsky. subst.
  unfold Skyline._check_fit, getitem. cbn.
  repeat zstep; reflexivity.
Qed.

Lemma calc_waste_fresh r W : Skyline.calc_waste_loop 0 r 0 [SkylineSegment.mk 0 0 W] 0 = 0.
Proof.
  cbn [Skyline.calc_waste_loop SkylineSegment.x SkylineSegment.y SkylineSegment.width].
  destruct ((0 >=? r) || (0 + W <=? 0)); [reflexivity|]. lia.
Qed.

Lemma find_best_score_fresh (self : Skyline.t G) (item : Item.t) W H :
  Skyline.width self = W -> Skyline.height self = H ->
  Skyline.skyline self = [SkylineSegment.mk 0 0 W] ->
  0 < Item.width item -> 0 < Item.height item ->
  if fits_plain W H item || fits_rotated W H (Skyline.rotation self) item
  then exists sc,
         Skyline._find_best_score self item
         = Ok (Some (sc, SkylineSegment.mk 0 0 W,
                     first_rotated W H (Skyline.rotation self) item, 0))
  else Skyline._find_best_score self item = Ok None.
Proof.
  intros Hw Hh Hsky Hiw Hih.
  assert (Hn : nth_error (Skyline.skyline self) O = Some (SkylineSegment.mk 0 0 W))
    by (rewrite Hsky; reflexivity).
  assert (Hsc : forall rot,
    Skyline.call_score (Skyline._score self) (Skyline.skyline self) item 0 O rot
    = Ok (match Skyline._score self with
          | Skyline.BL => (turned_height item rot + 0, W)
          | Skyline.BF => (0, turned_height item rot + 0)
          end)).
  { intros rot. rewrite (call_score_total _ _ item 0 O rot _ Hn).
    rewrite Hsky. cbn [skipn SkylineSegment.x SkylineSegment.width].
    rewrite calc_waste_fresh. reflexivity. }
  assert (Hc : Skyline._candidates self item O (Skyline.skyline self)
               = Skyline._candidates self item O [SkylineSegment.mk 0 0 W])
    by (rewrite Hsky; reflexivity).
  unfold Skyline._find_best_score. rewrite Hc. cbn [Skyline._candidates].
  rewrite (check_fit_fresh self (Item.width item) (Item.height item) W H),
          (check_fit_fresh self (Item.height item) (Item.width item) W H)
    by assumption.
  unfold first_rotated, fits_plain, fits_rotated.
  destruct ((Item.width item <=? W) && (Item.height item <=? H));
    destruct (Skyline.rotation self);
    destruct ((Item.height item <=? W) && (Item.width item <=? H));
    cbn [bind_result app andb orb negb]; rewrite ?Hsc;
    cbn [bind_result app andb orb negb min_from];
    try (eexists; reflexivity); try reflexivity.
  unfold Skyline.cand_score, Skyline.pair_ltb, turned_height.
  cbn [fst snd].
  destruct (Skyline._score self); cbn [fst snd];
    destruct (Z.ltb_spec (Item.width item) (Item.height item));
    repeat zstep; eexists; reflexivity.
Qed.

Lemma update_segment_fresh (self : Skyline.t G) (item : Item.t) W H :
  Skyline.height self = H ->
  Skyline.skyline self = [SkylineSegment.mk 0 0 W] ->
  Item.x item = 0 -> Item.y item = 0 ->
  0 < Item.width item -> Item.width item <= W ->
  0 < Item.height item -> Item.height item <= H ->
  Skyline._update_segment self (SkylineSegment.mk 0 0 W) 0 item
  = Returns (first_skyline W H item) self.
Proof.
  intros Hh Hsky Hix Hiy Hw1 Hw2 Hh1 Hh2.
  destruct self as [w h sky its ar fa rot uwm wm heur sc].
  destruct item as [iw ih ix iy ir]. cbn in Hh, Hsky, Hix, Hiy, Hw1, Hw2, Hh1, Hh2.
  subst.
  unfold Skyline._update_segment, Skyline._add_to_wastemap, getitem,
    Skyline._clip_segment, SortedList.update, first_skyline.
  cbn [Skyline.use_waste_map Skyline.skyline Skyline.height Skyline.wastemap
       SortedList.index Item.x Item.y Item.width Item.height
       SkylineSegment.x SkylineSegment.y SkylineSegment.width].
  rewrite !segment_eqb_refl.
  destruct uwm; cbn; repeat zstep; try reflexivity;
    unfold SkylineSegment.ltb; cbn; repeat zstep; reflexivity.
Qed.

Lemma merge_first_skyline (self : Skyline.t G) (item : Item.t) W H :
  0 < Item.width item -> 0 < Item.height item ->
  Skyline._merge_segments (Skyline.set_skyline self (first_skyline W H item))
  = if (Item.height item <? H) || (Item.width item <? W)
    then Returns tt (Skyline.set_skyline self (first_skyline W H item))
    else Raises IndexError (Skyline.set_skyline self []).
Proof.
  intros Hw Hh. unfold first_skyline.
  destruct self as [w h sky its ar fa rot uwm wm heur sc].
  destruct item as [iw ih ix iy ir]. cbn in Hw, Hh.
  cbn [Item.width Item.height].
  destruct (Z.ltb_spec ih H); destruct (Z.ltb_spec iw W);
    cbn [app orb]; try reflexivity;
    rewrite (merge_segments_spec _ 0) by (cbn; lia);
    cbn [Skyline.skyline Skyline.set_skyline merged
         SkylineSegment.x SkylineSegment.y SkylineSegment.width];
    try reflexivity.
  destruct (Z.eqb_spec 0 ih); [lia|]. reflexivity.
Qed.

Lemma place_fresh (self : Skyline.t G) (item : Item.t) W H :
  Skyline.width self = W -> Skyline.height self = H ->
  Skyline.skyline self = [SkylineSegment.mk 0 0 W] ->
  0 < Item.width item -> 0 < Item.height item ->
  let item' := placed item (first_rotated W H (Skyline.rotation self) item) 0 0 in
  Skyline._place self item
  = if fits_plain W H item || fits_rotated W H (Skyline.rotation self) item then
      if (Item.height item' <? H) || (Item.width item' <? W)
      then Returns true
             (Skyline.set_skyline (Skyline.record_item self item')
                (first_skyline W H item'), item')
      else Raises IndexError
             (Skyline.set_skyline (Skyline.record_item self item') [], item')
    else Returns false (self, item).
Proof.
  intros Hw Hh Hsky Hiw Hih item'.
  pose proof (find_best_score_fresh self item W H Hw Hh Hsky Hiw Hih) as Hbest.
  unfold Skyline._place.
  destruct (fits_plain W H item || fits_rotated W H (Skyline.rotation self) item)
    eqn:Efit.
  - destruct Hbest as (sc & ->).
    cbn [SkylineSegment.x].
    change (Item.set_xy
              (if first_rotated W H (Skyline.rotation self) item
               then Item.rotate item else item) 0 0) with item'.
    assert (Hdims : 0 < Item.width item' /\ Item.width item' <= W
                    /\ 0 < Item.height item' /\ Item.height item' <= H).
    { subst item'. unfold placed, first_rotated, fits_plain, fits_rotated in *.
      destruct (Skyline.rotation self); cbn [andb] in *;
        destruct (Z.leb_spec (Item.width item) W);
        destruct (Z.leb_spec (Item.height item) H);
        destruct (Z.leb_spec (Item.height item) W);
        destruct (Z.leb_spec (Item.width item) H);
        destruct (Z.ltb_spec (Item.width item) (Item.height item));
        cbn in *; try discriminate; lia. }
    destruct Hdims as (D1 & D2 & D3 & D4).
    rewrite (update_segment_fresh (Skyline.record_item self item') item' W H);
      try assumption; try reflexivity;
      try (subst item'; apply (placed_fields item _ 0 0)).
    rewrite merge_first_skyline by assumption.
    destruct ((Item.height item' <? H) || (Item.width item' <? W)); reflexivity.
  - rewrite Hbest. reflexivity.
Qed.

(** X4: the first item of a bin.  On a freshly constructed engine of a
    W x H bin (wastemap on) whose wastemap places nothing, insert of an
    item of positive sides returns False, all but the wastemap being as
    it was, exactly when the item fits the bin neither as it is nor
    rotated (rotation being enabled).  Otherwise the item is placed at
    (0, 0), rotated exactly when only the rotated item fits or both fit
    and the rotated item is strictly lower, and it is recorded; the
    skyline becomes the segment on top of the item, if its top is below
    the top of the bin, followed by the floor to its right, if it is
    narrower than the bin, and insert returns True; when neither
    segment exists (the placed item is as large as the bin) insert
    raises IndexError, the item recorded and the skyline empty. *)
Theorem first_insert W H rot heur (self : Skyline.t G) (item : Item.t)
    (hz : option string) :
  Skyline.__init__ W H rot true heur = Ok self ->
  0 < Item.width item -> 0 < Item.height item ->
  wastemap_declines self item ->
  exists wm,
    let self0 := Skyline.set_wastemap self wm in
    let item' := placed item (first_rotated W H rot item) 0 0 in
    Skyline.insert self item hz
    = if fits_plain W H item || fits_rotated W H rot item then
        if (Item.height item' <? H) || (Item.width item' <? W)
        then Returns true
               (Skyline.set_skyline (Skyline.record_item self0 item')
                  (first_skyline W H item'), item')
        else Raises IndexError
               (Skyline.set_skyline (Skyline.record_item self0 item') [], item')
      else Returns false (self0, item).
Proof.
  intros Hinit Hiw Hih (wm & Hwm & Hdecl).
  destruct (init_shape _ _ _ _ _ _ Hinit)
    as (Hw & Hh & Hsky & _ & _ & _ & Hrot & _).
  assert (Hplace : forall wm0,
    let self0 := Skyline.set_wastemap self wm0 in
    let item' := placed item (first_rotated W H rot item) 0 0 in
    Skyline._place self0 item
    = if fits_plain W H item || fits_rotated W H rot item then
        if (Item.height item' <? H) || (Item.width item' <? W)
        then Returns true
               (Skyline.set_skyline (Skyline.record_item self0 item')
                  (first_skyline W H item'), item')
        else Raises IndexError
               (Skyline.set_skyline (Skyline.record_item self0 item') [], item')
      else Returns false (self0, item)).
  { intros wm0 self0 item'.
    pose proof (place_fresh self0 item W H) as Hp.
    assert (Hr0 : Skyline.rotation self0 = rot) by (rewrite <- Hrot; reflexivity).
    rewrite Hr0 in Hp. apply Hp; assumption. }
  unfold Skyline.insert. rewrite Hwm.
  destruct Hdecl as [Hfalse|(wm' & Hins)].
  - rewrite Hfalse. exists (Skyline.wastemap self).
    rewrite <- (set_wastemap_same self) at 1. apply Hplace.
  - destruct (Guillotine_bool wm).
    + rewrite Hins. exists (Some wm'). apply Hplace.
    + exists (Skyline.wastemap self).
      rewrite <- (set_wastemap_same self) at 1. apply Hplace.
Qed.

End FirstItem.

Lemma first_insert_witness :
  exists wm,
    let self0 := Skyline.set_wastemap (fresh_skyline 10 10 true) wm in
    let item' := placed (new_item 3 5) (first_rotated 10 10 true (new_item 3 5)) 0 0 in
    Skyline.insert (fresh_skyline 10 10 true) (new_item 3 5) None
    = if fits_plain 10 10 (new_item 3 5) || fits_rotated 10 10 true (new_item 3 5) then
        if (Item.height item' <? 10) || (Item.width item' <? 10)
        then Returns true
               (Skyline.set_skyline (Skyline.record_item self0 item')
                  (first_skyline 10 10 item'), item')
        else Raises IndexError
               (Skyline.set_skyline (Skyline.record_item self0 item') [], item')
      else Returns false (self0, new_item 3 5).
Proof.
  apply (first_insert 10 10 true "bottom_left" (fresh_skyline 10 10 true)
           (new_item 3 5) None).
  - reflexivity.
  - simpl. lia.
  - simpl. lia.
  - exists (fresh_wastemap true). split; [reflexivity|].
    right. exists (fresh_wastemap true). reflexivity.
Defined.

(** ** What clipping leaves of a segment *)

Section ClipPoints.

Import SkylineSegment.

Lemma clip_points (s : SkylineSegment.t) (item : Item.t) :
  0 < width s ->
  (forall p,
      (exists q, In q (Skyline._clip_segment s item) /\ covers q p)
      <-> covers s p /\ ~ spans item p)
  /\ Forall (fun q => y q = y s /\ 0 < width q) (Skyline._clip_segment s item).
Proof.
  intros Hs. unfold Skyline._clip_segment. cbv zeta.
  destruct (Z.gtb_spec (x s) (Item.x item + Item.width item)) as [H1|H1];
    cbn [orb].
  { split; [|repeat constructor; lia].
    intros p. unfold covers, spans. split.
    - intros (q & [<-|[]] & Hc). lia.
    - intros (Hc & _). exists s. split; [left; reflexivity|exact Hc]. }
  destruct (Z.ltb_spec (x s + width s) (Item.x item)) as [H2|H2];
    cbn [orb].
  { split; [|repeat constructor; lia].
    intros p. unfold covers, spans. split.
    - intros (q & [<-|[]] & Hc). lia.
    - intros (Hc & _). exists s. split; [left; reflexivity|exact Hc]. }
  destruct (Z.geb_spec (x s) (Item.x item)) as [H3|H3]; cbn [andb].
  - destruct (Z.leb_spec (x s + width s) (Item.x item + Item.width item))
      as [H4|H4].
    { split; [|constructor].
      intros p. unfold covers, spans. split.
      - intros (q & [] & _).
      - intros (Hc & Hn). lia. }
    destruct (Z.ltb_spec (x s) (Item.x item)) as [H5|H5]; [lia|]. cbn [andb].
    destruct (Z.gtb_spec (x s + width s) (Item.x item + Item.width item))
      as [H6|H6]; [|lia].
    split; [|repeat constructor; cbn; lia].
    intros p. unfold covers, spans. split.
    + intros (q & [<-|[]] & Hc). cbn in Hc. lia.
    + intros (Hc & Hn). eexists. split; [left; reflexivity|]. cbn. lia.
  - destruct (Z.ltb_spec (x s) (Item.x item)) as [H5|H5]; [|lia]. cbn [andb].
    destruct (Z.leb_spec (x s + width s) (Item.x item + Item.width item))
      as [H4|H4].
    { split; [|repeat constructor; cbn; lia].
      intros p. unfold covers, spans. split.
      - intros (q & [<-|[]] & Hc). cbn in Hc. lia.
      - intros (Hc & Hn). eexists. split; [left; reflexivity|]. cbn. lia. }
    destruct (Z.gtb_spec (x s + width s) (Item.x item + Item.width item))
      as [H6|H6]; [|lia].
    split; [|repeat constructor; cbn; lia].
    intros p. unfold covers, spans. split.
    + intros (q & [<-|[<-|[]]] & Hc); cbn in Hc; lia.
    + intros (Hc & Hn).
      destruct (Z.lt_ge_cases p (Item.x item)) as [Hp|Hp].
      * eexists. split; [left; reflexivity|]. cbn. lia.
      * eexists. split; [right; left; reflexivity|]. cbn. lia.
Qed.

(** X5: _clip_segment of a segment of positive width returns at most
    two pieces, each at the segment's y and of positive width, and a
    position lies on one of the pieces exactly when it lies on the
    segment and not in the item's range [item.x, item.x + item.width). *)
Theorem clip_segment_points (s : SkylineSegment.t) (item : Item.t) :
  0 < width s ->
  (forall p,
      (exists q, In q (Skyline._clip_segment s item) /\ covers q p)
      <-> covers s p /\ ~ spans item p)
  /\ Forall (fun q => y q = y s /\ 0 < width q) (Skyline._clip_segment s item)
  /\ (List.length (Skyline._clip_segment s item) <= 2)%nat.
Proof.
  intros Hs. destruct (clip_points s item Hs) as (Hpts & Hys).
  split; [exact Hpts|]. split; [exact Hys|].
  unfold Skyline._clip_segment. cbv zeta.
  repeat match goal with
         | |- context [if ?c then _ else _] => destruct c
         end; cbn [List.length]; lia.
Qed.

End ClipPoints.

Lemma clip_segment_points_witness :
  (forall p,
      (exists q, In q (Skyline._clip_segment (SkylineSegment.mk 0 0 10)
                         (Item.mk 4 3 2 0 false)) /\ covers q p)
      <-> covers (SkylineSegment.mk 0 0 10) p /\ ~ spans (Item.mk 4 3 2 0 false) p)
  /\ Forall (fun q => SkylineSegment.y q = SkylineSegment.y (SkylineSegment.mk 0 0 10)
                       /\ 0 < SkylineSegment.width q)
       (Skyline._clip_segment (SkylineSegment.mk 0 0 10) (Item.mk 4 3 2 0 false))
  /\ (List.length (Skyline._clip_segment (SkylineSegment.mk 0 0 10)
                     (Item.mk 4 3 2 0 false)) <= 2)%nat.
Proof.
  apply (clip_segment_points (SkylineSegment.mk 0 0 10) (Item.mk 4 3 2 0 false)).
  simpl. lia.
Defined.

(** ** Merging keeps the heights *)

Section MergePoints.

Import SkylineSegment.

Lemma merged_covers : forall rest last m p,
  In m (merged last rest) -> covers m p ->
  exists s, In s (last :: rest) /\ covers s p /\ y s = y m.
Proof.
  induction rest as [|s rest IH]; intros last m p Hin Hc; cbn [merged] in Hin.
  - destruct Hin as [<-|[]]. exists last. split; [left; reflexivity|]. auto.
  - destruct ((y s =? y last) && (x s =? x last + width last)) eqn:Hcond.
    + apply andb_prop in Hcond. destruct Hcond as (Hy & Hx).
      apply Z.eqb_eq in Hy, Hx.
      destruct (IH _ _ _ Hin Hc) as (s0 & [<-|Hs0] & Hc0 & Hy0).
      * unfold covers in Hc0. cbn in Hc0, Hy0.
        destruct (Z.lt_ge_cases p (x s)) as [Hp|Hp].
        -- exists last. split; [left; reflexivity|]. unfold covers. split; lia.
        -- exists s. split; [right; left; reflexivity|]. unfold covers. split; lia.
      * exists s0. split; [right; right; exact Hs0|]. auto.
    + destruct Hin as [<-|Hin].
      * exists last. split; [left; reflexivity|]. auto.
      * destruct (IH _ _ _ Hin Hc) as (s0 & Hs0 & Hc0 & Hy0).
        exists s0. split; [right; exact Hs0|]. auto.
Qed.

Lemma covers_merged : forall rest last lo s p,
  apart lo (last :: rest) ->
  In s (last :: rest) -> covers s p ->
  exists m, In m (merged last rest) /\ covers m p /\ y m = y s.
Proof.
  induction rest as [|s1 rest IH]; intros last lo s p Hap Hin Hc; cbn [merged].
  - destruct Hin as [<-|[]]. exists last. split; [left; reflexivity|]. auto.
  - destruct Hap as (A & B & C & D & E).
    destruct ((y s1 =? y last) && (x s1 =? x last + width last)) eqn:Hcond.
    + apply andb_prop in Hcond. destruct Hcond as (Hy & Hx).
      apply Z.eqb_eq in Hy, Hx.
      set (grown := SkylineSegment.mk (x last) (y last) (x s1 + width s1 - x last)).
      assert (Hap' : apart lo (grown :: rest)).
      { cbn. repeat split; auto; try lia.
        replace (x last + (x s1 + width s1 - x last)) with (x s1 + width s1) by lia.
        exact E. }
      unfold covers in Hc.
      destruct Hin as [<-|[<-|Hin]].
      * destruct (IH grown lo grown p Hap' (or_introl eq_refl)) as (m & Hm & Hcm & Hym).
        { unfold covers. cbn. lia. }
        exists m. repeat split; auto; apply Hcm.
      * destruct (IH grown lo grown p Hap' (or_introl eq_refl)) as (m & Hm & Hcm & Hym).
        { unfold covers. cbn. lia. }
        exists m. split; [exact Hm|]. split; [exact Hcm|]. cbn in Hym. lia.
      * destruct (IH grown lo s p Hap' (or_intror Hin)) as (m & Hm & Hcm & Hym).
        { exact Hc. }
        exists m. auto.
    + assert (Hap' : apart (x last + width last) (s1 :: rest))
        by (cbn; repeat split; auto).
      destruct Hin as [<-|Hin].
      * exists last. split; [left; reflexivity|]. auto.
      * destruct (IH s1 _ s p Hap' Hin Hc) as (m & Hm & Hcm & Hym).
        exists m. split; [right; exact Hm|]. auto.
Qed.

Lemma merged_fixed : forall rest last lo,
  apart lo (last :: rest) -> no_equal_touching (last :: rest) ->
  merged last rest = last :: rest.
Proof.
  induction rest as [|s rest IH]; intros last lo Hap Hnt; cbn [merged];
    [reflexivity|].
  destruct Hap as (A & B & C & D & E). destruct Hnt as (Hn & Hnt).
  destruct (Z.eqb_spec (y s) (y last)) as [Hy|Hy]; cbn [andb].
  - destruct (Z.eqb_spec (x s) (x last + width last)) as [Hx|Hx].
    + exfalso. apply (Hn Hx). symmetry. exact Hy.
    + f_equal. apply (IH s (x last + width last)); [|exact Hnt].
      cbn. repeat split; auto.
  - f_equal. apply (IH s (x last + width last)); [|exact Hnt].
    cbn. repeat split; auto.
Qed.

Lemma merged_length : forall rest last,
  (List.length (merged last rest) <= S (List.length rest))%nat.
Proof.
  induction rest as [|s rest IH]; intros last; cbn [merged]; [cbn; lia|].
  destruct ((y s =? y last) && (x s =? x last + width last)).
  - specialize (IH (SkylineSegment.mk (x last) (y last) (x s + width s - x last))).
    cbn [List.length]. lia.
  - specialize (IH s). cbn [List.length] in *. lia.
Qed.

Context {G : Type} {GA : GuillotineAPI G}.

(** X6: on a skyline that is not empty and whose segments are in
    increasing position without overlap, _merge_segments returns and
    changes only the skyline; the new skyline has the same height over
    every position, is again in increasing position without overlap,
    has no two touching segments of equal y and is not longer than the
    old one; and merging it again changes nothing. *)
Theorem merge_segments_keeps_heights (self : Skyline.t G) (lo : Z) :
  apart lo (Skyline.skyline self) ->
  Skyline.skyline self <> [] ->
  exists sky',
    Skyline._merge_segments self = Returns tt (Skyline.set_skyline self sky')
    /\ (forall p h, height_at sky' p h <-> height_at (Skyline.skyline self) p h)
    /\ apart lo sky'
    /\ no_equal_touching sky'
    /\ (List.length sky' <= List.length (Skyline.skyline self))%nat
    /\ Skyline._merge_segments (Skyline.set_skyline self sky')
       = Returns tt (Skyline.set_skyline self sky').
Proof.
  intros Hap Hne. rewrite (merge_segments_spec self lo Hap).
  destruct (Skyline.skyline self) as [|first rest] eqn:Esky; [congruence|].
  exists (merged first rest).
  assert (Hfirst : apart (x first) (first :: rest)).
  { destruct Hap as (A & B & C). cbn. repeat split; auto. lia. }
  pose proof (merged_apart _ _ _ Hap) as Hap'.
  pose proof (merged_no_equal_touching _ _ Hfirst) as Hnt.
  split; [reflexivity|]. split; [|split; [exact Hap'|split; [exact Hnt|split]]].
  - intros p h. unfold height_at. split.
    + intros (m & Hm & Hc & Hy).
      destruct (merged_covers _ _ _ _ Hm Hc) as (s & Hs & Hcs & Hys).
      exists s. repeat split; auto; try apply Hcs. congruence.
    + intros (s & Hs & Hc & Hy).
      destruct (covers_merged _ _ _ _ _ Hap Hs Hc) as (m & Hm & Hcm & Hym).
      exists m. repeat split; auto; try apply Hcm. congruence.
  - apply merged_length.
  - rewrite (merge_segments_spec _ lo) by exact Hap'.
    cbn [Skyline.set_skyline Skyline.skyline].
    destruct (merged first rest) as [|m ms] eqn:Em.
    + destruct (merged_head rest first) as (w & tl & Hm). congruence.
    + rewrite (merged_fixed ms m lo Hap' Hnt). reflexivity.
Qed.

End MergePoints.

(** ** Where the skyline places an item *)

Section Placement.

Import SkylineSegment.

Context {G : Type} {GA : GuillotineAPI G}.

Lemma new_skyline_In H sky seg item s :
  In s (new_skyline H sky seg item) ->
  (Item.height item + Item.y item < H
   /\ s = SkylineSegment.mk (x seg) (Item.y item + Item.height item)
            (Item.width item))
  \/ exists s0, In s0 sky /\ In s (Skyline._clip_segment s0 item).
Proof.
  unfold new_skyline.
  destruct (Z.ltb_spec (Item.height item + Item.y item) H) as [Hlt|Hge].
  - rewrite add_In. intros [->|Hin]; [left; auto|right].
    apply in_flat_map in Hin. exact Hin.
  - intros Hin. right. apply in_flat_map in Hin. exact Hin.
Qed.

Lemma merged_In_y : forall rest last m,
  In m (merged last rest) -> exists s, In s (last :: rest) /\ y s = y m.
Proof.
  induction rest as [|s rest IH]; intros last m Hin; cbn [merged] in Hin.
  - destruct Hin as [<-|[]]. exists last. split; [left|]; reflexivity.
  - destruct ((y s =? y last) && (x s =? x last + width last)).
    + destruct (IH _ _ Hin) as (s0 & [<-|Hs0] & Hy).
      * exists last. split; [left; reflexivity|exact Hy].
      * exists s0. split; [right; right; exact Hs0|exact Hy].
    + destruct Hin as [<-|Hin].
      * exists last. split; [left|]; reflexivity.
      * destruct (IH _ _ Hin) as (s0 & Hs0 & Hy).
        exists s0. split; [right; exact Hs0|exact Hy].
Qed.

(** A fitting pair puts the item inside the bin and on or above every
    segment under it. *)
Lemma fitting_placed (self : Skyline.t G) item i rot seg y0 sc :
  apart 0 (Skyline.skyline self) ->
  Forall (fun s => 0 <= y s) (Skyline.skyline self) ->
  0 < Item.width item -> 0 < Item.height item ->
  fitting self item i rot seg y0 sc ->
  let item' := placed item rot (x seg) y0 in
  inside (Skyline.width self) (Skyline.height self) item'
  /\ 0 < Item.width item' /\ 0 < Item.height item'
  /\ (forall s, In s (Skyline.skyline self) ->
                under (Item.x item') (Item.x item' + Item.width item') s ->
                y s <= Item.y item').
Proof.
  intros Hap Hnn Hiw Hih Hfit item'. subst item'.
  destruct (placed_fields item rot (x seg) y0) as (Pw & Ph & Px & Py).
  rewrite Pw, Ph, Px, Py.
  assert (Htw : 0 < turned_width item rot)
    by (unfold turned_width; destruct rot; assumption).
  assert (Hth : 0 < turned_height item rot)
    by (unfold turned_height; destruct rot; assumption).
  destruct (fitting_inside _ _ _ _ _ _ _ Hfit Htw) as (Hx & Hy & Hin).
  destruct Hfit as (Hi & _ & Hcf & _).
  pose proof (fit_above self _ _ i seg y0 0 Hap Hi Htw Hcf) as Habove.
  assert (Hseg0 : 0 <= x seg).
  { pose proof (apart_lower _ _ Hap) as Hlow.
    rewrite Forall_forall in Hlow. exact (Hlow _ Hin). }
  assert (Hsegw : 0 < width seg).
  { pose proof (apart_positive _ _ Hap) as Hpos.
    rewrite Forall_forall in Hpos. exact (Hpos _ Hin). }
  assert (Hy0 : y seg <= y0).
  { apply Habove; [exact Hin|]. unfold under. lia. }
  assert (Hsegy : 0 <= y seg).
  { rewrite Forall_forall in Hnn. exact (Hnn _ Hin). }
  unfold inside. rewrite Pw, Ph, Px, Py.
  repeat split; try lia. exact Habove.
Qed.

Lemma place_nonneg (self : Skyline.t G) (item : Item.t) :
  apart 0 (Skyline.skyline self) ->
  Forall (fun s => 0 <= y s) (Skyline.skyline self) ->
  0 < Item.width item -> 0 < Item.height item ->
  Forall (fun s => 0 <= y s)
         (Skyline.skyline (fst (state_of (Skyline._place self item)))).
Proof.
  intros Hap Hnn Hiw Hih.
  pose proof (place_outcome self item Hap Hiw Hih) as Hout.
  destruct (Skyline._place self item) as [[|] [self' item']|e [self' item']];
    cbn [state_of fst].
  - destruct Hout as (i & seg & rot & y0 & sc & wm & first & rest
                      & Hfit & -> & Hnew & ->).
    cbn [Skyline.set_skyline Skyline.skyline].
    destruct (fitting_placed self item i rot seg y0 sc Hap Hnn Hiw Hih Hfit)
      as ((_ & Hy & _) & _ & Hh & _).
    rewrite Forall_forall. intros m Hm.
    destruct (merged_In_y _ _ _ Hm) as (s & Hs & <-).
    rewrite <- Hnew in Hs. apply new_skyline_In in Hs.
    destruct Hs as [(_ & ->)|(s0 & Hs0 & Hs)].
    + cbn [y]. lia.
    + assert (Hpos : 0 < width s0).
      { pose proof (apart_positive _ _ Hap) as Hp.
        rewrite Forall_forall in Hp. exact (Hp _ Hs0). }
      destruct (clip_points s0 (placed item rot (x seg) y0) Hpos) as (_ & Hys).
      rewrite Forall_forall in Hys. destruct (Hys _ Hs) as (-> & _).
      rewrite Forall_forall in Hnn. exact (Hnn _ Hs0).
  - destruct Hout as (Hst & _). inversion Hst; subst. exact Hnn.
  - destruct Hout as (i & seg & rot & y0 & sc & wm & Hfit & -> & [->|(_ & _ & ->)]).
    + exact Hnn.
    + constructor.
Qed.

Lemma insert_nonneg (self : Skyline.t G) (item : Item.t) hz :
  declined_item_kept G ->
  apart 0 (Skyline.skyline self) ->
  Forall (fun s => 0 <= y s) (Skyline.skyline self) ->
  0 < Item.width item -> 0 < Item.height item ->
  Forall (fun s => 0 <= y s)
         (Skyline.skyline (fst (state_of (Skyline.insert self item hz)))).
Proof.
  intros Hkept Hap Hnn Hiw Hih. unfold Skyline.insert.
  destruct (Skyline.wastemap self) as [wm|] eqn:Ewm; [|exact Hnn].
  destruct (Guillotine_bool wm).
  - destruct (Guillotine_insert wm item (Some "best_area"))
      as [[|] [wm' item0]|e [wm' item0]] eqn:Eins.
    + exact Hnn.
    + apply Hkept in Eins. subst item0.
      apply (place_nonneg (Skyline.set_wastemap self (Some wm')) item); auto.
    + exact Hnn.
  - apply place_nonneg; auto.
Qed.

Lemma reachable_nonneg W H (self : Skyline.t G) :
  declined_item_kept G -> 0 < W ->
  reachable W H self ->
  Forall (fun s => 0 <= y s) (Skyline.skyline self).
Proof.
  intros Hkept HW. induction 1 as [rot wm heur self Hinit|self item hz Hr IH Hiw Hih].
  - destruct (init_shape _ _ _ _ _ _ Hinit) as (_ & _ & -> & _).
    constructor; [cbn; lia|constructor].
  - destruct (reachable_ok W H self Hkept HW Hr) as ((Hap & _) & _).
    apply insert_nonneg; auto.
Qed.

(** X7: when insert of an item of positive sides into an engine of a
    W x H bin of positive width returns True, either the skyline is as
    before (the wastemap placed the item), or the item was placed on the
    skyline: its x is the x of a segment of the skyline before the call,
    it is the item given or, only with rotation enabled, the item
    rotated, it lies inside the bin (0 <= x, 0 <= y, x + width <= W,
    y + height <= H), and its y is at least the y of every segment of
    the old skyline whose x-range meets that of the item. *)
Theorem insert_places_inside W H (self self' : Skyline.t G)
    (item item' : Item.t) (hz : option string) :
  declined_item_kept G ->
  0 < W ->
  reachable W H self ->
  0 < Item.width item -> 0 < Item.height item ->
  Skyline.insert self item hz = Returns true (self', item') ->
  Skyline.skyline self' = Skyline.skyline self
  \/ (exists rot seg,
         In seg (Skyline.skyline self)
         /\ (rot = true -> Skyline.rotation self = true)
         /\ item' = placed item rot (x seg) (Item.y item')
         /\ inside W H item'
         /\ forall s, In s (Skyline.skyline self) ->
                      under (Item.x item') (Item.x item' + Item.width item') s ->
                      y s <= Item.y item').
Proof.
  intros Hkept HW Hreach Hiw Hih Hins.
  destruct (reachable_ok W H self Hkept HW Hreach) as ((Hap & _) & Hw & Hh).
  pose proof (reachable_nonneg W H self Hkept HW Hreach) as Hnn.
  destruct (insert_true_cases self self' item item' hz Hkept Hins)
    as [(Hsame & _ & _)|(wm & Hplace)]; [left; exact Hsame|right].
  set (self0 := Skyline.set_wastemap self wm) in *.
  assert (Hsky0 : Skyline.skyline self0 = Skyline.skyline self)
    by (destruct self; reflexivity).
  assert (Hap0 : apart 0 (Skyline.skyline self0)) by (rewrite Hsky0; exact Hap).
  assert (Hnn0 : Forall (fun s => 0 <= y s) (Skyline.skyline self0))
    by (rewrite Hsky0; exact Hnn).
  pose proof (place_outcome self0 item Hap0 Hiw Hih) as Hout.
  rewrite Hplace in Hout.
  destruct Hout as (i & seg & rot & y0 & sc & wm' & first & rest
                    & Hfit & -> & Hnew & ->).
  destruct (fitting_placed self0 item i rot seg y0 sc Hap0 Hnn0 Hiw Hih Hfit)
    as (Hin & _ & _ & Habove).
  exists rot, seg.
  destruct (placed_fields item rot (x seg) y0) as (Pw & Ph & Px & Py).
  destruct Hfit as (Hi & Hrot & _).
  split; [rewrite <- Hsky0; eapply nth_error_In; exact Hi|].
  split; [exact Hrot|].
  split; [rewrite Py; reflexivity|].
  split; [rewrite <- Hw, <- Hh; exact Hin|].
  rewrite <- Hsky0. exact Habove.
Qed.

End Placement.

(** ** The items the skyline places do not overlap *)

Section NoOverlap.

Import SkylineSegment.

Context {G : Type} {GA : GuillotineAPI G}.

Lemma tiles_cover : forall l lo hi p,
  tiles lo hi l -> lo <= p < hi -> exists s, In s l /\ covers s p.
Proof.
  induction l as [|s l IH]; intros lo hi p Ht Hp.
  - cbn in Ht. lia.
  - destruct Ht as (A & B & C).
    destruct (Z.lt_ge_cases p (x s + width s)) as [Hlt|Hge].
    + exists s. split; [left; reflexivity|]. unfold covers. lia.
    + destruct (IH _ _ p C) as (s0 & Hs0 & Hc); [lia|].
      exists s0. split; [right; exact Hs0|exact Hc].
Qed.

Lemma disjoint_snoc l a :
  disjoint_items l -> Forall (fun b => ~ overlapping b a) l ->
  disjoint_items (l ++ [a]).
Proof.
  induction l as [|b l IH]; intros Hd Hall; cbn.
  - split; constructor.
  - destruct Hd as (Hb & Hd). inversion Hall as [|? ? Hba Hall']; subst.
    split; [|apply IH; assumption].
    apply Forall_app. split; [exact Hb|]. constructor; [exact Hba|constructor].
Qed.

Lemma insert_declined (self : Skyline.t G) item hz :
  wastemap_declines self item ->
  exists wm,
    Skyline.insert self item hz
    = Skyline._place (Skyline.set_wastemap self wm) item.
Proof.
  intros (wm & Hwm & Hdecl). unfold Skyline.insert. rewrite Hwm.
  destruct Hdecl as [Hfalse|(wm' & Hins)].
  - rewrite Hfalse. exists (Skyline.wastemap self).
    rewrite set_wastemap_same. reflexivity.
  - destruct (Guillotine_bool wm).
    + rewrite Hins. exists (Some wm'). reflexivity.
    + exists (Skyline.wastemap self). rewrite set_wastemap_same. reflexivity.
Qed.

(** The common position of two items that overlap. *)
Lemma overlapping_position a b :
  0 < Item.width a -> 0 < Item.width b ->
  Item.x a < Item.x b + Item.width b -> Item.x b < Item.x a + Item.width a ->
  spans a (Z.max (Item.x a) (Item.x b)) /\ spans b (Z.max (Item.x a) (Item.x b)).
Proof. unfold spans. lia. Qed.

Lemma place_well_packed W H (self self' : Skyline.t G) item item' :
  well_packed W H self ->
  0 < Item.width item -> 0 < Item.height item ->
  Skyline._place self item = Returns true (self', item') ->
  Skyline.items self' = Skyline.items self ++ [item']
  /\ inside W H item'
  /\ Forall (fun it => ~ overlapping it item') (Skyline.items self)
  /\ (Item.y item' + Item.height item' < H -> well_packed W H self').
Proof.
  intros (Hw & Hh & Ht & Hnn & Hits & Hdis) Hiw Hih Hplace.
  destruct (tiles_apart _ _ _ Ht) as (Hap & Hwi & _).
  pose proof (place_outcome self item Hap Hiw Hih) as Hout.
  pose proof (place_nonneg self item Hap Hnn Hiw Hih) as Hnn'.
  rewrite Hplace in Hout, Hnn'. cbn [state_of fst] in Hnn'.
  destruct Hout as (i & seg & rot & y0 & sc & wm & first & rest
                    & Hfit & -> & Hnew & ->).
  set (item' := placed item rot (x seg) y0) in *.
  destruct (fitting_placed self item i rot seg y0 sc Hap Hnn Hiw Hih Hfit)
    as (Hin & Hpw & Hph & Habove).
  fold item' in Hin, Hpw, Hph, Habove. rewrite Hw, Hh in Hin.
  assert (Hxseg : x seg = Item.x item')
    by (subst item'; destruct (placed_fields item rot (x seg) y0) as (_ & _ & -> & _);
        reflexivity).
  (* an old item with a position under the new one ends below it *)
  assert (Hold : forall it p,
             In it (Skyline.items self) -> spans it p -> spans item' p ->
             Item.y it + Item.height it <= Item.y item').
  { intros it p Hit Hsp Hsp'.
    rewrite Forall_forall in Hits. destruct (Hits _ Hit) as (_ & _ & _ & Hbel).
    destruct Hin as (I1 & I2 & I3 & I4). unfold spans in Hsp, Hsp'.
    destruct (tiles_cover _ _ _ p Ht) as (s & Hs & Hc); [lia|].
    specialize (Hbel s p Hs Hc Hsp).
    specialize (Habove s Hs). unfold under, covers in *.
    assert (y s <= Item.y item') by (apply Habove; lia). lia. }
  assert (Hnone : Forall (fun it => ~ overlapping it item') (Skyline.items self)).
  { rewrite Forall_forall. intros it Hit (O1 & O2 & O3 & O4).
    assert (Hitw : 0 < Item.width it).
    { rewrite Forall_forall in Hits. apply (Hits _ Hit). }
    destruct (overlapping_position it item' Hitw Hpw O1 O2) as (S1 & S2).
    specialize (Hold it _ Hit S1 S2). lia. }
  split; [reflexivity|]. split; [exact Hin|]. split; [exact Hnone|].
  intros Htop.
  destruct (fitting_new_skyline self item i rot seg y0 sc Hap
              ltac:(rewrite Hw; exact Hwi) Hiw Hih Hfit) as (_ & _ & Hnt).
  fold item' in Hnt. rewrite Hnew, Hw, Hh in Hnt.
  split; [exact Hw|]. split; [exact Hh|].
  cbn [Skyline.set_skyline Skyline.skyline Skyline.items
       Skyline.set_wastemap Skyline.record_item].
  split; [apply merged_tiles; apply Hnt; [exact Ht|lia]|].
  split; [exact Hnn'|].
  split; [|apply disjoint_snoc; assumption].
  (* every item, the new one included, lies below the new skyline *)
  assert (Hbelow : forall it,
             (In it (Skyline.items self) \/ it = item') ->
             below (merged first rest) it).
  { intros it Hit m p Hm Hc Hsp.
    destruct (merged_covers _ _ _ _ Hm Hc) as (s & Hs & Hcs & <-).
    rewrite <- Hnew in Hs. apply new_skyline_In in Hs.
    destruct Hs as [(_ & ->)|(s0 & Hs0 & Hs)].
    - assert (Hsp' : spans item' p).
      { unfold covers in Hcs. cbn [x y width] in Hcs. unfold spans. lia. }
      cbn [y]. destruct Hit as [Hit| ->]; [|lia].
      specialize (Hold it p Hit Hsp Hsp'). lia.
    - assert (Hpos : 0 < width s0).
      { pose proof (apart_positive _ _ Hap) as Hp.
        rewrite Forall_forall in Hp. exact (Hp _ Hs0). }
      destruct (clip_points s0 item' Hpos) as (Hpts & Hys).
      rewrite Forall_forall in Hys. destruct (Hys _ Hs) as (-> & _).
      destruct (proj1 (Hpts p) (ex_intro _ s (conj Hs Hcs))) as (Hc0 & Hnot).
      destruct Hit as [Hit| ->]; [|contradiction].
      rewrite Forall_forall in Hits. destruct (Hits _ Hit) as (_ & _ & _ & Hbel).
      exact (Hbel s0 p Hs0 Hc0 Hsp). }
  apply Forall_app. split.
  - rewrite Forall_forall. intros it Hit.
    rewrite Forall_forall in Hits. destruct (Hits _ Hit) as (A & B & C & _).
    split; [exact A|]. split; [exact B|]. split; [exact C|].
    apply Hbelow. left. exact Hit.
  - constructor; [|constructor].
    split; [exact Hpw|]. split; [exact Hph|]. split; [exact Hin|].
    apply Hbelow. right. reflexivity.
Qed.

Lemma well_packed_set_wastemap W H (self : Skyline.t G) wm :
  well_packed W H self -> well_packed W H (Skyline.set_wastemap self wm).
Proof. intros Hp. exact Hp. Qed.

Lemma packed_well_packed W H (self : Skyline.t G) :
  0 < W -> packed W H self -> well_packed W H self.
Proof.
  intros HW. induction 1
    as [rot wm heur self Hinit
       |self item hz r self' item' Hp IH Hiw Hih Hdecl Hins Htop].
  - destruct (init_shape _ _ _ _ _ _ Hinit) as (Hw & Hh & Hsky & Hits & _).
    unfold well_packed. rewrite Hw, Hh, Hsky, Hits.
    repeat split; try constructor; cbn; try lia; constructor.
  - destruct (insert_declined self item hz Hdecl) as (wm & Hpl).
    rewrite Hpl in Hins.
    pose proof (well_packed_set_wastemap W H self wm IH) as IH0.
    destruct r.
    + destruct (place_well_packed W H _ _ _ _ IH0 Hiw Hih Hins) as (_ & _ & _ & Hk).
      apply Hk. apply Htop. reflexivity.
    + destruct IH0 as (_ & _ & Ht & _).
      destruct (tiles_apart _ _ _ Ht) as (Hap & _).
      pose proof (place_outcome _ item Hap Hiw Hih) as Hout.
      rewrite Hins in Hout. destruct Hout as (Hst & _).
      inversion Hst; subst. exact IH.
Qed.



End NoOverlap.

(** ** Sorting the items *)

Section Sorting.

Lemma insert_sorted_perm {K A} (before : K -> K -> bool) (kv : K * A) l :
  Permutation (kv :: l) (insert_sorted before kv l).
Proof.
  induction l as [|e l IH]; cbn [insert_sorted]; [reflexivity|].
  destruct (before (fst kv) (fst e)); [reflexivity|].
  rewrite perm_swap. constructor. exact IH.
Qed.

Lemma sort_fold_perm {K A} (before : K -> K -> bool) (l : list (K * A)) :
  forall acc,
    Permutation (acc ++ l)
      (fold_left (fun acc0 kv => insert_sorted before kv acc0) l acc).
Proof.
  induction l as [|kv l IH]; intros acc; cbn [fold_left].
  - rewrite app_nil_r. reflexivity.
  - rewrite <- IH. rewrite <- insert_sorted_perm.
    rewrite <- Permutation_middle. reflexivity.
Qed.

Lemma decorate_snd {K A} (key : A -> result K) : forall l keyed,
  decorate key l = Ok keyed -> map snd keyed = l.
Proof.
  induction l as [|a l IH]; intros keyed; cbn [decorate].
  - intros H. inversion H. reflexivity.
  - unfold bind_result. destruct (key a) as [k|]; [|discriminate].
    destruct (decorate key l) as [r|]; [|discriminate].
    intros H. inversion H; subst. cbn. f_equal. apply IH. reflexivity.
Qed.

Lemma list_sort_perm {K A} (lt : K -> K -> bool) rev (keyed : list (K * A)) :
  Permutation (map snd keyed) (list_sort lt rev keyed).
Proof.
  unfold list_sort. apply Permutation_map.
  apply (sort_fold_perm _ keyed []).
Qed.

(** Integer keys. *)

Lemma in_order_tail {A} (key : A -> Z) rev a l :
  in_order key rev (a :: l) -> in_order key rev l.
Proof. cbn. tauto. Qed.

Lemma insert_sorted_order {A} rev (kv : Z * A) : forall l,
  keyed_order rev l -> keyed_order rev (insert_sorted (beforeZ rev) kv l).
Proof.
  unfold keyed_order.
  induction l as [|e l IH]; intros Ho; cbn [insert_sorted].
  - cbn. auto.
  - destruct (beforeZ rev (fst kv) (fst e)) eqn:Eb.
    + cbn [in_order]. split; [|exact Ho].
      unfold beforeZ in Eb. destruct rev; apply Z.ltb_lt in Eb; lia.
    + specialize (IH (in_order_tail _ _ _ _ Ho)).
      destruct Ho as (Hhead & Ho).
      destruct l as [|e' l]; cbn [insert_sorted in_order] in *.
      * split; [|auto].
        unfold beforeZ in Eb. destruct rev; apply Z.ltb_ge in Eb; lia.
      * destruct (beforeZ rev (fst kv) (fst e')) eqn:Eb'.
        -- split; [|exact IH].
           unfold beforeZ in Eb. destruct rev; apply Z.ltb_ge in Eb; lia.
        -- split; [exact Hhead|exact IH].
Qed.

Lemma sort_fold_order {A} rev (l : list (Z * A)) : forall acc,
  keyed_order rev acc ->
  keyed_order rev (fold_left (fun acc0 kv => insert_sorted (beforeZ rev) kv acc0) l acc).
Proof.
  induction l as [|kv l IH]; intros acc Ho; cbn [fold_left]; [exact Ho|].
  apply IH. apply insert_sorted_order. exact Ho.
Qed.

(** Stability: the elements of one key keep their order. *)

Lemma in_order_from {A} rev (e : Z * A) : forall l,
  keyed_order rev (e :: l) ->
  Forall (fun e' => if rev then fst e' <= fst e else fst e <= fst e') l.
Proof.
  unfold keyed_order.
  induction l as [|e' l IH]; intros Ho; constructor.
  - destruct Ho as (H & _). exact H.
  - apply IH. destruct Ho as (H1 & H2 & H3). cbn [in_order].
    split; [|exact H3].
    destruct l as [|e'' l]; [exact I|].
    destruct H3 as (H3 & _). destruct rev; lia.
Qed.

Lemma insert_sorted_with_key {A} rev k (kv : Z * A) : forall l,
  keyed_order rev l ->
  with_key k (insert_sorted (beforeZ rev) kv l) = with_key k l ++ with_key k [kv].
Proof.
  induction l as [|e l IH]; intros Ho; cbn [insert_sorted].
  - reflexivity.
  - destruct (beforeZ rev (fst kv) (fst e)) eqn:Eb.
    + (* everything from [e] on has a key strictly beyond that of [kv] *)
      pose proof (in_order_from rev e l Ho) as Hfrom.
      assert (Hnone : fst kv = k -> with_key k (e :: l) = []).
      { intros Hk. unfold with_key.
        assert (Hall : Forall (fun e' => (fst e' =? k) = false) (e :: l)).
        { unfold beforeZ in Eb.
          constructor.
          - apply Z.eqb_neq. destruct rev; apply Z.ltb_lt in Eb; lia.
          - eapply Forall_impl; [|exact Hfrom]. cbn. intros e' He'.
            apply Z.eqb_neq. destruct rev; apply Z.ltb_lt in Eb; lia. }
        clear - Hall. induction Hall as [|x0 l0 Hx _ IH]; [reflexivity|].
        cbn [filter]. rewrite Hx. exact IH. }
      unfold with_key in *. cbn [filter].
      destruct (Z.eqb_spec (fst kv) k) as [Hk|Hk].
      * specialize (Hnone Hk). cbn [filter] in Hnone. rewrite Hnone. reflexivity.
      * rewrite app_nil_r. reflexivity.
    + unfold with_key in *. cbn [filter].
      rewrite (IH (in_order_tail _ _ _ _ Ho)).
      destruct (fst e =? k); reflexivity.
Qed.

Lemma sort_fold_with_key {A} rev k (l : list (Z * A)) : forall acc,
  keyed_order rev acc ->
  with_key k (fold_left (fun acc0 kv => insert_sorted (beforeZ rev) kv acc0) l acc)
  = with_key k acc ++ with_key k l.
Proof.
  induction l as [|kv l IH]; intros acc Ho; cbn [fold_left].
  - unfold with_key. cbn. rewrite app_nil_r. reflexivity.
  - rewrite IH by (apply insert_sorted_order; exact Ho).
    rewrite insert_sorted_with_key by exact Ho.
    rewrite <- app_assoc. f_equal.
    unfold with_key. cbn [filter]. destruct (fst kv =? k); reflexivity.
Qed.

Lemma decorate_int (f : Item.t -> Z) : forall l,
  decorate (fun el => Ok (f el)) l = Ok (map (fun el => (f el, el)) l).
Proof.
  induction l as [|a l IH]; cbn [decorate map]; [reflexivity|].
  unfold bind_result. rewrite IH. reflexivity.
Qed.

Lemma in_order_map_snd (f : Item.t -> Z) rev : forall (l : list (Z * Item.t)),
  Forall (fun e => fst e = f (snd e)) l ->
  keyed_order rev l -> in_order f rev (map snd l).
Proof.
  unfold keyed_order.
  induction l as [|e l IH]; intros Hall Ho; cbn [map in_order]; [exact I|].
  inversion Hall as [|? ? He Hl]; subst.
  destruct Ho as (Hhead & Ho). split; [|apply IH; assumption].
  destruct l as [|e' l]; [exact I|]. cbn [map].
  inversion Hl as [|? ? He' _]; subst. rewrite <- He, <- He'. exact Hhead.
Qed.

Lemma filter_map_snd (f : Item.t -> Z) k : forall (l : list (Z * Item.t)),
  Forall (fun e => fst e = f (snd e)) l ->
  filter (fun el => f el =? k) (map snd l) = map snd (with_key k l).
Proof.
  unfold with_key.
  induction l as [|e l IH]; intros Hall; cbn [map filter]; [reflexivity|].
  inversion Hall as [|? ? He Hl]; subst. rewrite <- He.
  destruct (fst e =? k); cbn [map]; rewrite IH by assumption; reflexivity.
Qed.

(** What [list.sort] does to a list with integer keys. *)
Lemma list_sort_int (f : Item.t -> Z) rev (l : list Item.t) :
  let sorted := list_sort Z.ltb rev (map (fun el => (f el, el)) l) in
  Permutation l sorted
  /\ in_order f rev sorted
  /\ forall k, filter (fun el => f el =? k) sorted
               = filter (fun el => f el =? k) l.
Proof.
  intros sorted.
  set (keyed := map (fun el => (f el, el)) l) in *.
  assert (Hsnd : map snd keyed = l).
  { subst keyed. rewrite map_map. cbn. apply map_id. }
  assert (Hbefore : (if rev then (fun a b => b <? a) else Z.ltb) = beforeZ rev)
    by reflexivity.
  set (out := fold_left (fun acc kv => insert_sorted (beforeZ rev) kv acc) keyed []).
  assert (Hsorted : sorted = map snd out) by reflexivity.
  assert (Hperm : Permutation keyed out) by (apply (sort_fold_perm _ keyed [])).
  assert (Hkeys : Forall (fun e => fst e = f (snd e)) out).
  { rewrite Forall_forall. intros e He.
    apply (Permutation_in _ (Permutation_sym Hperm)) in He.
    subst keyed. apply in_map_iff in He. destruct He as (el & <- & _). reflexivity. }
  assert (Hkeys0 : Forall (fun e => fst e = f (snd e)) keyed).
  { rewrite Forall_forall. intros e He.
    subst keyed. apply in_map_iff in He. destruct He as (el & <- & _). reflexivity. }
  split; [|split].
  - rewrite Hsorted, <- Hsnd at 1. apply Permutation_map. exact Hperm.
  - rewrite Hsorted. apply in_order_map_snd; [exact Hkeys|].
    apply (sort_fold_order rev keyed []). exact I.
  - intros k. rewrite Hsorted, filter_map_snd by exact Hkeys.
    subst out. rewrite (sort_fold_with_key rev k keyed []) by exact I.
    cbn [with_key filter app]. fold (with_key k keyed).
    rewrite <- (filter_map_snd f k keyed Hkeys0). rewrite Hsnd. reflexivity.
Qed.

Context {G Sh MR F : Type}.
Context {GA : GuillotineAPI G} {SA : SheetAPI Sh}
        {MA : MaximalRectangleAPI MR} {FA : FloatAPI F}.

Lemma sort_items_int (f : Item.t -> Z) rev (m : BinManager.t G Sh MR) :
  exists l',
    BinManager.sort_items (fun el => Ok (f el)) Z.ltb rev m
    = Returns tt (BinManager.set_items m l')
    /\ Permutation (BinManager.items m) l'
    /\ in_order f rev l'
    /\ forall k, filter (fun el => f el =? k) l'
                 = filter (fun el => f el =? k) (BinManager.items m).
Proof.
  unfold BinManager.sort_items. rewrite decorate_int.
  eexists. split; [reflexivity|]. apply list_sort_int.
Qed.

(** X9: for the ten sorting heuristics with integer keys, and for every
    unknown name (sorted as DESCA), items_sort returns and replaces
    self.items by a permutation of it that is in the order of the key,
    ascending or descending, the items of equal key keeping their
    order; nothing else of the manager changes. *)
Theorem items_sort_sorts (m : BinManager.t G Sh MR) (key : Item.t -> Z)
    (descending : bool) :
  sort_order (BinManager.sorting_heuristic m) = Some (key, descending) ->
  exists l',
    BinManager.items_sort (FA := FA) m = Returns tt (BinManager.set_items m l')
    /\ Permutation (BinManager.items m) l'
    /\ in_order key descending l'
    /\ forall k, filter (fun el => key el =? k) l'
                 = filter (fun el => key el =? k) (BinManager.items m).
Proof.
  unfold sort_order, BinManager.items_sort. cbv zeta.
  repeat match goal with
         | |- context [if ?c then _ else _] => destruct c
         end;
    intros Hso; inversion Hso; subst; apply sort_items_int.
Qed.

Lemma sort_items_perm {K} (key : Item.t -> result K) (lt : K -> K -> bool) rev
    (m : BinManager.t G Sh MR) :
  match BinManager.sort_items key lt rev m with
  | Returns _ m' =>
      exists l', m' = BinManager.set_items m l'
                 /\ Permutation (BinManager.items m) l'
  | Raises _ m' => m' = m
  end.
Proof.
  unfold BinManager.sort_items.
  destruct (decorate key (BinManager.items m)) as [keyed|e] eqn:Ed; [|reflexivity].
  eexists. split; [reflexivity|].
  rewrite <- (decorate_snd key _ _ Ed) at 1. apply list_sort_perm.
Qed.

Lemma items_sort_perm (m : BinManager.t G Sh MR) :
  match BinManager.items_sort (FA := FA) m with
  | Returns _ m' =>
      exists l', m' = BinManager.set_items m l'
                 /\ Permutation (BinManager.items m) l'
  | Raises _ m' => m' = m
  end.
Proof.
  unfold BinManager.items_sort. cbv zeta.
  repeat match goal with
         | |- context [if ?c then _ else _] => destruct c
         end; apply sort_items_perm.
Qed.

(** X10: add_items appends the new items and then sorts when sorting
    is on: when it returns, self.items is a permutation of the old
    items followed by the new ones (that very list when sorting is off)
    and nothing else of the manager changed; when it raises (a ratio
    key that divides by zero), self.items is the old items followed by
    the new ones, not sorted. *)
Theorem add_items_keeps_items (m : BinManager.t G Sh MR) (new_items : list Item.t) :
  match BinManager.add_items (FA := FA) m new_items with
  | Returns _ m' =>
      exists l', m' = BinManager.set_items m l'
                 /\ Permutation (BinManager.items m ++ new_items) l'
                 /\ (BinManager.sorting m = false
                     -> l' = BinManager.items m ++ new_items)
  | Raises _ m' =>
      m' = BinManager.set_items m (BinManager.items m ++ new_items)
  end.
Proof.
  unfold BinManager.add_items.
  change (BinManager.sorting (BinManager.set_items m (BinManager.items m ++ new_items)))
    with (BinManager.sorting m).
  destruct (BinManager.sorting m).
  - pose proof (items_sort_perm
                  (BinManager.set_items m (BinManager.items m ++ new_items))) as Hs.
    destruct (BinManager.items_sort _) as [[] m'|e m'].
    + destruct Hs as (l' & -> & Hp). exists l'.
      split; [reflexivity|]. split; [exact Hp|discriminate].
    + exact Hs.
  - eexists. split; [reflexivity|]. split; [reflexivity|reflexivity].
Qed.

End Sorting.

(** ** The manager: bins opened, items kept *)

Section Execute.

Context {G Sh MR F : Type}.
Context {GA : GuillotineAPI G} {SA : SheetAPI Sh}
        {MA : MaximalRectangleAPI MR} {FA : FloatAPI F}.

Abbreviation mgr := (BinManager.t G Sh MR).

Lemma bin_first_fit_upper (m : mgr) item :
  let m' := fst (state_of (BinManager._bin_first_fit m item)) in
  (List.length (BinManager.bins m') <= S (List.length (BinManager.bins m)))%nat
  /\ BinManager.items m' = BinManager.items m
  /\ BinManager.bin_sel_algo m' = BinManager.bin_sel_algo m.
Proof.
  unfold BinManager._bin_first_fit.
  pose proof (first_fit_loop_length (BinManager.heuristic m) (BinManager.bins m) item)
    as Hlen.
  destruct (BinManager._first_fit_loop _ _ _) as [r [bs it]|e [bs it]];
    simpl in Hlen; [|simpl; repeat split; lia].
  destruct r; simpl; [repeat split; lia|].
  destruct (BinManager._bin_factory _); [|simpl; repeat split; lia].
  destruct (BinManager.Bin_insert _ _ _) as [r [nb it']|e [nb it']];
    simpl; rewrite length_app; simpl; repeat split; lia.
Qed.

Lemma bin_best_fit_upper (m : mgr) item :
  let m' := fst (state_of (BinManager._bin_best_fit m item)) in
  (List.length (BinManager.bins m') <= S (List.length (BinManager.bins m)))%nat
  /\ BinManager.items m' = BinManager.items m
  /\ BinManager.bin_sel_algo m' = BinManager.bin_sel_algo m.
Proof.
  unfold BinManager._bin_best_fit.
  destruct (negb _); [simpl; repeat split; lia|].
  destruct (BinManager._collect_scores _ _ _) as [[|c cs]|e];
    [| |simpl; repeat split; lia].
  - destruct (BinManager._bin_factory m); [|simpl; repeat split; lia].
    destruct (BinManager.Bin_insert _ _ _) as [r [nb it']|e [nb it']];
      simpl; [rewrite length_app; simpl|]; repeat split; lia.
  - destruct (BinManager.min_score c cs) as [[s k]|e]; [|simpl; repeat split; lia].
    destruct (getitem _ k); [|simpl; repeat split; lia].
    destruct (BinManager.Bin_insert _ _ _) as [r [nb it']|e [nb it']];
      simpl; rewrite replace_nth_length; repeat split; lia.
Qed.

Lemma call_sel_algo_upper a (m : mgr) item :
  let m' := fst (state_of (BinManager.call_sel_algo a m item)) in
  (List.length (BinManager.bins m') <= S (List.length (BinManager.bins m)))%nat
  /\ BinManager.items m' = BinManager.items m
  /\ BinManager.bin_sel_algo m' = BinManager.bin_sel_algo m.
Proof.
  destruct a; cbn [BinManager.call_sel_algo].
  - pose proof (bin_best_fit_upper m item) as H.
    destruct (BinManager._bin_best_fit m item); exact H.
  - apply bin_first_fit_upper.
Qed.

Lemma execute_loop_upper : forall todo (m : mgr) i,
  let m' := state_of (BinManager._execute_loop m i todo) in
  (List.length (BinManager.bins m')
   <= List.length (BinManager.bins m) + List.length todo)%nat
  /\ List.length (BinManager.items m') = List.length (BinManager.items m).
Proof.
  induction todo as [|item todo IH]; intros m i; cbn [BinManager._execute_loop].
  - cbn. split; [lia|reflexivity].
  - destruct (BinManager.bin_sel_algo m) as [a|]; [|cbn; split; [lia|reflexivity]].
    pose proof (call_sel_algo_upper a m item) as H.
    destruct (BinManager.call_sel_algo a m item) as [r [m' it]|e [m' it]];
      cbn [state_of fst] in H |- *; destruct H as (Hb & Hi & _).
    + specialize (IH (BinManager.set_items m' (replace_nth (BinManager.items m') i it))
                     (S i)).
      cbn zeta in IH. destruct IH as (IHb & IHi).
      cbn [BinManager.set_items BinManager.bins BinManager.items] in IHb, IHi.
      rewrite replace_nth_length in IHi. cbn [List.length].
      split; [lia|]. rewrite IHi, Hi. reflexivity.
    + cbn [BinManager.set_items BinManager.bins BinManager.items List.length].
      rewrite replace_nth_length. split; [lia|]. rewrite Hi. reflexivity.
Qed.

(** X11: execute, whether it returns or raises, removes no bin, opens
    at most one bin for each item of self.items, and keeps the length
    of self.items. *)
Theorem execute_bounds (m : mgr) :
  let m' := state_of (BinManager.execute m) in
  (List.length (BinManager.bins m) <= List.length (BinManager.bins m'))%nat
  /\ (List.length (BinManager.bins m')
      <= List.length (BinManager.bins m) + List.length (BinManager.items m))%nat
  /\ List.length (BinManager.items m') = List.length (BinManager.items m).
Proof.
  unfold BinManager.execute.
  split; [apply execute_loop_bins|]. apply execute_loop_upper.
Qed.

Lemma add_items_fields (m : mgr) l :
  let m1 := state_of (BinManager.add_items (FA := FA) m l) in
  BinManager.bin_sel_algo m1 = BinManager.bin_sel_algo m
  /\ BinManager.bins m1 = BinManager.bins m
  /\ Permutation (BinManager.items m ++ l) (BinManager.items m1).
Proof.
  unfold BinManager.add_items.
  change (BinManager.sorting (BinManager.set_items m (BinManager.items m ++ l)))
    with (BinManager.sorting m).
  destruct (BinManager.sorting m); [|repeat split; reflexivity].
  pose proof (items_sort_perm (FA := FA)
                (BinManager.set_items m (BinManager.items m ++ l))) as H.
  destruct (BinManager.items_sort _) as [[] m1|e m1]; cbn [state_of].
  - destruct H as (l' & -> & Hp). repeat split; auto.
  - subst m1. repeat split; auto.
Qed.

(** X12: a manager constructed with a bin_algo other than
    'bin_best_fit' and 'bin_first_fit' has no attribute bin_sel_algo:
    after add_items of a list that is not empty, execute raises
    AttributeError at the first item and leaves the manager as it was;
    the bins are those of the constructed manager. *)
Theorem execute_without_bin_algo
    bw bh bin_algo pack_algo heur split rot rmerge wm sorting sheur
    (m : mgr) (new_items : list Item.t) :
  BinManager.__init__ bw bh bin_algo pack_algo heur split rot rmerge wm
                      sorting sheur = Ok m ->
  bin_algo <> "bin_best_fit" -> bin_algo <> "bin_first_fit" ->
  new_items <> [] ->
  let m1 := state_of (BinManager.add_items (FA := FA) m new_items) in
  BinManager.execute m1 = Raises (AttributeError "bin_sel_algo") m1
  /\ BinManager.bins m1 = BinManager.bins m.
Proof.
  intros Hinit Hb Hf Hne m1.
  destruct (add_items_fields m new_items) as (Hsel & Hbins & Hperm).
  fold m1 in Hsel, Hbins, Hperm.
  assert (Hnone : BinManager.bin_sel_algo m = None).
  { unfold BinManager.__init__, bind_result in Hinit.
    destruct (BinManager._bin_factory _); [|discriminate].
    inversion Hinit; subst m. cbn.
    destruct (String.eqb_spec bin_algo "bin_best_fit"); [contradiction|].
    destruct (String.eqb_spec bin_algo "bin_first_fit"); [contradiction|].
    reflexivity. }
  split; [|exact Hbins].
  unfold BinManager.execute.
  destruct (BinManager.items m1) as [|it its] eqn:Eits.
  - exfalso. apply Permutation_sym, Permutation_nil in Hperm.
    apply app_eq_nil in Hperm. destruct Hperm as (_ & Hnil). contradiction.
  - cbn [BinManager._execute_loop]. rewrite Hsel, Hnone. reflexivity.
Qed.

(** X13: the constructor of BinManager raises
    ValueError('Error: No such Algorithm') for a pack_algo other than
    'guillotine', 'shelf', 'maximal_rectangle' and 'skyline'; with
    pack_algo 'skyline' it succeeds, with the one Skyline bin, only for
    the heuristics 'bottom_left' and 'best_fit', and otherwise it
    raises the error of the wastemap's constructor or
    ValueError('No such heuristic!'), which is what the default
    heuristic 'default' gives. *)
Theorem manager_init_errors
    bw bh bin_algo pack_algo heur split rot rmerge wm sorting sheur :
  (pack_algo <> "guillotine" -> pack_algo <> "shelf" ->
   pack_algo <> "maximal_rectangle" -> pack_algo <> "skyline" ->
   BinManager.__init__ (G := G) (Sh := Sh) (MR := MR)
     bw bh bin_algo pack_algo heur split rot rmerge wm sorting sheur
   = Err (ValueError "Error: No such Algorithm"))
  /\ (pack_algo = "skyline" ->
      match BinManager.__init__ (G := G) (Sh := Sh) (MR := MR)
              bw bh bin_algo pack_algo heur split rot rmerge wm sorting sheur with
      | Ok m =>
          (heur = "bottom_left" \/ heur = "best_fit")
          /\ exists s, Skyline.__init__ bw bh rot wm heur = Ok s
                       /\ BinManager.bins m = [BinManager.SkylineBin s]
      | Err e =>
          (wm = true
           /\ Guillotine_init 0 0 rot "best_area" None None = Err e)
          \/ (heur <> "bottom_left" /\ heur <> "best_fit"
              /\ e = ValueError "No such heuristic!")
      end).
Proof.
  split.
  - intros H1 H2 H3 H4.
    unfold BinManager.__init__, BinManager._bin_factory, bind_result.
    cbn [BinManager.algorithm].
    destruct (String.eqb_spec pack_algo "guillotine"); [contradiction|].
    destruct (String.eqb_spec pack_algo "shelf"); [contradiction|].
    destruct (String.eqb_spec pack_algo "maximal_rectangle"); [contradiction|].
    destruct (String.eqb_spec pack_algo "skyline"); [contradiction|].
    reflexivity.
  - intros ->.
    unfold BinManager.__init__, BinManager._bin_factory.
    cbn [BinManager.algorithm BinManager.bin_width BinManager.bin_height
         BinManager.rotation BinManager.wastemap BinManager.heuristic
         String.eqb Ascii.eqb Bool.eqb].
    unfold Skyline.__init__, bind_result.
    destruct wm.
    + destruct (Guillotine_init 0 0 rot "best_area" None None) as [g|e] eqn:Eg.
      * destruct (String.eqb_spec heur "bottom_left") as [->|Hbl].
        { split; [left; reflexivity|]. eexists. split; reflexivity. }
        destruct (String.eqb_spec heur "best_fit") as [->|Hbf].
        { split; [right; reflexivity|]. eexists. split; reflexivity. }
        right. auto.
      * left. auto.
    + destruct (String.eqb_spec heur "bottom_left") as [->|Hbl].
      { split; [left; reflexivity|]. eexists. split; reflexivity. }
      destruct (String.eqb_spec heur "best_fit") as [->|Hbf].
      { split; [right; reflexivity|]. eexists. split; reflexivity. }
      right. auto.
Qed.

End Execute.

(** ** Best fit on Skyline bins *)

Section BestFitSkyline.

Context {G Sh MR : Type}.
Context {GA : GuillotineAPI G} {SA : SheetAPI Sh} {MA : MaximalRectangleAPI MR}.

Lemma check_fit_set_wastemap (self : Skyline.t G) wm w h i :
  Skyline._check_fit (Skyline.set_wastemap self wm) w h i
  = Skyline._check_fit self w h i.
Proof. destruct self; reflexivity. Qed.

Lemma candidates_set_wastemap (self : Skyline.t G) wm item : forall segs i,
  Skyline._candidates (Skyline.set_wastemap self wm) item i segs
  = Skyline._candidates self item i segs.
Proof.
  induction segs as [|s segs IH]; intros i; cbn [Skyline._candidates];
    [reflexivity|].
  rewrite !check_fit_set_wastemap, IH.
  destruct self; reflexivity.
Qed.

Lemma find_best_score_set_wastemap (self : Skyline.t G) wm item :
  Skyline._find_best_score (Skyline.set_wastemap self wm) item
  = Skyline._find_best_score self item.
Proof.
  unfold Skyline._find_best_score. rewrite candidates_set_wastemap.
  destruct self; reflexivity.
Qed.

(** [_place] returns False only when there is no candidate, and True
    only with the item appended. *)
Lemma place_returns (self : Skyline.t G) item r self' item' :
  Skyline._place self item = Returns r (self', item') ->
  if r then Skyline.items self' = Skyline.items self ++ [item']
  else Skyline._find_best_score self item = Ok None.
Proof.
  unfold Skyline._place.
  destruct (Skyline._find_best_score self item) as [[[[[sc seg] rot] y0]|]|e];
    [|intros H; inversion H; reflexivity|discriminate].
  set (item2 := Item.set_xy (if rot then Item.rotate item else item)
                  (SkylineSegment.x seg) y0).
  destruct (update_segment_frame (Skyline.record_item self item2) seg y0 item2)
    as (wm & Hup).
  destruct (Skyline._update_segment _ _ _ _) as [segs self2|e self2];
    simpl in Hup; subst self2; [|discriminate].
  destruct (merge_segments_frame
              (Skyline.set_skyline
                 (Skyline.set_wastemap (Skyline.record_item self item2) wm) segs))
    as (l & Hm).
  destruct (Skyline._merge_segments _) as [[] self3|e self3];
    simpl in Hm; subst self3; [|discriminate].
  intros H. inversion H; subst. reflexivity.
Qed.

(** insert returns True only with the item appended; it returns False
    only when the skyline has no candidate. *)
Lemma insert_returns (self : Skyline.t G) item hz r self' item' :
  declined_item_kept G ->
  Skyline.insert self item hz = Returns r (self', item') ->
  if r then Skyline.items self' = Skyline.items self ++ [item']
  else Skyline._find_best_score self item = Ok None.
Proof.
  intros Hkept. unfold Skyline.insert.
  destruct (Skyline.wastemap self) as [wm|]; [|discriminate].
  destruct (Guillotine_bool wm).
  - destruct (Guillotine_insert wm item (Some "best_area"))
      as [[|] [wm' item0]|e [wm' item0]] eqn:Eins; [| |discriminate].
    + intros H. inversion H; subst. reflexivity.
    + apply Hkept in Eins. subst item0. intros H.
      apply place_returns in H. destruct r; [exact H|].
      rewrite find_best_score_set_wastemap in H. exact H.
  - apply place_returns.
Qed.

Lemma fresh_has_candidate W H rot wm heur (self : Skyline.t G) item :
  Skyline.__init__ W H rot wm heur = Ok self ->
  0 < Item.width item -> 0 < Item.height item ->
  fits_plain W H item || fits_rotated W H rot item = true ->
  Skyline._find_best_score self item <> Ok None.
Proof.
  intros Hinit Hiw Hih Hfit.
  destruct (init_shape _ _ _ _ _ _ Hinit)
    as (Hw & Hh & Hsky & _ & _ & _ & Hrot & _).
  pose proof (find_best_score_fresh self item W H Hw Hh Hsky Hiw Hih) as Hb.
  rewrite Hrot, Hfit in Hb. destruct Hb as (sc & ->). discriminate.
Qed.

Lemma nth_error_replace_nth {A} : forall (l : list A) k j a,
  j <> k -> nth_error (replace_nth l k a) j = nth_error l j.
Proof.
  induction l as [|e l IH]; intros [|k] [|j] a Hne; cbn; try reflexivity;
    try congruence.
  apply IH. congruence.
Qed.

Lemma nth_error_replace_nth_same {A} : forall (l : list A) k a b,
  nth_error l k = Some b -> nth_error (replace_nth l k a) k = Some a.
Proof.
  induction l as [|e l IH]; intros [|k] a b H; cbn in *; try discriminate.
  - reflexivity.
  - eapply IH; eauto.
Qed.


End BestFitSkyline.

(** ** execute packs every item *)

Section ExecutePacks.

Context {G Sh MR : Type}.
Context {GA : GuillotineAPI G} {SA : SheetAPI Sh} {MA : MaximalRectangleAPI MR}.

Abbreviation mgr' := (BinManager.t G Sh MR).
Abbreviation bins' := (list (BinManager.Bin G Sh MR)).

Lemma place_items_grow (self : Skyline.t G) item :
  exists l, Skyline.items (fst (state_of (Skyline._place self item)))
            = Skyline.items self ++ l.
Proof.
  unfold Skyline._place.
  destruct (Skyline._find_best_score self item) as [[[[[sc seg] rot] y0]|]|e];
    [|exists []; cbn; rewrite app_nil_r; reflexivity
     |exists []; cbn; rewrite app_nil_r; reflexivity].
  set (item2 := Item.set_xy (if rot then Item.rotate item else item)
                  (SkylineSegment.x seg) y0).
  destruct (update_segment_frame (Skyline.record_item self item2) seg y0 item2)
    as (wm & Hup).
  destruct (Skyline._update_segment _ _ _ _) as [segs self2|e self2];
    simpl in Hup; subst self2; [|exists [item2]; reflexivity].
  destruct (merge_segments_frame
              (Skyline.set_skyline
                 (Skyline.set_wastemap (Skyline.record_item self item2) wm) segs))
    as (l & Hm).
  destruct (Skyline._merge_segments _) as [[] self3|e self3];
    simpl in Hm; subst self3; exists [item2]; reflexivity.
Qed.

Lemma insert_items_grow (self : Skyline.t G) item hz :
  exists l, Skyline.items (fst (state_of (Skyline.insert self item hz)))
            = Skyline.items self ++ l.
Proof.
  unfold Skyline.insert.
  destruct (Skyline.wastemap self) as [wm|];
    [|exists []; cbn; rewrite app_nil_r; reflexivity].
  destruct (Guillotine_bool wm); [|apply place_items_grow].
  destruct (Guillotine_insert wm item (Some "best_area"))
    as [[|] [wm' it']|e [wm' it']].
  - exists [it']. reflexivity.
  - apply (place_items_grow (Skyline.set_wastemap self (Some wm')) it').
  - exists []. cbn. rewrite app_nil_r. reflexivity.
Qed.

Lemma place_false_item (self : Skyline.t G) item self' item' :
  Skyline._place self item = Returns false (self', item') -> item' = item.
Proof.
  unfold Skyline._place.
  destruct (Skyline._find_best_score self item) as [[[[[sc seg] rot] y0]|]|e];
    [|intros H; inversion H; reflexivity|discriminate].
  destruct (Skyline._update_segment _ _ _ _) as [segs self2|e self2];
    [|discriminate].
  destruct (Skyline._merge_segments _) as [[] self3|e self3]; discriminate.
Qed.

Lemma insert_false_item (self : Skyline.t G) item hz self' item' :
  declined_item_kept G ->
  Skyline.insert self item hz = Returns false (self', item') -> item' = item.
Proof.
  intros Hkept. unfold Skyline.insert.
  destruct (Skyline.wastemap self) as [wm|]; [|discriminate].
  destruct (Guillotine_bool wm); [|apply place_false_item].
  destruct (Guillotine_insert wm item (Some "best_area"))
    as [[|] [wm' it']|e [wm' it']] eqn:Eins; [discriminate| |discriminate].
  apply Hkept in Eins. subst it'. apply place_false_item.
Qed.

Lemma held_cons_grown (s s' : Skyline.t G) l (bs bs' : bins') it :
  Skyline.items s' = Skyline.items s ++ l ->
  (forall it0, held bs it0 -> held bs' it0) ->
  held (BinManager.SkylineBin s :: bs) it ->
  held (BinManager.SkylineBin s' :: bs') it.
Proof.
  intros Hl Hk (s0 & [Heq|Hin] & Hit).
  - inversion Heq; subst s0. exists s'. split; [left; reflexivity|].
    rewrite Hl. apply in_or_app. left. exact Hit.
  - destruct (Hk it (ex_intro _ s0 (conj Hin Hit))) as (s1 & Hin1 & Hit1).
    exists s1. split; [right; exact Hin1|exact Hit1].
Qed.

Lemma held_tail (b : BinManager.Bin G Sh MR) (bs : bins') it :
  held bs it -> held (b :: bs) it.
Proof. intros (s & Hin & Hit). exists s. split; [right; exact Hin|exact Hit]. Qed.

Lemma held_app_l (bs extra : bins') it : held bs it -> held (bs ++ extra) it.
Proof.
  intros (s & Hin & Hit). exists s. split; [|exact Hit].
  apply in_or_app. left. exact Hin.
Qed.

(** The loop of first fit over Skyline bins. *)
Lemma first_fit_loop_skyline h : forall (bs : bins') item,
  declined_item_kept G -> skyline_bins bs ->
  let out := BinManager._first_fit_loop h bs item in
  skyline_bins (fst (state_of out))
  /\ (forall it, held bs it -> held (fst (state_of out)) it)
  /\ match out with
     | Returns true (bs', item') => held bs' item'
     | Returns false (_, item') => item' = item
     | Raises _ _ => True
     end.
Proof.
  induction bs as [|b bs IH]; intros item Hkept Hsky; cbn [BinManager._first_fit_loop].
  - cbn. repeat split; auto.
  - inversion Hsky as [|? ? (s & ->) Hrest]; subst.
    cbn [BinManager.Bin_insert].
    destruct (insert_items_grow s item (Some h)) as (l & Hl).
    destruct (Skyline.insert s item (Some h)) as [[|] [s' it']|e [s' it']] eqn:Eins;
      cbn [state_of fst] in Hl |- *.
    + split; [constructor; [eauto|exact Hrest]|]. split.
      * intros it. apply (held_cons_grown s s' l); auto.
      * pose proof (insert_returns s item _ true s' it' Hkept Eins) as Hr.
        cbn in Hr. exists s'. split; [left; reflexivity|].
        rewrite Hr. apply in_or_app. right. left. reflexivity.
    + apply (insert_false_item _ _ _ _ _ Hkept) in Eins as Hsame. subst it'.
      specialize (IH item Hkept Hrest). cbn zeta in IH.
      destruct (BinManager._first_fit_loop h bs item)
        as [r [bs' it'']|e [bs' it'']]; cbn [state_of fst] in IH |- *;
        destruct IH as (A & B & C).
      * split; [constructor; [eauto|exact A]|]. split.
        -- intros it. apply (held_cons_grown s s' l); auto.
        -- destruct r; [apply held_tail; exact C|exact C].
      * split; [constructor; [eauto|exact A]|]. split; [|exact I].
        intros it. apply (held_cons_grown s s' l); auto.
    + split; [constructor; [eauto|exact Hrest]|]. split; [|exact I].
      intros it. apply (held_cons_grown s s' l); auto.
Qed.

Lemma skyline_bins_one (s : Skyline.t G) :
  skyline_bins (Sh := Sh) (MR := MR) [BinManager.SkylineBin s].
Proof. unfold skyline_bins. apply Forall_cons; [eauto|apply Forall_nil]. Qed.

Lemma skyline_bins_app (bs extra : bins') :
  skyline_bins bs -> skyline_bins extra -> skyline_bins (bs ++ extra).
Proof. unfold skyline_bins. intros. apply Forall_app. auto. Qed.

Lemma factory_skyline (m : mgr') b :
  BinManager.algorithm m = "skyline" ->
  BinManager._bin_factory m = Ok b ->
  exists s, b = BinManager.SkylineBin s
            /\ Skyline.__init__ (BinManager.bin_width m) (BinManager.bin_height m)
                 (BinManager.rotation m) (BinManager.wastemap m)
                 (BinManager.heuristic m) = Ok s.
Proof.
  intros Halg. unfold BinManager._bin_factory. rewrite Halg.
  cbn [String.eqb Ascii.eqb Bool.eqb]. unfold bind_result.
  destruct (Skyline.__init__ _ _ _ _ _) as [s|e]; [|discriminate].
  intros H. inversion H. eauto.
Qed.

(** A new Skyline bin takes an item that fits. *)
Lemma fresh_insert_holds W H rot wm heur (s : Skyline.t G) item hz r s' item' :
  declined_item_kept G ->
  Skyline.__init__ W H rot wm heur = Ok s ->
  0 < Item.width item -> 0 < Item.height item ->
  fits_plain W H item || fits_rotated W H rot item = true ->
  Skyline.insert s item hz = Returns r (s', item') ->
  Skyline.items s' = [item'].
Proof.
  intros Hkept Hinit Hiw Hih Hfit Hins.
  pose proof (insert_returns s item hz r s' item' Hkept Hins) as Hr.
  destruct (init_shape _ _ _ _ _ _ Hinit) as (_ & _ & _ & Hits & _).
  destruct r.
  - rewrite Hr, Hits. reflexivity.
  - exfalso. exact (fresh_has_candidate _ _ _ _ _ s item Hinit Hiw Hih Hfit Hr).
Qed.

Lemma first_fit_skyline (m : mgr') item m' item' :
  declined_item_kept G ->
  BinManager.algorithm m = "skyline" ->
  skyline_bins (BinManager.bins m) ->
  0 < Item.width item -> 0 < Item.height item ->
  BinManager.item_fits m item = true ->
  BinManager._bin_first_fit m item = Returns tt (m', item') ->
  (exists bs, m' = BinManager.set_bins m bs)
  /\ skyline_bins (BinManager.bins m')
  /\ (forall it, held (BinManager.bins m) it -> held (BinManager.bins m') it)
  /\ held (BinManager.bins m') item'.
Proof.
  intros Hkept Halg Hsky Hiw Hih Hfit. unfold BinManager._bin_first_fit.
  pose proof (first_fit_loop_skyline (BinManager.heuristic m) (BinManager.bins m)
                item Hkept Hsky) as Hloop. cbn zeta in Hloop.
  destruct (BinManager._first_fit_loop _ _ _) as [r [bs it1]|e [bs it1]];
    cbn [state_of fst] in Hloop; [|discriminate].
  destruct Hloop as (A & B & C).
  destruct r; cbn [negb].
  - intros H. inversion H; subst. clear H.
    split; [eexists; reflexivity|]. cbn [BinManager.set_bins BinManager.bins]. auto.
  - subst it1.
    destruct (BinManager._bin_factory (BinManager.set_bins m bs)) as [nb|e] eqn:Ef;
      [|discriminate].
    apply (factory_skyline (BinManager.set_bins m bs) nb Halg) in Ef.
    destruct Ef as (s & -> & Hinit).
    cbn [BinManager.set_bins BinManager.bin_width BinManager.bin_height
         BinManager.rotation BinManager.wastemap BinManager.heuristic] in Hinit.
    cbn [BinManager.Bin_insert].
    destruct (Skyline.insert s item _) as [r0 [s' it2]|e [s' it2]] eqn:Eins;
      [|discriminate].
    intros H. inversion H; subst. clear H.
    pose proof (fresh_insert_holds _ _ _ _ _ s item _ r0 s' item' Hkept Hinit
                  Hiw Hih Hfit Eins) as Hits.
    split; [eexists; reflexivity|]. cbn [BinManager.set_bins BinManager.bins].
    split; [apply skyline_bins_app; [exact A|apply skyline_bins_one]|].
    split; [intros it Hit; apply held_app_l; auto|].
    exists s'. split; [apply in_or_app; right; left; reflexivity|].
    rewrite Hits. left. reflexivity.
Qed.

Lemma skyline_bins_replace (bs : bins') k s' :
  skyline_bins bs -> skyline_bins (replace_nth bs k (BinManager.SkylineBin s')).
Proof.
  unfold skyline_bins. revert k.
  induction bs as [|b bs IH]; intros [|k] Hs; cbn [replace_nth].
  - constructor.
  - constructor.
  - inversion Hs; subst. constructor; [eauto|assumption].
  - inversion Hs; subst. constructor; [assumption|apply IH; assumption].
Qed.

Lemma held_replace (s s' : Skyline.t G) l : forall (bs : bins') k it,
  nth_error bs k = Some (BinManager.SkylineBin s) ->
  Skyline.items s' = Skyline.items s ++ l ->
  held bs it -> held (replace_nth bs k (BinManager.SkylineBin s')) it.
Proof.
  induction bs as [|b bs IH]; intros [|k] it Hk Hl Hh; cbn in Hk; try discriminate.
  - inversion Hk; subst b. cbn [replace_nth].
    apply (held_cons_grown s s' l bs bs it Hl); auto.
  - cbn [replace_nth]. destruct Hh as (s0 & [Heq|Hin] & Hit).
    + exists s0. split; [left; exact Heq|exact Hit].
    + apply held_tail. apply (IH k it Hk Hl). exists s0. auto.
Qed.

Lemma best_fit_skyline_step (m : mgr') item r m' item' :
  declined_item_kept G ->
  BinManager.algorithm m = "skyline" ->
  skyline_bins (BinManager.bins m) ->
  0 < Item.width item -> 0 < Item.height item ->
  BinManager._bin_best_fit m item = Returns r (m', item') ->
  (exists bs, m' = BinManager.set_bins m bs)
  /\ skyline_bins (BinManager.bins m')
  /\ (forall it, held (BinManager.bins m) it -> held (BinManager.bins m') it)
  /\ held (BinManager.bins m') item'.
Proof.
  intros Hkept Halg Hsky Hiw Hih. unfold BinManager._bin_best_fit.
  destruct (BinManager.item_fits m item) eqn:Efit; cbn [negb]; [|discriminate].
  destruct (BinManager._collect_scores (BinManager.bins m) item O)
    as [[|c cs]|e] eqn:Ec; [| |discriminate].
  - destruct (BinManager._bin_factory m) as [nb|e] eqn:Ef; [|discriminate].
    apply (factory_skyline m nb Halg) in Ef. destruct Ef as (s & -> & Hinit).
    cbn [BinManager.Bin_insert].
    destruct (Skyline.insert s item _) as [r0 [s' it2]|e [s' it2]] eqn:Eins;
      [|discriminate].
    intros H. inversion H; subst. clear H.
    pose proof (fresh_insert_holds _ _ _ _ _ s item _ r0 s' item' Hkept Hinit
                  Hiw Hih Efit Eins) as Hits.
    split; [eexists; reflexivity|]. cbn [BinManager.set_bins BinManager.bins].
    split; [apply skyline_bins_app; [exact Hsky|apply skyline_bins_one]|].
    split; [intros it Hit; apply held_app_l; auto|].
    exists s'. split; [apply in_or_app; right; left; reflexivity|].
    rewrite Hits. left. reflexivity.
  - destruct (BinManager.min_score c cs) as [[sc k]|e] eqn:Em; [|discriminate].
    destruct (collect_scores_spec _ _ _ _ Ec) as (Hin & _).
    destruct (min_score_spec _ _ _ Em) as (Hmem & _).
    apply Hin in Hmem. destruct Hmem as (_ & b & Hb & Hs).
    rewrite Nat.sub_0_r in Hb. unfold getitem. rewrite Hb.
    assert (Hsk : exists s, b = BinManager.SkylineBin s).
    { unfold skyline_bins in Hsky. rewrite Forall_forall in Hsky.
      apply Hsky. eapply nth_error_In; exact Hb. }
    destruct Hsk as (s & ->). cbn [BinManager.Bin_insert].
    destruct (Skyline.insert s item None) as [r0 [s' it']|e [s' it']] eqn:Eins;
      [|discriminate].
    intros H. inversion H; subst. clear H.
    pose proof (insert_returns s item _ r s' item' Hkept Eins) as Hr.
    destruct r.
    + split; [eexists; reflexivity|]. cbn [BinManager.set_bins BinManager.bins].
      split; [apply skyline_bins_replace; exact Hsky|].
      split; [intros it; apply (held_replace s s' [item']); auto|].
      exists s'. split.
      * eapply nth_error_In. eapply nth_error_replace_nth_same. exact Hb.
      * rewrite Hr. apply in_or_app. right. left. reflexivity.
    + exfalso. cbn [BinManager.Bin_best_score] in Hs. unfold bind_result in Hs.
      rewrite Hr in Hs. discriminate.
Qed.

Lemma dispatch_skyline a (m : mgr') item m' item' :
  declined_item_kept G ->
  BinManager.algorithm m = "skyline" ->
  skyline_bins (BinManager.bins m) ->
  0 < Item.width item -> 0 < Item.height item ->
  (a = BinManager.FirstFit -> BinManager.item_fits m item = true) ->
  BinManager.call_sel_algo a m item = Returns tt (m', item') ->
  (exists bs, m' = BinManager.set_bins m bs)
  /\ skyline_bins (BinManager.bins m')
  /\ (forall it, held (BinManager.bins m) it -> held (BinManager.bins m') it)
  /\ held (BinManager.bins m') item'.
Proof.
  intros Hkept Halg Hsky Hiw Hih Hfit. destruct a; cbn [BinManager.call_sel_algo].
  - destruct (BinManager._bin_best_fit m item) as [r [m1 it1]|e [m1 it1]] eqn:Eb;
      [|discriminate].
    intros H. inversion H; subst.
    eapply best_fit_skyline_step; eauto.
  - intros H. eapply first_fit_skyline; eauto.
Qed.

Lemma nth_error_replace_nth_at {A} : forall (l : list A) k a,
  (k < List.length l)%nat -> nth_error (replace_nth l k a) k = Some a.
Proof.
  induction l as [|e l IH]; intros [|k] a Hk; cbn in *; try lia.
  - reflexivity.
  - apply IH. lia.
Qed.

Lemma execute_loop_packs : forall todo (m : mgr') i m',
  declined_item_kept G ->
  BinManager.algorithm m = "skyline" ->
  skyline_bins (BinManager.bins m) ->
  Forall (fun it => 0 < Item.width it /\ 0 < Item.height it) todo ->
  (BinManager.bin_sel_algo m = Some BinManager.FirstFit ->
   Forall (fun it => BinManager.item_fits m it = true) todo) ->
  (forall j it, (j < i)%nat -> nth_error (BinManager.items m) j = Some it ->
                held (BinManager.bins m) it) ->
  (i + List.length todo = List.length (BinManager.items m))%nat ->
  BinManager._execute_loop m i todo = Returns tt m' ->
  forall j it, nth_error (BinManager.items m') j = Some it ->
               held (BinManager.bins m') it.
Proof.
  induction todo as [|item todo IH];
    intros m i m' Hkept Halg Hsky Hpos Hfits Hdone Hlen;
    cbn [BinManager._execute_loop].
  - intros H. inversion H; subst. intros j it Hj.
    apply (Hdone j it); [|exact Hj].
    assert (Hlt : (j < List.length (BinManager.items m'))%nat)
      by (apply nth_error_Some; rewrite Hj; discriminate).
    cbn [List.length] in Hlen. lia.
  - destruct (BinManager.bin_sel_algo m) as [a|] eqn:Ea; [|discriminate].
    inversion Hpos as [|? ? (Hiw & Hih) Hpos']; subst.
    destruct (BinManager.call_sel_algo a m item) as [[] [m1 it1]|e [m1 it1]] eqn:Ec;
      [|discriminate].
    assert (Hfit : a = BinManager.FirstFit -> BinManager.item_fits m item = true).
    { intros ->. specialize (Hfits eq_refl). inversion Hfits; assumption. }
    destruct (dispatch_skyline a m item m1 it1 Hkept Halg Hsky Hiw Hih Hfit Ec)
      as ((bs & ->) & Hsky1 & Hkeep & Hheld).
    cbn [BinManager.set_bins BinManager.bins BinManager.items] in *.
    apply IH; auto.
    + intros Hff. cbn in Hff. rewrite Ea in Hff. specialize (Hfits Hff).
      inversion Hfits; assumption.
    + cbn [BinManager.set_items BinManager.set_bins BinManager.bins BinManager.items].
      intros j it Hj Hnth.
      destruct (Nat.eq_dec j i) as [->|Hne].
      * rewrite nth_error_replace_nth_at in Hnth by (cbn in Hlen; lia).
        inversion Hnth; subst. exact Hheld.
      * rewrite nth_error_replace_nth in Hnth by exact Hne.
        apply Hkeep. apply (Hdone j it); [lia|exact Hnth].
    + cbn [BinManager.set_items BinManager.set_bins BinManager.items].
      rewrite replace_nth_length. cbn in Hlen. lia.
Qed.

(** X15: on a manager of Skyline bins whose items have positive sides
    (and, with first fit, each fit the bin in an allowed orientation),
    when execute returns, self.items has the length it had and every
    item of it is recorded in one of the bins. *)
Theorem execute_packs_all (m m' : mgr') :
  declined_item_kept G ->
  BinManager.algorithm m = "skyline" ->
  skyline_bins (BinManager.bins m) ->
  Forall (fun it => 0 < Item.width it /\ 0 < Item.height it) (BinManager.items m) ->
  (BinManager.bin_sel_algo m = Some BinManager.FirstFit ->
   Forall (fun it => BinManager.item_fits m it = true) (BinManager.items m)) ->
  BinManager.execute m = Returns tt m' ->
  List.length (BinManager.items m') = List.length (BinManager.items m)
  /\ Forall (held (BinManager.bins m')) (BinManager.items m').
Proof.
  intros Hkept Halg Hsky Hpos Hfits Hex.
  split.
  - pose proof (execute_loop_upper (BinManager.items m) m O) as Hup.
    cbn zeta in Hup. unfold BinManager.execute in Hex. rewrite Hex in Hup.
    apply Hup.
  - rewrite Forall_forall. intros it Hit.
    apply In_nth_error in Hit. destruct Hit as (j & Hj).
    unfold BinManager.execute in Hex.
    eapply (execute_loop_packs (BinManager.items m) m O m'); eauto.
    intros j0 it0 Hlt. lia.
Qed.

End ExecutePacks.

(** ** Ties between candidates *)

Section Ties.

Import SkylineSegment.

Lemma min_from_first {A} (lt : A -> A -> bool)
    (Hirr : forall a, lt a a = false)
    (Htrans : forall a b c, lt a b = true -> lt b c = true -> lt a c = true)
    (Hneg : forall a b c, lt a c = true -> lt a b = true \/ lt b c = true) :
  forall l best,
    exists pre post,
      best :: l = pre ++ min_from lt best l :: post
      /\ Forall (fun c => lt (min_from lt best l) c = true) pre.
Proof.
  induction l as [|c l IH]; intros best; cbn [min_from].
  - exists [], []. split; [reflexivity|constructor].
  - destruct (min_from_spec lt Hirr Htrans Hneg l (if lt c best then c else best))
      as (_ & Hmin).
    destruct (lt c best) eqn:Ecb.
    + destruct (IH c) as (pre & post & Heq & Hpre).
      exists (best :: pre), post. split; [cbn [app]; f_equal; exact Heq|].
      constructor; [|exact Hpre].
      destruct (Hneg _ (min_from lt c l) _ Ecb) as [H|H]; [|exact H].
      rewrite (Hmin c (or_introl eq_refl)) in H. discriminate.
    + destruct (IH best) as (pre & post & Heq & Hpre).
      destruct pre as [|p pre].
      * cbn [app] in Heq. injection Heq as Hb Hl.
        exists [], (c :: l). split; [cbn [app]; congruence|constructor].
      * cbn [app] in Heq. injection Heq as Hb Hl. subst p.
        exists (best :: c :: pre), post.
        split; [cbn [app]; congruence|].
        inversion Hpre as [|? ? Hbest Hpre']; subst.
        constructor; [exact Hbest|]. constructor; [|exact Hpre'].
        destruct (Hneg _ c _ Hbest) as [H|H]; [exact H|congruence].
Qed.

Lemma cands_in_order_split : forall (pre : list Skyline.candidate) c post,
  cands_in_order (pre ++ c :: post) ->
  Forall (fun c' => cand_before c' c) pre /\ Forall (cand_before c) post.
Proof.
  induction pre as [|p pre IH]; intros c post Ho; cbn in Ho.
  - split; [constructor|apply Ho].
  - destruct Ho as (Hp & Ho). destruct (IH _ _ Ho) as (A & B).
    split; [|exact B]. constructor; [|exact A].
    rewrite Forall_forall in Hp. apply Hp. apply in_or_app. right. left. reflexivity.
Qed.

Context {G : Type} {GA : GuillotineAPI G}.

Lemma candidates_in_order (self : Skyline.t G) item : forall segs lo i0 cs,
  apart lo segs ->
  Skyline._candidates self item i0 segs = Ok cs ->
  cands_in_order cs /\ Forall (fun c => In (cand_seg c) segs) cs.
Proof.
  induction segs as [|segment rest IH]; intros lo i0 cs Hap Hcs;
    cbn [Skyline._candidates] in Hcs.
  - inversion Hcs. split; constructor.
  - unfold bind_result in Hcs.
    destruct (Skyline._check_fit self (Item.width item) (Item.height item) i0)
      as [fit|]; [|discriminate].
    destruct (match fit with
              | Some y0 =>
                  match Skyline.call_score (Skyline._score self)
                          (Skyline.skyline self) item y0 i0 false with
                  | Ok a => Ok [(a, segment, y0, false)]
                  | Err e => Err e
                  end
              | None => Ok []
              end) as [plain|] eqn:Ep; [|discriminate].
    destruct (if Skyline.rotation self
              then
                match Skyline._check_fit self (Item.height item) (Item.width item) i0 with
                | Ok a =>
                    match a with
                    | Some y0 =>
                        match Skyline.call_score (Skyline._score self)
                                (Skyline.skyline self) item y0 i0 true with
                        | Ok a0 => Ok [(a0, segment, y0, true)]
                        | Err e => Err e
                        end
                    | None => Ok []
                    end
                | Err e => Err e
                end
              else Ok []) as [turned|] eqn:Et; [|discriminate].
    destruct (Skyline._candidates self item (S i0) rest) as [others|] eqn:Eo;
      [|discriminate].
    inversion Hcs; subst cs. clear Hcs.
    destruct Hap as (H1 & H2 & H3).
    destruct (IH _ _ _ H3 Eo) as (Hord & Hin).
    assert (Hafter : Forall (fun c => x segment < x (cand_seg c)) others).
    { pose proof (apart_lower _ _ H3) as Hlow. rewrite Forall_forall in Hlow, Hin.
      rewrite Forall_forall. intros c Hc. specialize (Hlow _ (Hin _ Hc)). lia. }
    assert (Hplain : plain = [] \/ exists sc y0, plain = [(sc, segment, y0, false)]).
    { destruct fit as [y0|]; [|inversion Ep; auto].
      destruct (Skyline.call_score _ _ _ _ _ _) as [sc|]; [|discriminate].
      inversion Ep. right. eauto. }
    assert (Hturned : turned = [] \/ exists sc y0, turned = [(sc, segment, y0, true)]).
    { destruct (Skyline.rotation self); [|inversion Et; auto].
      destruct (Skyline._check_fit self (Item.height item) (Item.width item) i0)
        as [[y0|]|]; [| |discriminate]; [|inversion Et; auto].
      destruct (Skyline.call_score _ _ _ _ _ _) as [sc|]; [|discriminate].
      inversion Et. right. eauto. }
    assert (Hothers_in : Forall (fun c => In (cand_seg c) (segment :: rest)) others).
    { eapply Forall_impl; [|exact Hin]. intros c Hc. right. exact Hc. }
    assert (Hbefore : forall sc y0 rot,
               Forall (cand_before (sc, segment, y0, rot)) others).
    { intros sc y0 rot. eapply Forall_impl; [|exact Hafter].
      intros c Hc. left. exact Hc. }
    destruct Hplain as [->|(sc & y0 & ->)];
      destruct Hturned as [->|(sc' & y0' & ->)]; cbn [app cands_in_order].
    + split; assumption.
    + split; [split; [apply Hbefore|exact Hord]|].
      constructor; [left; reflexivity|exact Hothers_in].
    + split; [split; [apply Hbefore|exact Hord]|].
      constructor; [left; reflexivity|exact Hothers_in].
    + split.
      * split; [|split; [apply Hbefore|exact Hord]].
        constructor; [|apply Hbefore].
        right. repeat split; reflexivity.
      * constructor; [left; reflexivity|].
        constructor; [left; reflexivity|exact Hothers_in].
Qed.

Lemma pair_ltb_equal a b :
  Skyline.pair_ltb a b = false -> Skyline.pair_ltb b a = false -> a = b.
Proof.
  destruct a as [a1 a2], b as [b1 b2]. unfold Skyline.pair_ltb. cbn [fst snd].
  intros H1 H2.
  destruct (Z.ltb_spec a1 b1); [discriminate|].
  destruct (Z.ltb_spec b1 a1); [discriminate|].
  assert (a1 = b1) by lia. subst b1. rewrite Z.eqb_refl in H1, H2.
  cbn in H1, H2. apply Z.ltb_ge in H1, H2. f_equal. lia.
Qed.

(** X16: among the candidates of least score _find_best_score returns
    the first that its loop appends.  On a skyline in increasing
    position: a fitting (segment, orientation) pair whose score is not
    above the returned score has that very score, and its segment lies
    to the right of the returned segment, or is the returned segment
    and then the returned candidate is not rotated or the pair is. *)
Theorem find_best_score_first (self : Skyline.t G) (item : Item.t) (lo : Z)
    (sc : Z * Z) (sg : SkylineSegment.t) (rot : bool) (y0 : Z) :
  apart lo (Skyline.skyline self) ->
  Skyline._find_best_score self item = Ok (Some (sc, sg, rot, y0)) ->
  forall i' rot' sg' y' sc',
    fitting self item i' rot' sg' y' sc' ->
    Skyline.pair_ltb sc sc' = false ->
    sc' = sc
    /\ (x sg < x sg' \/ (sg' = sg /\ (rot = false \/ rot' = true))).
Proof.
  intros Hap Hbest i' rot' sg' y' sc' Hfit Hnlt.
  destruct (find_best_score_spec self item) as (_ & _ & Hsome).
  destruct (Hsome _ _ _ _ Hbest) as (_ & Hmin).
  pose proof (pair_ltb_equal _ _ Hnlt (Hmin _ _ _ _ _ Hfit)) as Heq. subst sc'.
  split; [reflexivity|].
  destruct (candidates_spec self item (Skyline.skyline self) O eq_refl)
    as (cs & Hcs & Hspec).
  destruct (candidates_in_order self item _ lo O cs Hap Hcs) as (Hord & _).
  unfold Skyline._find_best_score, bind_result in Hbest. rewrite Hcs in Hbest.
  destruct cs as [|c cs]; [discriminate|].
  set (lt := fun a b : Skyline.candidate =>
               Skyline.pair_ltb (Skyline.cand_score a) (Skyline.cand_score b)) in *.
  destruct (min_from_first lt
              (fun a => pair_ltb_irrefl _)
              (fun a b c => pair_ltb_trans _ _ _)
              (fun a b c => pair_ltb_neg _ _ _) cs c)
    as (pre & post & Hsplit & Hpre).
  destruct (min_from lt c cs) as [[[msc msg] my] mrot] eqn:Hm.
  inversion Hbest; subst msc msg mrot my. clear Hbest.
  assert (Hin : In (sc, sg', y', rot') (c :: cs)).
  { apply (proj2 (Hspec sc sg' y' rot')). exists i'. split; [lia|exact Hfit]. }
  rewrite Hsplit in Hin, Hord.
  destruct (cands_in_order_split _ _ _ Hord) as (_ & Hpost).
  apply in_app_or in Hin. destruct Hin as [Hin|[Hin|Hin]].
  - exfalso. rewrite Forall_forall in Hpre. specialize (Hpre _ Hin).
    unfold lt, Skyline.cand_score in Hpre. cbn [fst] in Hpre.
    rewrite pair_ltb_irrefl in Hpre. discriminate.
  - inversion Hin; subst. right. split; [reflexivity|].
    destruct rot'; auto.
  - rewrite Forall_forall in Hpost. specialize (Hpost _ Hin).
    unfold cand_before, cand_seg in Hpost. cbn [fst snd] in Hpost.
    destruct Hpost as [Hx|(Hs & Hr & Hr')]; [left; exact Hx|].
    right. split; [symmetry; exact Hs|left; exact Hr].
Qed.

End Ties.

(** ** The wasted area of a candidate *)

Section Waste.

Import SkylineSegment.

Lemma overlap_width_under left right s :
  0 < width s -> left < right ->
  0 <= Spec.overlap_width left right s
  /\ (under left right s -> 0 < Spec.overlap_width left right s)
  /\ (~ under left right s -> Spec.overlap_width left right s = 0).
Proof. unfold Spec.overlap_width, under. lia. Qed.

Lemma wasted_area_sign left right y0 : forall segs,
  left < right ->
  Forall (fun s => 0 < width s) segs ->
  Forall (fun s => under left right s -> y s <= y0) segs ->
  0 <= Spec.wasted_area left right y0 segs
  /\ (Spec.wasted_area left right y0 segs = 0
      <-> Forall (fun s => under left right s -> y s = y0) segs).
Proof.
  intros segs Hlr. induction segs as [|s segs IH]; intros Hpos Hall;
    cbn [Spec.wasted_area].
  - split; [lia|]. split; [constructor|reflexivity].
  - inversion Hpos as [|? ? Hw Hpos']; subst.
    inversion Hall as [|? ? Hs Hall']; subst.
    destruct (IH Hpos' Hall') as (Hge & Hiff).
    destruct (overlap_width_under left right s Hw Hlr) as (O1 & O2 & O3).
    assert (Hterm : 0 <= Spec.overlap_width left right s * (y0 - y s)
                    /\ (Spec.overlap_width left right s * (y0 - y s) = 0
                        <-> (under left right s -> y s = y0))).
    { assert (Hdec : under left right s \/ ~ under left right s)
        by (unfold under; lia).
      destruct Hdec as [Hu|Hn].
      - specialize (Hs Hu). pose proof (O2 Hu) as Hp.
        split; [nia|]. split; [intros H0 _; nia|intros Hy; rewrite (Hy Hu); lia].
      - rewrite (O3 Hn). split; [lia|]. split; [intros _ Hu; contradiction|lia]. }
    destruct Hterm as (T1 & T2).
    split; [lia|]. split.
    + intros Hsum. constructor; [apply T2; lia|apply Hiff; lia].
    + intros Hflat. inversion Hflat as [|? ? Hf Hflat']; subst.
      apply T2 in Hf. apply Hiff in Hflat'. lia.
Qed.

Context {G : Type} {GA : GuillotineAPI G}.

(** X17: with the best_fit heuristic, on a skyline in increasing
    position without overlap, the score of a fitting pair of an item of
    positive width is (wasted area, y + height) with a wasted area that
    is not negative, and that is 0 exactly when every segment of the
    skyline whose x-range meets that of the item has the y at which
    the item is placed. *)
Theorem best_fit_waste (self : Skyline.t G) (item : Item.t) (lo : Z) (i : nat)
    (rot : bool) (sg : SkylineSegment.t) (y0 : Z) (sc : Z * Z) :
  apart lo (Skyline.skyline self) ->
  Skyline._score self = Skyline.BF ->
  0 < turned_width item rot ->
  fitting self item i rot sg y0 sc ->
  0 <= fst sc
  /\ snd sc = turned_height item rot + y0
  /\ (fst sc = 0
      <-> forall s, In s (Skyline.skyline self) ->
                    under (x sg) (x sg + turned_width item rot) s -> y s = y0).
Proof.
  intros Hap Hbf Htw (Hi & _ & Hcf & Hsc).
  rewrite (call_score_total _ _ item y0 i rot sg Hi), Hbf in Hsc.
  inversion Hsc; subst sc. clear Hsc. cbn [fst snd].
  pose proof (apart_skipn _ _ _ _ Hap Hi) as Hfrom.
  rewrite (calc_waste_loop_spec _ _ _ _ (x sg) 0 (Z.le_refl _) Hfrom).
  pose proof (fit_above self _ _ i sg y0 lo Hap Hi Htw Hcf) as Habove.
  assert (Hsub : forall s, In s (skipn i (Skyline.skyline self)) ->
                           In s (Skyline.skyline self)).
  { intros s Hs. rewrite <- (firstn_skipn i (Skyline.skyline self)).
    apply in_or_app. right. exact Hs. }
  destruct (wasted_area_sign (x sg) (x sg + turned_width item rot) y0
              (skipn i (Skyline.skyline self))) as (Hge & Hiff).
  { lia. }
  { apply (apart_positive _ _ Hfrom). }
  { rewrite Forall_forall. intros s Hs Hu. apply Habove; auto. }
  split; [lia|]. split; [reflexivity|].
  replace (0 + Spec.wasted_area (x sg) (x sg + turned_width item rot) y0
                 (skipn i (Skyline.skyline self)))
    with (Spec.wasted_area (x sg) (x sg + turned_width item rot) y0
            (skipn i (Skyline.skyline self))) by lia.
  rewrite Hiff, Forall_forall. split.
  - intros Hflat s Hs Hu.
    rewrite <- (firstn_skipn i (Skyline.skyline self)) in Hs.
    apply in_app_or in Hs. destruct Hs as [Hs|Hs]; [|apply Hflat; assumption].
    exfalso. pose proof (apart_firstn _ _ _ _ Hap Hi) as Hbefore.
    rewrite Forall_forall in Hbefore. specialize (Hbefore _ Hs).
    unfold under in Hu. lia.
  - intros Hflat s Hs Hu. apply Hflat; auto.
Qed.

End Waste.

(** ** What insert changes *)

Section InsertFrame.

Context {G : Type} {GA : GuillotineAPI G}.






End InsertFrame.

(** ** What the skyline covers after an item was placed *)

Section Coverage.

Import SkylineSegment.

Context {G : Type} {GA : GuillotineAPI G}.

Lemma new_skyline_clipped H sky seg item s0 q :
  In s0 sky -> In q (Skyline._clip_segment s0 item) ->
  In q (new_skyline H sky seg item).
Proof.
  intros Hs0 Hq. unfold new_skyline.
  assert (Hin : In q (flat_map (fun sg => Skyline._clip_segment sg item) sky))
    by (apply in_flat_map; exists s0; auto).
  destruct (_ <? _); [apply add_In; right|]; exact Hin.
Qed.

Lemma new_skyline_top H sky seg item :
  Item.height item + Item.y item < H ->
  In (SkylineSegment.mk (x seg) (Item.y item + Item.height item) (Item.width item))
     (new_skyline H sky seg item).
Proof.
  intros Hlt. unfold new_skyline.
  destruct (Z.ltb_spec (Item.height item + Item.y item) H); [|lia].
  apply add_In. left. reflexivity.
Qed.

(** X20: what the skyline covers after a placement.  On an engine whose
    skyline tiles [0, W], when insert of an item of positive sides (the
    wastemap placing nothing) returns True, a position lies on a
    segment of the new skyline exactly when it lies in [0, W) and the
    top of the placed item is below the top of the bin or the position
    is outside the x-range of the item: an item whose top reaches the
    top of the bin leaves its x-range without a segment. *)
Theorem insert_coverage W H (self self' : Skyline.t G) (item item' : Item.t)
    (hz : option string) :
  Skyline.width self = W -> Skyline.height self = H ->
  tiles 0 W (Skyline.skyline self) ->
  0 < Item.width item -> 0 < Item.height item ->
  wastemap_declines self item ->
  Skyline.insert self item hz = Returns true (self', item') ->
  forall p,
    (exists s, In s (Skyline.skyline self') /\ covers s p)
    <-> 0 <= p < W
        /\ (Item.y item' + Item.height item' < H \/ ~ spans item' p).
Proof.
  intros Hw Hh Ht Hiw Hih Hdecl Hins p.
  destruct (insert_declined self item hz Hdecl) as (wm & Hpl).
  rewrite Hpl in Hins. clear Hpl.
  set (self0 := Skyline.set_wastemap self wm) in *.
  assert (Ht0 : tiles 0 W (Skyline.skyline self0)) by exact Ht.
  destruct (tiles_apart _ _ _ Ht0) as (Hap & Hwi & _).
  pose proof (place_outcome self0 item Hap Hiw Hih) as Hout.
  rewrite Hins in Hout.
  destruct Hout as (i & seg & rot & y0 & sc & wm' & first & rest
                    & Hfit & -> & Hnew & ->).
  set (item' := placed item rot (x seg) y0) in *.
  destruct (placed_fields item rot (x seg) y0) as (Pw & Ph & Px & Py).
  fold item' in Pw, Ph, Px, Py.
  assert (Htw : 0 < turned_width item rot)
    by (unfold turned_width; destruct rot; assumption).
  destruct (fitting_inside _ _ _ _ _ _ _ Hfit Htw) as (Hx & _ & Hin).
  assert (Hseg0 : 0 <= x seg).
  { pose proof (apart_lower _ _ Hap) as Hlow.
    rewrite Forall_forall in Hlow. exact (Hlow _ Hin). }
  assert (Hw0 : Skyline.width self0 = W) by exact Hw.
  assert (Hh0 : Skyline.height self0 = H) by exact Hh.
  rewrite Hw0 in Hx. rewrite Hh0 in Hnew.
  assert (Hwi0 : within (Skyline.width self0) (Skyline.skyline self0))
    by (rewrite Hw0; exact Hwi).
  destruct (fitting_new_skyline self0 item i rot seg y0 sc Hap Hwi0 Hiw Hih Hfit)
    as (Hap' & _ & _).
  fold item' in Hap'. rewrite Hh0, Hnew in Hap'.
  assert (Hrange : forall s0, In s0 (Skyline.skyline self0) -> covers s0 p ->
                              0 <= p < W).
  { intros s0 Hs0 Hc. unfold covers in Hc.
    pose proof (apart_lower _ _ Hap) as Hlow.
    rewrite Forall_forall in Hlow. specialize (Hlow _ Hs0).
    unfold within in Hwi. rewrite Forall_forall in Hwi. specialize (Hwi _ Hs0).
    lia. }
  assert (Hpos : forall s0, In s0 (Skyline.skyline self0) -> 0 < width s0).
  { intros s0 Hs0. pose proof (apart_positive _ _ Hap) as Hp.
    rewrite Forall_forall in Hp. exact (Hp _ Hs0). }
  cbn [Skyline.set_skyline Skyline.skyline]. split.
  - intros (m & Hm & Hc).
    destruct (merged_covers _ _ _ _ Hm Hc) as (s1 & Hs1 & Hc1 & _).
    rewrite <- Hnew in Hs1. apply new_skyline_In in Hs1.
    destruct Hs1 as [(Htop & ->)|(s0 & Hs0 & Hq)].
    + unfold covers in Hc1. cbn [x y width] in Hc1.
      split; [lia|]. left. lia.
    + destruct (clip_points s0 item' (Hpos _ Hs0)) as (Hpts & _).
      destruct (proj1 (Hpts p) (ex_intro _ s1 (conj Hq Hc1))) as (Hc0 & Hn).
      split; [exact (Hrange _ Hs0 Hc0)|right; exact Hn].
  - intros (Hp & Hcase).
    assert (Hdec : spans item' p \/ ~ spans item' p) by (unfold spans; lia).
    assert (Hcov : exists s1, In s1 (first :: rest) /\ covers s1 p).
    { rewrite <- Hnew. destruct Hdec as [Hsp|Hn].
      - destruct Hcase as [Htop|Hn]; [|contradiction].
        eexists. split; [apply new_skyline_top; lia|].
        unfold covers, spans in *. cbn [x y width]. lia.
      - destruct (tiles_cover _ _ _ p Ht0 Hp) as (s0 & Hs0 & Hc0).
        destruct (clip_points s0 item' (Hpos _ Hs0)) as (Hpts & _).
        destruct (proj2 (Hpts p) (conj Hc0 Hn)) as (q & Hq & Hcq).
        exists q. split; [eapply new_skyline_clipped; eauto|exact Hcq]. }
    destruct Hcov as (s1 & Hs1 & Hc1).
    destruct (covers_merged _ _ _ _ _ Hap' Hs1 Hc1) as (m & Hm & Hcm & _).
    exists m. auto.
Qed.

(** X21: the candidate that _find_best_score returns is the lowest.
    With bottom_left no fitting pair puts the top of the item lower,
    and of those that put it as low none has a narrower segment; with
    best_fit no fitting pair wastes less area, and of those that waste
    as little none puts the top of the item lower. *)
Theorem best_candidate_lowest (self : Skyline.t G) (item : Item.t)
    (sc : Z * Z) (sg : SkylineSegment.t) (rot : bool) (y0 : Z)
    (i' : nat) (rot' : bool) (sg' : SkylineSegment.t) (y' : Z) (sc' : Z * Z) :
  Skyline._find_best_score self item = Ok (Some (sc, sg, rot, y0)) ->
  fitting self item i' rot' sg' y' sc' ->
  match Skyline._score self with
  | Skyline.BL =>
      y0 + turned_height item rot < y' + turned_height item rot'
      \/ (y0 + turned_height item rot = y' + turned_height item rot'
          /\ width sg <= width sg')
  | Skyline.BF =>
      fst sc < fst sc'
      \/ (fst sc = fst sc'
          /\ y0 + turned_height item rot <= y' + turned_height item rot')
  end.
Proof.
  intros Hbest Hfit'.
  destruct (find_best_score_spec self item) as (_ & _ & Hsome).
  destruct (Hsome _ _ _ _ Hbest) as ((i & Hfit) & Hmin).
  specialize (Hmin _ _ _ _ _ Hfit').
  destruct Hfit as (Hi & _ & _ & Hsc). destruct Hfit' as (Hi' & _ & _ & Hsc').
  rewrite (call_score_total _ _ item y0 i rot sg Hi) in Hsc.
  rewrite (call_score_total _ _ item y' i' rot' sg' Hi') in Hsc'.
  unfold Skyline.pair_ltb in Hmin.
  destruct (Skyline._score self); inversion Hsc; inversion Hsc'; subst sc sc';
    cbn [fst snd] in Hmin |- *;
    repeat match type of Hmin with
           | context [(?a <? ?b)] => destruct (Z.ltb_spec a b)
           | context [(?a =? ?b)] => destruct (Z.eqb_spec a b)
           end; cbn in Hmin; try discriminate; lia.
Qed.

End Coverage.

(** ** The rectangles given to the wastemap *)

Section WasteRects.

Import SkylineSegment.

Context {G : Type} {GA : GuillotineAPI G}.

Lemma add_to_wastemap_loop_donate left right y0 : forall segs (wm : option G),
  Skyline._add_to_wastemap_loop left right y0 segs wm
  = donate (waste_rects left right y0 segs) wm.
Proof.
  induction segs as [|seg rest IH]; intros wm;
    cbn [Skyline._add_to_wastemap_loop waste_rects]; [reflexivity|].
  destruct ((x seg >=? right) || (x seg + width seg <=? left)); [reflexivity|].
  cbv zeta.
  destruct ((Z.min right (x seg + width seg) - x seg >? 0) && (y0 - y seg >? 0));
    cbn [app donate]; [|apply IH].
  destruct wm as [g|]; [|reflexivity].
  destruct (Guillotine_rectangle_merge _) as [[] g'|e g']; [apply IH|reflexivity].
Qed.

Lemma waste_rects_from left right y0 : forall segs lo r,
  left <= lo -> apart lo segs ->
  In r (waste_rects left right y0 segs) ->
  exists s, In s segs
            /\ fr_x r = x s /\ fr_y r = y s
            /\ fr_width r = Z.min right (x s + width s) - x s
            /\ fr_height r = y0 - y s
            /\ 0 < fr_width r /\ 0 < fr_height r
            /\ left <= x s.
Proof.
  induction segs as [|seg rest IH]; intros lo r Hlo Hap Hin;
    cbn [waste_rects] in Hin; [destruct Hin|].
  destruct Hap as (H1 & H2 & H3).
  destruct ((x seg >=? right) || (x seg + width seg <=? left)); [destruct Hin|].
  cbv zeta in Hin. apply in_app_or in Hin. destruct Hin as [Hin|Hin].
  - destruct (Z.gtb_spec (Z.min right (x seg + width seg) - x seg) 0) as [Hw|Hw];
      [|destruct Hin].
    destruct (Z.gtb_spec (y0 - y seg) 0) as [Hh|Hh]; [|destruct Hin].
    destruct Hin as [<-|[]]. exists seg. cbn [fr_x fr_y fr_width fr_height].
    repeat split; try reflexivity; try lia. left. reflexivity.
  - destruct (IH (x seg + width seg) r ltac:(lia) H3 Hin) as (s & Hs & Hrest).
    exists s. split; [right; exact Hs|exact Hrest].
Qed.

(** X22: the rectangles that _add_to_wastemap gives to the wastemap are
    free.  In an engine that was filled by the skyline alone and not up
    to the top, for a fitting pair, _add_to_wastemap adds to the
    wastemap, in the order of the segments and each followed by
    rectangle_merge (stopping at the first exception), the rectangles
    between the skyline and the bottom of the item; each has positive
    sides, lies in the x-range of the item, starts at a y that is not
    negative, ends at the y of the item, and overlaps no item
    recorded. *)
Theorem donated_rects_free W H (self : Skyline.t G) (item : Item.t)
    (i : nat) (rot : bool) (seg : SkylineSegment.t) (y0 : Z) (sc : Z * Z) :
  0 < W ->
  packed W H self ->
  0 < Item.width item -> 0 < Item.height item ->
  fitting self item i rot seg y0 sc ->
  let item' := placed item rot (x seg) y0 in
  let rects :=
    waste_rects (x seg) (x seg + Item.width item') y0
      (skipn i (Skyline.skyline self)) in
  Skyline._add_to_wastemap self i item' y0
  = match donate rects (Skyline.wastemap self) with
    | Returns _ wm => Returns tt (Skyline.set_wastemap self wm)
    | Raises e wm => Raises e (Skyline.set_wastemap self wm)
    end
  /\ Forall (fun r =>
               0 < fr_width r /\ 0 < fr_height r
               /\ Item.x item' <= fr_x r
               /\ fr_x r + fr_width r <= Item.x item' + Item.width item'
               /\ 0 <= fr_y r
               /\ fr_y r + fr_height r = Item.y item'
               /\ Forall (fun it => ~ rect_overlaps r it) (Skyline.items self))
            rects.
Proof.
  intros HW Hp Hiw Hih Hfit item' rects.
  destruct (packed_well_packed W H self HW Hp) as (Hw & Hh & Ht & Hnn & Hits & _).
  destruct (tiles_apart _ _ _ Ht) as (Hap & _ & _).
  destruct (placed_fields item rot (x seg) y0) as (Pw & Ph & Px & Py).
  fold item' in Pw, Ph, Px, Py.
  pose proof Hfit as (Hi & _ & _ & _).
  split.
  - unfold Skyline._add_to_wastemap, getitem. rewrite Hi.
    rewrite add_to_wastemap_loop_donate. reflexivity.
  - pose proof (apart_skipn _ _ _ _ Hap Hi) as Hfrom.
    rewrite Forall_forall. intros r Hr. subst rects.
    destruct (waste_rects_from _ _ _ _ (x seg) r (Z.le_refl _) Hfrom Hr)
      as (s & Hs & Rx & Ry & Rw & Rh & Pwd & Pht & Hleft).
    assert (Hs' : In s (Skyline.skyline self)).
    { rewrite <- (firstn_skipn i (Skyline.skyline self)).
      apply in_or_app. right. exact Hs. }
    assert (Hsy : 0 <= y s).
    { rewrite Forall_forall in Hnn. exact (Hnn _ Hs'). }
    rewrite Px, Py.
    split; [exact Pwd|]. split; [exact Pht|].
    split; [lia|]. split; [lia|]. split; [lia|]. split; [lia|].
    rewrite Forall_forall. intros it Hit (O1 & O2 & O3 & O4).
    rewrite Forall_forall in Hits.
    destruct (Hits _ Hit) as (Hitw & _ & _ & Hbel).
    set (p := Z.max (fr_x r) (Item.x it)).
    assert (Hc : covers s p) by (unfold covers; subst p; lia).
    assert (Hsp : spans it p) by (unfold spans; subst p; lia).
    specialize (Hbel s p Hs' Hc Hsp). lia.
Qed.

End WasteRects.

(** ** The further facts on the examples *)

Lemma check_fit_smaller_witness :
  exists y1, Skyline._check_fit skyline_after_4x3 5 1 0 = Ok (Some y1) /\ y1 <= 3.
Proof.
  apply (check_fit_smaller skyline_after_4x3 6 2 5 1 0 (SkylineSegment.mk 0 3 4) 3).
  - reflexivity.
  - lia.
  - lia.
  - lia.
  - reflexivity.
Defined.

Lemma merge_segments_keeps_heights_witness :
  exists sky',
    Skyline._merge_segments unmerged_skyline
    = Returns tt (Skyline.set_skyline unmerged_skyline sky')
    /\ (forall p h, height_at sky' p h
                    <-> height_at (Skyline.skyline unmerged_skyline) p h)
    /\ apart 0 sky'
    /\ no_equal_touching sky'
    /\ (List.length sky' <= List.length (Skyline.skyline unmerged_skyline))%nat
    /\ Skyline._merge_segments (Skyline.set_skyline unmerged_skyline sky')
       = Returns tt (Skyline.set_skyline unmerged_skyline sky').
Proof.
  apply (merge_segments_keeps_heights unmerged_skyline 0).
  - simpl. lia.
  - discriminate.
Defined.

Lemma insert_places_inside_witness :
  Skyline.skyline skyline_after_4x3 = Skyline.skyline (fresh_skyline 10 10 true)
  \/ (exists rot seg,
         In seg (Skyline.skyline (fresh_skyline 10 10 true))
         /\ (rot = true -> Skyline.rotation (fresh_skyline 10 10 true) = true)
         /\ item_after_4x3
            = placed (new_item 4 3) rot (SkylineSegment.x seg) (Item.y item_after_4x3)
         /\ inside 10 10 item_after_4x3
         /\ forall s, In s (Skyline.skyline (fresh_skyline 10 10 true)) ->
                      under (Item.x item_after_4x3)
                            (Item.x item_after_4x3 + Item.width item_after_4x3) s ->
                      SkylineSegment.y s <= Item.y item_after_4x3).
Proof.
  apply (insert_places_inside 10 10 (fresh_skyline 10 10 true) skyline_after_4x3
           (new_item 4 3) item_after_4x3 None).
  - exact Guillotine_declined_item_kept.
  - lia.
  - apply (reachable_init 10 10 true true "bottom_left"). reflexivity.
  - simpl. lia.
  - simpl. lia.
  - reflexivity.
Defined.



Lemma items_sort_sorts_witness :
  exists l',
    BinManager.items_sort (FA := quotient_floats) (manager_with_items "bin_best_fit")
    = Returns tt (BinManager.set_items (manager_with_items "bin_best_fit") l')
    /\ Permutation (BinManager.items (manager_with_items "bin_best_fit")) l'
    /\ in_order item_area true l'
    /\ forall k, filter (fun el => item_area el =? k) l'
                 = filter (fun el => item_area el =? k)
                     (BinManager.items (manager_with_items "bin_best_fit")).
Proof.
  apply (items_sort_sorts (FA := quotient_floats)
           (manager_with_items "bin_best_fit") item_area true).
  reflexivity.
Defined.

Lemma execute_without_bin_algo_witness :
  BinManager.execute
    (state_of (BinManager.add_items (FA := quotient_floats)
                 (example_manager "bin_worst_fit") [new_item 4 3]))
  = Raises (AttributeError "bin_sel_algo")
      (state_of (BinManager.add_items (FA := quotient_floats)
                   (example_manager "bin_worst_fit") [new_item 4 3]))
  /\ BinManager.bins
       (state_of (BinManager.add_items (FA := quotient_floats)
                    (example_manager "bin_worst_fit") [new_item 4 3]))
     = BinManager.bins (example_manager "bin_worst_fit").
Proof.
  apply (execute_without_bin_algo (FA := quotient_floats)
           10 10 "bin_worst_fit" "skyline" "bottom_left" "default"
           true true true true "DESCA"
           (example_manager "bin_worst_fit") [new_item 4 3]).
  - reflexivity.
  - discriminate.
  - discriminate.
  - discriminate.
Defined.


Lemma execute_packs_all_witness :
  List.length (BinManager.items manager_after_execute)
  = List.length (BinManager.items (manager_with_items "bin_first_fit"))
  /\ Forall (held (BinManager.bins manager_after_execute))
            (BinManager.items manager_after_execute).
Proof.
  apply (execute_packs_all (manager_with_items "bin_first_fit") manager_after_execute).
  - exact Guillotine_declined_item_kept.
  - reflexivity.
  - apply Forall_cons; [eexists; reflexivity|apply Forall_nil].
  - repeat (apply Forall_cons; [simpl; lia|]). apply Forall_nil.
  - intros _. repeat (apply Forall_cons; [reflexivity|]). apply Forall_nil.
  - reflexivity.
Defined.

Lemma find_best_score_first_witness :
  (3, 10) = (3, 10)
  /\ (SkylineSegment.x (SkylineSegment.mk 0 0 10)
      < SkylineSegment.x (SkylineSegment.mk 0 0 10)
      \/ (SkylineSegment.mk 0 0 10 = SkylineSegment.mk 0 0 10
          /\ (false = false \/ true = true))).
Proof.
  apply (find_best_score_first (fresh_skyline 10 10 true) (new_item 3 3) 0
           (3, 10) (SkylineSegment.mk 0 0 10) false 0
           ltac:(simpl; lia) eq_refl
           O true (SkylineSegment.mk 0 0 10) 0 (3, 10)).
  - split; [reflexivity|]. split; [reflexivity|]. split; reflexivity.
  - reflexivity.
Defined.

Lemma best_fit_waste_witness :
  0 <= fst (6, 5)
  /\ snd (6, 5) = turned_height (new_item 6 2) false + 3
  /\ (fst (6, 5) = 0
      <-> forall s, In s (Skyline.skyline best_fit_after_4x3) ->
                    under (SkylineSegment.x (SkylineSegment.mk 0 3 4))
                          (SkylineSegment.x (SkylineSegment.mk 0 3 4)
                           + turned_width (new_item 6 2) false) s ->
                    SkylineSegment.y s = 3).
Proof.
  apply (best_fit_waste best_fit_after_4x3 (new_item 6 2) 0 O false
           (SkylineSegment.mk 0 3 4) 3 (6, 5)).
  - simpl. lia.
  - reflexivity.
  - simpl. lia.
  - split; [reflexivity|]. split; [discriminate|]. split; reflexivity.
Defined.

Lemma insert_coverage_witness :
  (exists s, In s (Skyline.skyline skyline_after_4x10) /\ covers s 2)
  <-> 0 <= 2 < 10
      /\ (Item.y item_after_4x10 + Item.height item_after_4x10 < 10
          \/ ~ spans item_after_4x10 2).
Proof.
  apply (insert_coverage 10 10 (fresh_skyline 10 10 false) skyline_after_4x10
           (new_item 4 10) item_after_4x10 None).
  - reflexivity.
  - reflexivity.
  - simpl. lia.
  - simpl. lia.
  - simpl. lia.
  - exists (fresh_wastemap false). split; [reflexivity|].
    right. exists (fresh_wastemap false). reflexivity.
  - reflexivity.
Defined.

Lemma best_candidate_lowest_witness :
  match Skyline._score (fresh_skyline 10 10 true) with
  | Skyline.BL =>
      0 + turned_height (new_item 3 5) true < 0 + turned_height (new_item 3 5) false
      \/ (0 + turned_height (new_item 3 5) true
          = 0 + turned_height (new_item 3 5) false
          /\ SkylineSegment.width (SkylineSegment.mk 0 0 10)
             <= SkylineSegment.width (SkylineSegment.mk 0 0 10))
  | Skyline.BF =>
      fst (3, 10) < fst (5, 10)
      \/ (fst (3, 10) = fst (5, 10)
          /\ 0 + turned_height (new_item 3 5) true
             <= 0 + turned_height (new_item 3 5) false)
  end.
Proof.
  apply (best_candidate_lowest (fresh_skyline 10 10 true) (new_item 3 5)
           (3, 10) (SkylineSegment.mk 0 0 10) true 0
           O false (SkylineSegment.mk 0 0 10) 0 (5, 10)).
  - reflexivity.
  - split; [reflexivity|]. split; [discriminate|]. split; reflexivity.
Defined.

Lemma donated_rects_free_witness :
  Skyline._add_to_wastemap skyline_after_4x3 0
    (placed (new_item 6 2) false (SkylineSegment.x (SkylineSegment.mk 0 3 4)) 3) 3
  = match donate
            (waste_rects (SkylineSegment.x (SkylineSegment.mk 0 3 4))
               (SkylineSegment.x (SkylineSegment.mk 0 3 4)
                + Item.width
                    (placed (new_item 6 2) false
                       (SkylineSegment.x (SkylineSegment.mk 0 3 4)) 3))
               3 (skipn 0 (Skyline.skyline skyline_after_4x3)))
            (Skyline.wastemap skyline_after_4x3) with
    | Returns _ wm => Returns tt (Skyline.set_wastemap skyline_after_4x3 wm)
    | Raises e wm => Raises e (Skyline.set_wastemap skyline_after_4x3 wm)
    end
  /\ Forall (fun r =>
               0 < fr_width r /\ 0 < fr_height r
               /\ Item.x (placed (new_item 6 2) false
                            (SkylineSegment.x (SkylineSegment.mk 0 3 4)) 3)
                  <= fr_x r
               /\ fr_x r + fr_width r
                  <= Item.x (placed (new_item 6 2) false
                               (SkylineSegment.x (SkylineSegment.mk 0 3 4)) 3)
                     + Item.width (placed (new_item 6 2) false
                                     (SkylineSegment.x (SkylineSegment.mk 0 3 4)) 3)
               /\ 0 <= fr_y r
               /\ fr_y r + fr_height r
                  = Item.y (placed (new_item 6 2) false
                              (SkylineSegment.x (SkylineSegment.mk 0 3 4)) 3)
               /\ Forall (fun it => ~ rect_overlaps r it)
                         (Skyline.items skyline_after_4x3))
            (waste_rects (SkylineSegment.x (SkylineSegment.mk 0 3 4))
               (SkylineSegment.x (SkylineSegment.mk 0 3 4)
                + Item.width
                    (placed (new_item 6 2) false
                       (SkylineSegment.x (SkylineSegment.mk 0 3 4)) 3))
               3 (skipn 0 (Skyline.skyline skyline_after_4x3))).
Proof.
  apply (donated_rects_free 10 10 skyline_after_4x3 (new_item 6 2) O false
           (SkylineSegment.mk 0 3 4) 3 (5, 4)).
  - lia.
  - apply (packed_insert 10 10 (fresh_skyline 10 10 true) (new_item 4 3) None
             true skyline_after_4x3 item_after_4x3).
    + apply (packed_init 10 10 true true "bottom_left"). reflexivity.
    + simpl. lia.
    + simpl. lia.
    + exists (fresh_wastemap true). split; [reflexivity|].
      right. exists (fresh_wastemap true). reflexivity.
    + reflexivity.
    + intros _. simpl. lia.
  - simpl. lia.
  - simpl. lia.
  - split; [reflexivity|]. split; [discriminate|]. split; reflexivity.
Defined.
